(** * Retrospect looper core: shallow embedding of the metronome, the ring
    buffer, loop layering and the engine's pending-operation scheduler.

    Modelling conventions.
    - A C++ [double] is modelled by an exact rational [Q]; every concrete
      value used below (120 or 128 BPM at 44100 Hz and the sample counts fed
      to them) is a dyadic rational well inside binary64, so these
      computations are exact in the source as well.
    - [int64_t] / [int] values are [Z]; the sample counts the engine handles
      stay far from the 64-bit limits.
    - Audio samples ([float]) are [Q].  The claims below only copy, append
      or trim them; the further properties at the end also mix, scale and
      compare them, and do so in exact rational arithmetic, abstracting
      from the rounding of [float] sums and products.
    - Log messages passed to [onMessage] are a tagged type [Msg] instead of
      formatted strings. *)

From Stdlib Require Import ZArith QArith Qround Qabs Lqa List Bool Lia.
Import ListNotations.

Open Scope Z_scope.

(** ** Numeric helpers mirroring the C++ library functions used. *)

Definition Qltb (a b : Q) : bool := negb (Qle_bool b a).

(** [std::min] and [std::max] as the standard library defines them:
    [min(a,b) = (b < a) ? b : a], [max(a,b) = (a < b) ? b : a]. *)
Definition std_min (a b : Q) : Q := if Qltb b a then b else a.
Definition std_max (a b : Q) : Q := if Qltb a b then b else a.

(** [std::round]: half-way cases away from zero. *)
Definition std_round (x : Q) : Z :=
  if Qle_bool 0 x then Qfloor (x + (1 # 2))%Q
  else - Qfloor (- x + (1 # 2))%Q.

(** [std::floor] of a double, cast to [int64_t]. *)
Definition std_floor (x : Q) : Z := Qfloor x.

(** [static_cast<int64_t>] of a double: truncation towards zero. *)
Definition std_trunc (x : Q) : Z :=
  if Qle_bool 0 x then Qfloor x else - Qfloor (- x).

(** ** Metronome (derived-position phrasing, [Metronome.cpp] matching
    [Metronome.h]: position is recomputed from [totalSamples_]). *)

Inductive Quantize := Free | Beat | Bar.

Record MetronomePosition := mkPos {
  pos_totalSamples : Z;
  pos_bar : Z;
  pos_beat : Z;
  pos_beatFraction : Q
}.

Module Metronome.

Record t := mk {
  bpm_ : Q;
  beatsPerBar_ : Z;
  sampleRate_ : Q;
  running_ : bool;
  samplesPerBeat_ : Q;
  samplesPerBar_ : Q;
  totalSamples_ : Z
}.

Definition recalculate (m : t) : t :=
  let spb := ((60 # 1) / bpm_ m * sampleRate_ m)%Q in
  mk (bpm_ m) (beatsPerBar_ m) (sampleRate_ m) (running_ m)
     spb (spb * inject_Z (beatsPerBar_ m))%Q (totalSamples_ m).

(** Constructor [Metronome(bpm, beatsPerBar, sampleRate)]. *)
Definition create (bpm : Q) (beatsPerBar : Z) (sampleRate : Q) : t :=
  recalculate (mk bpm beatsPerBar sampleRate true 0%Q 0%Q 0).

Definition bpm (m : t) : Q := bpm_ m.
Definition samplesPerBeat (m : t) : Q := samplesPerBeat_ m.
Definition samplesPerBar (m : t) : Q := samplesPerBar_ m.

Definition with_total (m : t) (n : Z) : t :=
  mk (bpm_ m) (beatsPerBar_ m) (sampleRate_ m) (running_ m)
     (samplesPerBeat_ m) (samplesPerBar_ m) n.

Definition position (m : t) : MetronomePosition :=
  let totalBeats := (inject_Z (totalSamples_ m) / samplesPerBeat_ m)%Q in
  let wholeBeat := std_floor totalBeats in
  mkPos (totalSamples_ m)
        (Z.quot wholeBeat (beatsPerBar_ m))
        (Z.rem wholeBeat (beatsPerBar_ m))
        (totalBeats - inject_Z (std_floor totalBeats))%Q.

Definition setBpm (v : Q) (m : t) : t :=
  recalculate (mk (std_max 1%Q (std_min v (999 # 1))) (beatsPerBar_ m)
                  (sampleRate_ m) (running_ m) (samplesPerBeat_ m)
                  (samplesPerBar_ m) (totalSamples_ m)).

(** [setBeatsPerBar]: [std::max(1, std::min(beats, 16))] on [int]s. *)
Definition setBeatsPerBar (beats : Z) (m : t) : t :=
  recalculate (mk (bpm_ m) (Z.max 1 (Z.min beats 16)) (sampleRate_ m)
                  (running_ m) (samplesPerBeat_ m) (samplesPerBar_ m)
                  (totalSamples_ m)).

(** Events passed to the beat and bar callbacks, in firing order. *)
Inductive Event := BeatEv (p : MetronomePosition) | BarEv (p : MetronomePosition).

(** Body of the [for (b = startBeat + 1; b <= endBeat + 1; ++b)] loop of
    [advance]: [fuel] iterations starting at beat [b]. *)
Fixpoint boundaries (m : t) (startSample endSample b : Z) (fuel : nat)
  : list Event :=
  match fuel with
  | O => []
  | S fuel' =>
      let boundarySample := std_round (inject_Z b * samplesPerBeat_ m)%Q in
      let here :=
        if (startSample <? boundarySample) && (boundarySample <=? endSample)
        then let pos := position (with_total m boundarySample) in
             BeatEv pos :: (if pos_beat pos =? 0 then [BarEv pos] else [])
        else [] in
      here ++ boundaries m startSample endSample (b + 1) fuel'
  end.

Definition advance (numSamples : Z) (m : t) : t * list Event :=
  if negb (running_ m) || (numSamples <=? 0) then (m, []) else
  let startSample := totalSamples_ m in
  let endSample := totalSamples_ m + numSamples in
  let beatAt (s : Z) := std_floor (inject_Z s / samplesPerBeat_ m)%Q in
  let startBeat := beatAt startSample in
  let endBeat := beatAt (endSample - 1) in
  let evs := boundaries m startSample endSample (startBeat + 1)
                        (Z.to_nat (endBeat + 1 - startBeat)) in
  (with_total m endSample, evs).

Definition reset (m : t) : t := with_total m 0.

(** A sequence of [advance] calls, in order; the events of all calls are
    concatenated. *)
Fixpoint advances (ns : list Z) (m : t) : t * list Event :=
  match ns with
  | [] => (m, [])
  | n :: ns' =>
      let '(m1, e1) := advance n m in
      let '(m2, e2) := advances ns' m1 in
      (m2, e1 ++ e2)
  end.

Definition nextBeatSample (m : t) : Z :=
  let totalBeats := (inject_Z (totalSamples_ m) / samplesPerBeat_ m)%Q in
  let nextBeat := std_floor totalBeats + 1 in
  std_round (inject_Z nextBeat * samplesPerBeat_ m)%Q.

Definition nextBarSample (m : t) : Z :=
  let totalBars := (inject_Z (totalSamples_ m) / samplesPerBar_ m)%Q in
  let nextBar := std_floor totalBars + 1 in
  std_round (inject_Z nextBar * samplesPerBar_ m)%Q.

Definition samplesUntilBoundary (q : Quantize) (m : t) : Z :=
  match q with
  | Free => 0
  | Beat => nextBeatSample m - totalSamples_ m
  | Bar => nextBarSample m - totalSamples_ m
  end.

End Metronome.

(** ** Metronome, accumulator phrasing (the earlier [Metronome.cpp], which
    tracks [sampleInBeat_], [currentBeat_] and [currentBar_]). *)

Module MetronomeAccum.

Record t := mk {
  bpm_ : Q;
  beatsPerBar_ : Z;
  sampleRate_ : Q;
  running_ : bool;
  samplesPerBeat_ : Q;
  samplesPerBar_ : Q;
  totalSamples_ : Z;
  currentBar_ : Z;
  currentBeat_ : Z;
  sampleInBeat_ : Q
}.

Definition recalculate (m : t) : t :=
  let spb := ((60 # 1) / bpm_ m * sampleRate_ m)%Q in
  mk (bpm_ m) (beatsPerBar_ m) (sampleRate_ m) (running_ m)
     spb (spb * inject_Z (beatsPerBar_ m))%Q (totalSamples_ m)
     (currentBar_ m) (currentBeat_ m) (sampleInBeat_ m).

Definition create (bpm : Q) (beatsPerBar : Z) (sampleRate : Q) : t :=
  recalculate (mk bpm beatsPerBar sampleRate true 0%Q 0%Q 0 0 0 0%Q).

Definition position (m : t) : MetronomePosition :=
  mkPos (totalSamples_ m) (currentBar_ m) (currentBeat_ m)
        (sampleInBeat_ m / samplesPerBeat_ m)%Q.

(** One iteration of the per-sample loop of [advance]. *)
Definition tick (m : t) : t * list Metronome.Event :=
  let total := totalSamples_ m + 1 in
  let sib := (sampleInBeat_ m + 1)%Q in
  if Qle_bool (samplesPerBeat_ m) sib then
    let sib' := (sib - samplesPerBeat_ m)%Q in
    let beat1 := currentBeat_ m + 1 in
    let '(beat', bar') :=
      if beatsPerBar_ m <=? beat1 then (0, currentBar_ m + 1)
      else (beat1, currentBar_ m) in
    let m' := mk (bpm_ m) (beatsPerBar_ m) (sampleRate_ m) (running_ m)
                 (samplesPerBeat_ m) (samplesPerBar_ m) total bar' beat' sib' in
    let pos := position m' in
    (m', Metronome.BeatEv pos ::
           (if pos_beat pos =? 0 then [Metronome.BarEv pos] else []))
  else
    (mk (bpm_ m) (beatsPerBar_ m) (sampleRate_ m) (running_ m)
        (samplesPerBeat_ m) (samplesPerBar_ m) total
        (currentBar_ m) (currentBeat_ m) sib, []).

Fixpoint ticks (n : nat) (m : t) : t * list Metronome.Event :=
  match n with
  | O => (m, [])
  | S n' =>
      let '(m1, e1) := tick m in
      let '(m2, e2) := ticks n' m1 in
      (m2, e1 ++ e2)
  end.

Definition advance (numSamples : Z) (m : t) : t * list Metronome.Event :=
  if negb (running_ m) || (numSamples <=? 0) then (m, [])
  else ticks (Z.to_nat numSamples) m.

Definition reset (m : t) : t :=
  mk (bpm_ m) (beatsPerBar_ m) (sampleRate_ m) (running_ m)
     (samplesPerBeat_ m) (samplesPerBar_ m) 0 0 0 0%Q.

Fixpoint advances (ns : list Z) (m : t) : t * list Metronome.Event :=
  match ns with
  | [] => (m, [])
  | n :: ns' =>
      let '(m1, e1) := advance n m in
      let '(m2, e2) := advances ns' m1 in
      (m2, e1 ++ e2)
  end.

Definition setBpm (v : Q) (m : t) : t :=
  let fraction := if Qltb 0 (samplesPerBeat_ m)
                  then (sampleInBeat_ m / samplesPerBeat_ m)%Q else 0%Q in
  let m1 := recalculate
              (mk (std_max 1%Q (std_min v (999 # 1))) (beatsPerBar_ m)
                  (sampleRate_ m) (running_ m) (samplesPerBeat_ m)
                  (samplesPerBar_ m) (totalSamples_ m) (currentBar_ m)
                  (currentBeat_ m) (sampleInBeat_ m)) in
  mk (bpm_ m1) (beatsPerBar_ m1) (sampleRate_ m1) (running_ m1)
     (samplesPerBeat_ m1) (samplesPerBar_ m1) (totalSamples_ m1)
     (currentBar_ m1) (currentBeat_ m1) (fraction * samplesPerBeat_ m1)%Q.

Definition setBeatsPerBar (beats : Z) (m : t) : t :=
  let m1 := recalculate
              (mk (bpm_ m) (Z.max 1 (Z.min beats 16)) (sampleRate_ m)
                  (running_ m) (samplesPerBeat_ m) (samplesPerBar_ m)
                  (totalSamples_ m) (currentBar_ m) (currentBeat_ m)
                  (sampleInBeat_ m)) in
  if beatsPerBar_ m1 <=? currentBeat_ m1 then
    mk (bpm_ m1) (beatsPerBar_ m1) (sampleRate_ m1) (running_ m1)
       (samplesPerBeat_ m1) (samplesPerBar_ m1) (totalSamples_ m1)
       (currentBar_ m1 + 1) 0 (sampleInBeat_ m1)
  else m1.

Definition setSampleRate (rate : Q) (m : t) : t :=
  let fraction := if Qltb 0 (samplesPerBeat_ m)
                  then (sampleInBeat_ m / samplesPerBeat_ m)%Q else 0%Q in
  let m1 := recalculate
              (mk (bpm_ m) (beatsPerBar_ m) rate (running_ m)
                  (samplesPerBeat_ m) (samplesPerBar_ m) (totalSamples_ m)
                  (currentBar_ m) (currentBeat_ m) (sampleInBeat_ m)) in
  mk (bpm_ m1) (beatsPerBar_ m1) (sampleRate_ m1) (running_ m1)
     (samplesPerBeat_ m1) (samplesPerBar_ m1) (totalSamples_ m1)
     (currentBar_ m1) (currentBeat_ m1) (fraction * samplesPerBeat_ m1)%Q.

End MetronomeAccum.

(** ** Ring buffer ([RingBuffer.cpp]).  Sizes, cursors and counts are
    non-negative [int64_t] values, modelled as [nat]; the one subtraction on
    cursors, [writePos_ - samplesAgo + cap * 2], is non-negative because
    [samplesAgo] has been clamped to [available() <= cap], and is written
    with the positive terms first. *)

Module RingBuffer.

Local Open Scope nat_scope.

Abbreviation Sample := Q.

Record t := mk {
  buffer_ : list Sample;
  writePos_ : nat;
  totalWritten_ : nat
}.

(** [memcpy(dst + off, src, len(src))] on a vector. *)
Definition blit (dst : list Sample) (off : nat) (src : list Sample) : list Sample :=
  firstn off dst ++ src ++ skipn (off + length src) dst.

(** The [k] elements of [l] starting at index [s]. *)
Definition slice (l : list Sample) (s k : nat) : list Sample :=
  firstn k (skipn s l).

Definition create (capacitySamples : nat) : t :=
  mk (repeat 0%Q capacitySamples) 0 0.

Definition capacity (rb : t) : nat := length (buffer_ rb).

Definition available (rb : t) : nat := Nat.min (totalWritten_ rb) (capacity rb).

(** [write(data, numSamples)] with [numSamples = data.size()]. *)
Definition write (data : list Sample) (rb : t) : t :=
  let numSamples := length data in
  if numSamples =? 0 then rb else
  let cap := capacity rb in
  if cap <=? numSamples then
    mk (blit (buffer_ rb) 0 (skipn (numSamples - cap) data)) 0
       (totalWritten_ rb + numSamples)
  else
    let spaceToEnd := cap - writePos_ rb in
    let buf :=
      if numSamples <=? spaceToEnd then blit (buffer_ rb) (writePos_ rb) data
      else blit (blit (buffer_ rb) (writePos_ rb) (firstn spaceToEnd data))
                0 (skipn spaceToEnd data) in
    mk buf ((writePos_ rb + numSamples) mod cap) (totalWritten_ rb + numSamples).

(** [readFromPast(dest, numSamples, samplesAgo)]: returns the new contents
    of [dest]. *)
Definition readFromPast (rb : t) (dest : list Sample) (numSamples samplesAgo : nat)
  : list Sample :=
  if numSamples =? 0 then dest else
  let cap := capacity rb in
  let avail := available rb in
  let samplesAgo := if avail <? samplesAgo then avail else samplesAgo in
  let '(dest, off, numSamples) :=
    if samplesAgo <? numSamples then
      let zeroCount := numSamples - samplesAgo in
      (blit dest 0 (repeat 0%Q zeroCount), zeroCount, samplesAgo)
    else (dest, 0, numSamples) in
  let readStart := (writePos_ rb + cap * 2 - samplesAgo) mod cap in
  let spaceToEnd := cap - readStart in
  if numSamples <=? spaceToEnd then
    blit dest off (slice (buffer_ rb) readStart numSamples)
  else
    blit (blit dest off (slice (buffer_ rb) readStart spaceToEnd))
         (off + spaceToEnd) (slice (buffer_ rb) 0 (numSamples - spaceToEnd)).

Definition readMostRecent (rb : t) (dest : list Sample) (numSamples : nat)
  : list Sample :=
  readFromPast rb dest numSamples numSamples.

(** [capture(numSamples)]: a zeroed vector filled by [readMostRecent]. *)
Definition capture (rb : t) (numSamples : nat) : list Sample :=
  readMostRecent rb (repeat 0%Q numSamples) numSamples.

Definition clear (rb : t) : t :=
  mk (repeat 0%Q (capacity rb)) 0 0.

(** Invariant maintained by every operation: the cursor lies inside the
    buffer. *)
Definition wf (rb : t) : Prop :=
  writePos_ rb < capacity rb \/ (capacity rb = 0 /\ writePos_ rb = 0).

(** A history of [write] calls, oldest first. *)
Definition writes (hist : list (list Sample)) (rb : t) : t :=
  fold_left (fun rb d => write d rb) hist rb.

End RingBuffer.

(** ** Pending state ([Loop.h]): one optional slot per operation family. *)

Record PendingTimedOp := mkTimed { t_executeSample : Z; t_quantize : Quantize }.

Inductive UndoDirection := Undo | Redo.

Record PendingUndo := mkUndo {
  u_executeSample : Z; u_quantize : Quantize; u_count : Z; u_direction : UndoDirection
}.

Record PendingSpeed := mkSpeed {
  s_executeSample : Z; s_quantize : Quantize; s_speed : Q
}.

Record PendingCapture := mkCapture {
  c_executeSample : Z; c_quantize : Quantize; c_lookbackSamples : Z
}.

Inductive MuteOp := MuteOp_Mute | MuteOp_Unmute | MuteOp_Toggle.
Inductive OverdubOp := OverdubOp_Start | OverdubOp_Stop.
Inductive RecordOp := RecordOp_Start | RecordOp_Stop.

Record PendingState := mkPending {
  ps_mute : option PendingTimedOp;
  ps_overdub : option PendingTimedOp;
  ps_reverse : option PendingTimedOp;
  ps_undo : option PendingUndo;
  ps_speed : option PendingSpeed;
  ps_clear : option PendingTimedOp;
  ps_capture : option PendingCapture;
  ps_record : option PendingTimedOp;
  ps_muteOp : MuteOp;
  ps_overdubOp : OverdubOp;
  ps_recordOp : RecordOp
}.

Definition emptyPending : PendingState :=
  mkPending None None None None None None None None
            MuteOp_Toggle OverdubOp_Start RecordOp_Start.

Definition is_some {A} (o : option A) : bool :=
  match o with Some _ => true | None => false end.

Definition hasAny (ps : PendingState) : bool :=
  is_some (ps_mute ps) || is_some (ps_overdub ps) || is_some (ps_reverse ps)
  || is_some (ps_undo ps) || is_some (ps_speed ps) || is_some (ps_clear ps)
  || is_some (ps_capture ps) || is_some (ps_record ps).

(** [clearAll] resets the eight slots; the op selectors keep their values. *)
Definition clearAll (ps : PendingState) : PendingState :=
  mkPending None None None None None None None None
            (ps_muteOp ps) (ps_overdubOp ps) (ps_recordOp ps).

(** ** Loop ([Loop.cpp], with the tempo fields of the time-stretching
    version of [Loop.h]; the stretcher's buffers are not modelled). *)

Inductive LoopState := Empty | Playing | Muted | Recording.

Definition LoopState_eqb (a b : LoopState) : bool :=
  match a, b with
  | Empty, Empty | Playing, Playing | Muted, Muted | Recording, Recording => true
  | _, _ => false
  end.

Record LoopLayer := mkLayer { audio : list Q; gain : Q; active : bool }.

Module Loop.

Record t := mk {
  layers_ : list LoopLayer;
  state_ : LoopState;
  loopLength_ : Z;
  playPos_ : Z;
  reversed_ : bool;
  speed_ : Q;
  fractionalPos_ : Q;
  crossfadeSamples_ : Z;
  lengthInBars_ : Q;
  recordedBpm_ : Q;
  currentBpm_ : Q;
  stretchRawPos_ : Z;
  id_ : Z;
  pending_ : PendingState
}.

(** A freshly constructed loop with identifier [i]. *)
Definition create (i : Z) : t :=
  mk [] Empty 0 0 false 1%Q 0%Q 256 0%Q 0%Q 0%Q 0 i emptyPending.

Definition set_layers (l : list LoopLayer) (lp : t) : t :=
  mk l (state_ lp) (loopLength_ lp) (playPos_ lp) (reversed_ lp) (speed_ lp)
     (fractionalPos_ lp) (crossfadeSamples_ lp) (lengthInBars_ lp)
     (recordedBpm_ lp) (currentBpm_ lp) (stretchRawPos_ lp) (id_ lp) (pending_ lp).

Definition set_state (s : LoopState) (lp : t) : t :=
  mk (layers_ lp) s (loopLength_ lp) (playPos_ lp) (reversed_ lp) (speed_ lp)
     (fractionalPos_ lp) (crossfadeSamples_ lp) (lengthInBars_ lp)
     (recordedBpm_ lp) (currentBpm_ lp) (stretchRawPos_ lp) (id_ lp) (pending_ lp).

Definition set_pending (ps : PendingState) (lp : t) : t :=
  mk (layers_ lp) (state_ lp) (loopLength_ lp) (playPos_ lp) (reversed_ lp)
     (speed_ lp) (fractionalPos_ lp) (crossfadeSamples_ lp) (lengthInBars_ lp)
     (recordedBpm_ lp) (currentBpm_ lp) (stretchRawPos_ lp) (id_ lp) ps.

Definition isEmpty (lp : t) : bool := LoopState_eqb (state_ lp) Empty.
Definition isMuted (lp : t) : bool := LoopState_eqb (state_ lp) Muted.
Definition isRecording (lp : t) : bool := LoopState_eqb (state_ lp) Recording.

(** [clear] of the time-stretching [Loop] (the one the engine runs): it also
    resets [stretchRawPos_] and [recordedBpm_]. *)
Definition clear (lp : t) : t :=
  mk [] Empty 0 0 false 1%Q 0%Q (crossfadeSamples_ lp) 0%Q
     0%Q (currentBpm_ lp) 0 (id_ lp) (pending_ lp).

Definition loadFromCapture (a : list Q) (lp : t) : t :=
  let c := clear lp in
  mk [mkLayer a 1%Q true] Playing (Z.of_nat (length a)) 0 (reversed_ c)
     (speed_ c) 0%Q (crossfadeSamples_ c) (lengthInBars_ c) (recordedBpm_ c)
     (currentBpm_ c) (stretchRawPos_ c) (id_ c) (pending_ c).

Fixpoint update_nth {A} (i : nat) (f : A -> A) (l : list A) : list A :=
  match l, i with
  | [], _ => []
  | x :: l', O => f x :: l'
  | x :: l', S i' => x :: update_nth i' f l'
  end.

Definition set_active (b : bool) (l : LoopLayer) : LoopLayer :=
  mkLayer (audio l) (gain l) b.

(** [for (i = size - 1; i > 0; --i) if (layers_[i].active) {...; return;}]:
    [i] counts down from the index given. *)
Fixpoint undo_scan (i : nat) (ls : list LoopLayer) : list LoopLayer :=
  match i with
  | O => ls
  | S i' =>
      match nth_error ls i with
      | Some l => if active l then update_nth i (set_active false) ls
                  else undo_scan i' ls
      | None => undo_scan i' ls
      end
  end.

Definition undoLayer (lp : t) : t :=
  set_layers (undo_scan (length (layers_ lp) - 1) (layers_ lp)) lp.

(** [for (i = 1; i < size; ++i) if (!layers_[i].active) {...; return;}]:
    [fuel] iterations starting at index [i]. *)
Fixpoint redo_scan (i : nat) (fuel : nat) (ls : list LoopLayer) : list LoopLayer :=
  match fuel with
  | O => ls
  | S fuel' =>
      match nth_error ls i with
      | Some l => if active l then redo_scan (S i) fuel' ls
                  else update_nth i (set_active true) ls
      | None => ls
      end
  end.

Definition redoLayer (lp : t) : t :=
  set_layers (redo_scan 1 (length (layers_ lp) - 1) (layers_ lp)) lp.

Definition play (lp : t) : t :=
  if isEmpty lp then lp else set_state Playing lp.

Definition mute (lp : t) : t :=
  if isEmpty lp then lp else set_state Muted lp.

Definition toggleMute (lp : t) : t :=
  match state_ lp with
  | Playing => set_state Muted lp
  | Muted => set_state Playing lp
  | _ => lp
  end.

Definition startOverdub (lp : t) : t :=
  if isEmpty lp || (loopLength_ lp =? 0) then lp else
  set_state Recording
    (set_layers (layers_ lp ++ [mkLayer (repeat 0%Q (Z.to_nat (loopLength_ lp))) 1%Q true]) lp).

Definition stopOverdub (lp : t) : t :=
  if isRecording lp then set_state Playing lp else lp.

Definition toggleReverse (lp : t) : t :=
  mk (layers_ lp) (state_ lp) (loopLength_ lp) (playPos_ lp) (negb (reversed_ lp))
     (speed_ lp) (fractionalPos_ lp) (crossfadeSamples_ lp) (lengthInBars_ lp)
     (recordedBpm_ lp) (currentBpm_ lp) (stretchRawPos_ lp) (id_ lp) (pending_ lp).

Definition setSpeed (spd : Q) (lp : t) : t :=
  mk (layers_ lp) (state_ lp) (loopLength_ lp) (playPos_ lp) (reversed_ lp)
     (std_max (1 # 4) (std_min spd (4 # 1))) (fractionalPos_ lp)
     (crossfadeSamples_ lp) (lengthInBars_ lp) (recordedBpm_ lp)
     (currentBpm_ lp) (stretchRawPos_ lp) (id_ lp) (pending_ lp).

Definition setCrossfadeSamples (n : Z) (lp : t) : t :=
  mk (layers_ lp) (state_ lp) (loopLength_ lp) (playPos_ lp) (reversed_ lp)
     (speed_ lp) (fractionalPos_ lp) n (lengthInBars_ lp) (recordedBpm_ lp)
     (currentBpm_ lp) (stretchRawPos_ lp) (id_ lp) (pending_ lp).

Definition setLengthInBars (b : Q) (lp : t) : t :=
  mk (layers_ lp) (state_ lp) (loopLength_ lp) (playPos_ lp) (reversed_ lp)
     (speed_ lp) (fractionalPos_ lp) (crossfadeSamples_ lp) b (recordedBpm_ lp)
     (currentBpm_ lp) (stretchRawPos_ lp) (id_ lp) (pending_ lp).

Definition setRecordedBpm (b : Q) (lp : t) : t :=
  mk (layers_ lp) (state_ lp) (loopLength_ lp) (playPos_ lp) (reversed_ lp)
     (speed_ lp) (fractionalPos_ lp) (crossfadeSamples_ lp) (lengthInBars_ lp) b
     (currentBpm_ lp) (stretchRawPos_ lp) (id_ lp) (pending_ lp).

Definition isTimeStretchActive (lp : t) : bool :=
  negb (isEmpty lp) && Qltb 0 (recordedBpm_ lp) && Qltb 0 (currentBpm_ lp)
  && Qltb (1 # 2) (Qabs (currentBpm_ lp - recordedBpm_ lp)%Q).

Definition setCurrentBpm (b : Q) (lp : t) : t :=
  let wasActive := isTimeStretchActive lp in
  let lp1 := mk (layers_ lp) (state_ lp) (loopLength_ lp) (playPos_ lp)
                (reversed_ lp) (speed_ lp) (fractionalPos_ lp)
                (crossfadeSamples_ lp) (lengthInBars_ lp) (recordedBpm_ lp) b
                (stretchRawPos_ lp) (id_ lp) (pending_ lp) in
  let nowActive := isTimeStretchActive lp1 in
  if negb wasActive && nowActive then
    mk (layers_ lp1) (state_ lp1) (loopLength_ lp1) (playPos_ lp1) (reversed_ lp1)
       (speed_ lp1) 0%Q (crossfadeSamples_ lp1) (lengthInBars_ lp1)
       (recordedBpm_ lp1) (currentBpm_ lp1) (playPos_ lp1) (id_ lp1) (pending_ lp1)
  else if wasActive && negb nowActive then
    mk (layers_ lp1) (state_ lp1) (loopLength_ lp1)
       (Z.rem (stretchRawPos_ lp1) (loopLength_ lp1)) (reversed_ lp1)
       (speed_ lp1) 0%Q (crossfadeSamples_ lp1) (lengthInBars_ lp1)
       (recordedBpm_ lp1) (currentBpm_ lp1) (stretchRawPos_ lp1) (id_ lp1) (pending_ lp1)
  else lp1.

Definition hasPendingOps (lp : t) : bool := hasAny (pending_ lp).
Definition clearPendingOps (lp : t) : t := set_pending (clearAll (pending_ lp)) lp.

(** The active flags of the layers, in order. *)
Definition activeSet (lp : t) : list bool := map active (layers_ lp).

(** [std::vector<float>::resize(n, 0.0f)]: truncate, or pad with zeros. *)
Definition resize (n : nat) (a : list Q) : list Q :=
  firstn n a ++ repeat 0%Q (n - length a).

Definition addLayer (a : list Q) (lp : t) : t :=
  if loopLength_ lp =? 0 then lp else
  set_layers (layers_ lp ++ [mkLayer (resize (Z.to_nat (loopLength_ lp)) a) 1%Q true]) lp.

(** [getMixedSample(pos)]; [layer.audio[pos]] past the end of a layer's
    vector (never the case: every layer holds [loopLength_] samples) reads
    as [0]. *)
Definition getMixedSample (pos : Z) (lp : t) : Q :=
  if (pos <? 0) || (loopLength_ lp <=? pos) then 0%Q else
  fold_left (fun mix layer =>
               if active layer
               then (mix + nth (Z.to_nat pos) (audio layer) 0 * gain layer)%Q
               else mix)
            (layers_ lp) 0%Q.

Definition crossfadeGain (pos : Z) (lp : t) : Q :=
  let cf := crossfadeSamples_ lp in
  if (cf <=? 0) || (loopLength_ lp <=? cf * 2) then 1%Q else
  if pos <? cf then (inject_Z pos / inject_Z cf)%Q else
  let distFromEnd := loopLength_ lp - 1 - pos in
  if distFromEnd <? cf then (inject_Z distFromEnd / inject_Z cf)%Q else 1%Q.

(** The local [readPos] of [processSample] and [pos] of [recordSample]. *)
Definition readPos (lp : t) : Z :=
  if reversed_ lp then loopLength_ lp - 1 - playPos_ lp else playPos_ lp.

Definition set_playhead (pp : Z) (fp : Q) (lp : t) : t :=
  mk (layers_ lp) (state_ lp) (loopLength_ lp) pp (reversed_ lp) (speed_ lp) fp
     (crossfadeSamples_ lp) (lengthInBars_ lp) (recordedBpm_ lp)
     (currentBpm_ lp) (stretchRawPos_ lp) (id_ lp) (pending_ lp).

(** [processSample] of [Loop.cpp]: the output sample and the new loop. *)
Definition processSample (lp : t) : Q * t :=
  match state_ lp with
  | Empty | Muted => (0%Q, lp)
  | _ =>
      let rp := readPos lp in
      let sample := (getMixedSample rp lp * crossfadeGain rp lp)%Q in
      let fp := (fractionalPos_ lp + speed_ lp)%Q in
      let adv := std_trunc fp in
      (sample, set_playhead (Z.rem (playPos_ lp + adv) (loopLength_ lp))
                            (fp - inject_Z adv)%Q lp)
  end.

(** [processBlock(output, output.size())]: [output[i] += processSample()]. *)
Fixpoint processBlock (output : list Q) (lp : t) : list Q * t :=
  match output with
  | [] => ([], lp)
  | o :: rest =>
      let '(s, lp1) := processSample lp in
      let '(out, lp2) := processBlock rest lp1 in
      ((o + s)%Q :: out, lp2)
  end.

(** [recordSample] of [Loop.cpp]: [layers_.back().audio[pos] += input]. *)
Definition recordSample (input : Q) (lp : t) : t :=
  if negb (LoopState_eqb (state_ lp) Recording) || (length (layers_ lp) =? 0)%nat
  then lp else
  let pos := readPos lp in
  if (0 <=? pos) && (pos <? loopLength_ lp) then
    set_layers
      (update_nth (length (layers_ lp) - 1)%nat
         (fun l => mkLayer (update_nth (Z.to_nat pos) (fun s => (s + input)%Q) (audio l))
                           (gain l) (active l))
         (layers_ lp)) lp
  else lp.

Definition activeLayerCount (lp : t) : Z :=
  fold_left (fun count layer => if active layer then count + 1 else count)
            (layers_ lp) 0.

End Loop.

(** ** Input channel ([InputChannel.cpp]): ring buffer and block-peak
    activity detector. *)

Module InputChannel.

Record t := mk {
  ringBuffer_ : RingBuffer.t;
  blockPeaks_ : list Q;
  blockWritePos_ : nat;
  currentBlockPeak_ : Q;
  sampleInBlock_ : Z;
  cachedPeak_ : Q
}.

Definition kBlockSize : Z := 64.

Definition create (ringCapacity : nat) (activityWindowSamples : Z) : t :=
  mk (RingBuffer.create ringCapacity)
     (repeat 0%Q (Z.to_nat (Z.max 1 (Z.quot activityWindowSamples kBlockSize))))
     0 0%Q 0 0%Q.

Definition writeSample (sample : Q) (ch : t) : t :=
  let rb := RingBuffer.write [sample] (ringBuffer_ ch) in
  let absSample := Qabs sample in
  let cbp := if Qltb (currentBlockPeak_ ch) absSample then absSample
             else currentBlockPeak_ ch in
  let sib := sampleInBlock_ ch + 1 in
  if kBlockSize <=? sib then
    let peaks := Loop.update_nth (blockWritePos_ ch) (fun _ => cbp) (blockPeaks_ ch) in
    let wp := ((blockWritePos_ ch + 1) mod length peaks)%nat in
    let cached := fold_left (fun c p => if Qltb c p then p else c) peaks 0%Q in
    mk rb peaks wp 0%Q 0 cached
  else mk rb (blockPeaks_ ch) (blockWritePos_ ch) cbp sib (cachedPeak_ ch).

Definition peakLevel (ch : t) : Q := std_max (cachedPeak_ ch) (currentBlockPeak_ ch).

Definition isLive (threshold : Q) (ch : t) : bool :=
  if Qle_bool threshold 0 then true else Qltb threshold (peakLevel ch).

End InputChannel.

(** ** MIDI clock ([MidiSync.cpp]): the tempo and tick state, with
    [setBpm], [setSampleRate] and [advance]; the [enabled_] flag of the
    class is passed to [advance] as an argument, and the clock bytes it
    sends are returned as a list. *)

Record MidiSync := mkMidi {
  midi_bpm : Q; midi_sampleRate : Q; midi_samplesPerTick : Q; midi_sampleInTick : Q
}.

Definition midi_setBpm (v : Q) (s : MidiSync) : MidiSync :=
  let fraction := if Qltb 0 (midi_samplesPerTick s)
                  then (midi_sampleInTick s / midi_samplesPerTick s)%Q else 0%Q in
  let bpm := std_max 1%Q (std_min v (999 # 1)) in
  let spt := ((60 # 1) / bpm * midi_sampleRate s / (24 # 1))%Q in
  mkMidi bpm (midi_sampleRate s) spt (fraction * spt)%Q.

Definition midi_setSampleRate (rate : Q) (s : MidiSync) : MidiSync :=
  let fraction := if Qltb 0 (midi_samplesPerTick s)
                  then (midi_sampleInTick s / midi_samplesPerTick s)%Q else 0%Q in
  let spt := ((60 # 1) / midi_bpm s * rate / (24 # 1))%Q in
  mkMidi (midi_bpm s) rate spt (fraction * spt)%Q.

(** [kClockTick = 0xF8]. *)
Definition kClockTick : Z := 248.

(** [n] iterations of the per-sample loop of [advance]: the new state and
    the bytes handed to [sendByte], in order. *)
Fixpoint midi_ticks (n : nat) (s : MidiSync) : MidiSync * list Z :=
  match n with
  | O => (s, [])
  | S n' =>
      let sit := (midi_sampleInTick s + 1)%Q in
      let '(s1, out1) :=
        if Qle_bool (midi_samplesPerTick s) sit
        then (mkMidi (midi_bpm s) (midi_sampleRate s) (midi_samplesPerTick s)
                     (sit - midi_samplesPerTick s)%Q, [kClockTick])
        else (mkMidi (midi_bpm s) (midi_sampleRate s) (midi_samplesPerTick s) sit, []) in
      let '(s2, out2) := midi_ticks n' s1 in
      (s2, out1 ++ out2)
  end.

(** [advance(numSamples)]; [enabled] is the [enabled_] flag, which the
    tempo record above does not carry. *)
Definition midi_advance (enabled : bool) (numSamples : Z) (s : MidiSync)
  : MidiSync * list Z :=
  if negb enabled || (numSamples <=? 0) then (s, [])
  else midi_ticks (Z.to_nat numSamples) s.

(** ** Loop engine ([LoopEngine.cpp]). *)

Record ActiveRecording := mkRec {
  loopIndex : Z; buffer : list Q; startSample : Z
}.

(** Messages handed to [onMessage] (and stored in [lastMessage_]). *)
Inductive Msg :=
  | MsgNone
  | MsgCleared (id : Z)
  | MsgMuted (id : Z)
  | MsgUnmuted (id : Z)
  | MsgOverdubStarted (id : Z)
  | MsgOverdubStopped (id : Z)
  | MsgReversed (id : Z)
  | MsgForward (id : Z)
  | MsgSpeed (id : Z) (spd : Q)
  | MsgUndone (id : Z) (count : Z)
  | MsgRedone (id : Z) (count : Z)
  | MsgNoAudioToCapture
  | MsgNoLiveInput
  | MsgCaptured (id : Z) (bars : Z) (liveCount : Z)
  | MsgAlreadyRecording (idx : Z)
  | MsgRecording (idx : Z)
  | MsgNoActiveRecording
  | MsgStopIgnored (idx : Z)
  | MsgNoAudioRecorded
  | MsgRecorded (idx : Z) (bars : Q).

Inductive OpType :=
  | Op_CaptureLoop | Op_Record | Op_StopRecord | Op_Mute | Op_Unmute
  | Op_ToggleMute | Op_Reverse | Op_StartOverdub | Op_StopOverdub
  | Op_UndoLayer | Op_RedoLayer | Op_SetSpeed | Op_ClearLoop.

Inductive CommandType :=
  | Cmd_ScheduleOp | Cmd_CaptureLoop | Cmd_Record | Cmd_StopRecord
  | Cmd_SetSpeed | Cmd_SetBpm | Cmd_CancelPending.

Record EngineCommand := mkCmd {
  commandType : CommandType;
  opType : OpType;
  cmd_loopIndex : Z;
  cmd_quantize : Quantize;
  value : Q;
  lookbackBars : Z
}.

Module Engine.

Record t := mk {
  loops_ : list Loop.t;
  inputRings_ : list RingBuffer.t;
  lastThresholdBreachSample_ : list Z;
  liveThreshold_ : Q;
  activeRecording_ : option ActiveRecording;
  metronome_ : Metronome.t;
  midiSync_ : MidiSync;
  lookbackBars_ : Z;
  crossfadeSamples_ : Z;
  latencyCompensation_ : Z;
  lastMessage_ : Msg;
  messages_ : list Msg;
  stateChanges_ : nat;
  isRecordingAtomic_ : bool;
  recordingLoopIdxAtomic_ : Z;
  bpmChanges_ : list Q
}.

Definition set_loops (v : list Loop.t) (e : t) : t :=
  mk v (inputRings_ e) (lastThresholdBreachSample_ e) (liveThreshold_ e) (activeRecording_ e) (metronome_ e) (midiSync_ e) (lookbackBars_ e) (crossfadeSamples_ e) (latencyCompensation_ e) (lastMessage_ e) (messages_ e) (stateChanges_ e) (isRecordingAtomic_ e) (recordingLoopIdxAtomic_ e) (bpmChanges_ e).

Definition set_inputRings (v : list RingBuffer.t) (e : t) : t :=
  mk (loops_ e) v (lastThresholdBreachSample_ e) (liveThreshold_ e) (activeRecording_ e) (metronome_ e) (midiSync_ e) (lookbackBars_ e) (crossfadeSamples_ e) (latencyCompensation_ e) (lastMessage_ e) (messages_ e) (stateChanges_ e) (isRecordingAtomic_ e) (recordingLoopIdxAtomic_ e) (bpmChanges_ e).

Definition set_lastThresholdBreachSample (v : list Z) (e : t) : t :=
  mk (loops_ e) (inputRings_ e) v (liveThreshold_ e) (activeRecording_ e) (metronome_ e) (midiSync_ e) (lookbackBars_ e) (crossfadeSamples_ e) (latencyCompensation_ e) (lastMessage_ e) (messages_ e) (stateChanges_ e) (isRecordingAtomic_ e) (recordingLoopIdxAtomic_ e) (bpmChanges_ e).

Definition set_liveThreshold (v : Q) (e : t) : t :=
  mk (loops_ e) (inputRings_ e) (lastThresholdBreachSample_ e) v (activeRecording_ e) (metronome_ e) (midiSync_ e) (lookbackBars_ e) (crossfadeSamples_ e) (latencyCompensation_ e) (lastMessage_ e) (messages_ e) (stateChanges_ e) (isRecordingAtomic_ e) (recordingLoopIdxAtomic_ e) (bpmChanges_ e).

Definition set_activeRecording (v : option ActiveRecording) (e : t) : t :=
  mk (loops_ e) (inputRings_ e) (lastThresholdBreachSample_ e) (liveThreshold_ e) v (metronome_ e) (midiSync_ e) (lookbackBars_ e) (crossfadeSamples_ e) (latencyCompensation_ e) (lastMessage_ e) (messages_ e) (stateChanges_ e) (isRecordingAtomic_ e) (recordingLoopIdxAtomic_ e) (bpmChanges_ e).

Definition set_metronome (v : Metronome.t) (e : t) : t :=
  mk (loops_ e) (inputRings_ e) (lastThresholdBreachSample_ e) (liveThreshold_ e) (activeRecording_ e) v (midiSync_ e) (lookbackBars_ e) (crossfadeSamples_ e) (latencyCompensation_ e) (lastMessage_ e) (messages_ e) (stateChanges_ e) (isRecordingAtomic_ e) (recordingLoopIdxAtomic_ e) (bpmChanges_ e).

Definition set_midiSync (v : MidiSync) (e : t) : t :=
  mk (loops_ e) (inputRings_ e) (lastThresholdBreachSample_ e) (liveThreshold_ e) (activeRecording_ e) (metronome_ e) v (lookbackBars_ e) (crossfadeSamples_ e) (latencyCompensation_ e) (lastMessage_ e) (messages_ e) (stateChanges_ e) (isRecordingAtomic_ e) (recordingLoopIdxAtomic_ e) (bpmChanges_ e).

Definition set_lookbackBars (v : Z) (e : t) : t :=
  mk (loops_ e) (inputRings_ e) (lastThresholdBreachSample_ e) (liveThreshold_ e) (activeRecording_ e) (metronome_ e) (midiSync_ e) v (crossfadeSamples_ e) (latencyCompensation_ e) (lastMessage_ e) (messages_ e) (stateChanges_ e) (isRecordingAtomic_ e) (recordingLoopIdxAtomic_ e) (bpmChanges_ e).

Definition set_crossfadeSamples (v : Z) (e : t) : t :=
  mk (loops_ e) (inputRings_ e) (lastThresholdBreachSample_ e) (liveThreshold_ e) (activeRecording_ e) (metronome_ e) (midiSync_ e) (lookbackBars_ e) v (latencyCompensation_ e) (lastMessage_ e) (messages_ e) (stateChanges_ e) (isRecordingAtomic_ e) (recordingLoopIdxAtomic_ e) (bpmChanges_ e).

Definition set_latencyCompensation (v : Z) (e : t) : t :=
  mk (loops_ e) (inputRings_ e) (lastThresholdBreachSample_ e) (liveThreshold_ e) (activeRecording_ e) (metronome_ e) (midiSync_ e) (lookbackBars_ e) (crossfadeSamples_ e) v (lastMessage_ e) (messages_ e) (stateChanges_ e) (isRecordingAtomic_ e) (recordingLoopIdxAtomic_ e) (bpmChanges_ e).

Definition set_lastMessage (v : Msg) (e : t) : t :=
  mk (loops_ e) (inputRings_ e) (lastThresholdBreachSample_ e) (liveThreshold_ e) (activeRecording_ e) (metronome_ e) (midiSync_ e) (lookbackBars_ e) (crossfadeSamples_ e) (latencyCompensation_ e) v (messages_ e) (stateChanges_ e) (isRecordingAtomic_ e) (recordingLoopIdxAtomic_ e) (bpmChanges_ e).

Definition set_messages (v : list Msg) (e : t) : t :=
  mk (loops_ e) (inputRings_ e) (lastThresholdBreachSample_ e) (liveThreshold_ e) (activeRecording_ e) (metronome_ e) (midiSync_ e) (lookbackBars_ e) (crossfadeSamples_ e) (latencyCompensation_ e) (lastMessage_ e) v (stateChanges_ e) (isRecordingAtomic_ e) (recordingLoopIdxAtomic_ e) (bpmChanges_ e).

Definition set_stateChanges (v : nat) (e : t) : t :=
  mk (loops_ e) (inputRings_ e) (lastThresholdBreachSample_ e) (liveThreshold_ e) (activeRecording_ e) (metronome_ e) (midiSync_ e) (lookbackBars_ e) (crossfadeSamples_ e) (latencyCompensation_ e) (lastMessage_ e) (messages_ e) v (isRecordingAtomic_ e) (recordingLoopIdxAtomic_ e) (bpmChanges_ e).

Definition set_isRecordingAtomic (v : bool) (e : t) : t :=
  mk (loops_ e) (inputRings_ e) (lastThresholdBreachSample_ e) (liveThreshold_ e) (activeRecording_ e) (metronome_ e) (midiSync_ e) (lookbackBars_ e) (crossfadeSamples_ e) (latencyCompensation_ e) (lastMessage_ e) (messages_ e) (stateChanges_ e) v (recordingLoopIdxAtomic_ e) (bpmChanges_ e).

Definition set_recordingLoopIdxAtomic (v : Z) (e : t) : t :=
  mk (loops_ e) (inputRings_ e) (lastThresholdBreachSample_ e) (liveThreshold_ e) (activeRecording_ e) (metronome_ e) (midiSync_ e) (lookbackBars_ e) (crossfadeSamples_ e) (latencyCompensation_ e) (lastMessage_ e) (messages_ e) (stateChanges_ e) (isRecordingAtomic_ e) v (bpmChanges_ e).

Definition set_bpmChanges (v : list Q) (e : t) : t :=
  mk (loops_ e) (inputRings_ e) (lastThresholdBreachSample_ e) (liveThreshold_ e) (activeRecording_ e) (metronome_ e) (midiSync_ e) (lookbackBars_ e) (crossfadeSamples_ e) (latencyCompensation_ e) (lastMessage_ e) (messages_ e) (stateChanges_ e) (isRecordingAtomic_ e) (recordingLoopIdxAtomic_ e) v.

(** [lastMessage_ = m; if (callbacks_.onMessage) callbacks_.onMessage(m)]. *)
Definition message (m : Msg) (e : t) : t :=
  set_messages (messages_ e ++ [m]) (set_lastMessage m e).

(** [if (callbacks_.onStateChanged) callbacks_.onStateChanged()]. *)
Definition stateChanged (e : t) : t := set_stateChanges (S (stateChanges_ e)) e.

Definition totalSamples (e : t) : Z := pos_totalSamples (Metronome.position (metronome_ e)).

Definition maxLoops (e : t) : Z := Z.of_nat (length (loops_ e)).

Definition INT64_MIN : Z := - 2 ^ 63.

Definition add_samples (a b : list Q) : list Q :=
  map (fun p => (fst p + snd p)%Q) (combine a b).

(** The loop of [fulfillCapture] over the input channels: returns the mix
    and the number of channels included. *)
Fixpoint capture_channels (e : t) (rings : list RingBuffer.t) (chIdx : nat)
    (captureLen : nat) (samplesAgo : nat) (captureStartSample : Z)
    (acc : list Q) (liveCount : Z) : list Q * Z :=
  match rings with
  | [] => (acc, liveCount)
  | rb :: rest =>
      let hadActivity :=
        Qle_bool (liveThreshold_ e) 0
        || (captureStartSample <=? nth chIdx (lastThresholdBreachSample_ e) INT64_MIN) in
      if hadActivity then
        let chAudio := RingBuffer.readFromPast rb (repeat 0%Q captureLen)
                                               captureLen samplesAgo in
        capture_channels e rest (S chIdx) captureLen samplesAgo captureStartSample
                         (add_samples acc chAudio) (liveCount + 1)
      else
        capture_channels e rest (S chIdx) captureLen samplesAgo captureStartSample
                         acc liveCount
  end.

Definition fulfillCapture (lp : Loop.t) (cap : PendingCapture) (e : t) : Loop.t * t :=
  let idx := Loop.id_ lp in
  let lookback0 :=
    if c_lookbackSamples cap <=? 0
    then std_round (inject_Z (lookbackBars_ e) * Metronome.samplesPerBar (metronome_ e))%Q
    else c_lookbackSamples cap in
  let lookback := fold_left (fun lb rb => Z.min lb (Z.of_nat (RingBuffer.available rb)))
                            (inputRings_ e) lookback0 in
  if lookback <=? 0 then (lp, message MsgNoAudioToCapture e) else
  let captureLen := lookback in
  let samplesAgo := captureLen + latencyCompensation_ e in
  let currentSample := totalSamples e in
  let captureStartSample := currentSample - samplesAgo in
  let '(a, liveCount) :=
    capture_channels e (inputRings_ e) 0 (Z.to_nat captureLen) (Z.to_nat samplesAgo)
                     captureStartSample (repeat 0%Q (Z.to_nat captureLen)) 0 in
  if liveCount =? 0 then (lp, message MsgNoLiveInput e) else
  let bars := (inject_Z lookback / Metronome.samplesPerBar (metronome_ e))%Q in
  let bpm := Metronome.bpm (metronome_ e) in
  let lp' := Loop.setCurrentBpm bpm (Loop.setRecordedBpm bpm
               (Loop.setLengthInBars bars
                 (Loop.setCrossfadeSamples (crossfadeSamples_ e)
                   (Loop.loadFromCapture a lp)))) in
  (lp', stateChanged (message (MsgCaptured idx (std_round bars) liveCount) e)).

Definition fulfillRecord (lp : Loop.t) (e : t) : Loop.t * t :=
  let idx := Loop.id_ lp in
  match activeRecording_ e with
  | Some rec => (lp, message (MsgAlreadyRecording (loopIndex rec)) e)
  | None =>
      let lp' := Loop.clear lp in
      let rec := mkRec idx [] (totalSamples e) in
      let e1 := set_recordingLoopIdxAtomic idx
                  (set_isRecordingAtomic true (set_activeRecording (Some rec) e)) in
      (lp', stateChanged (message (MsgRecording idx) e1))
  end.

Definition fulfillStopRecord (lp : Loop.t) (e : t) : Loop.t * t :=
  match activeRecording_ e with
  | None => (lp, message MsgNoActiveRecording e)
  | Some rec =>
      let idx := loopIndex rec in
      if negb (Loop.id_ lp =? idx) then (lp, message (MsgStopIgnored idx) e) else
      let L := latencyCompensation_ e in
      let buf := buffer rec in
      let buf := if (0 <? L) && (L <? Z.of_nat (length buf))
                 then skipn (Z.to_nat L) buf else buf in
      let stopped (e0 : t) :=
        set_recordingLoopIdxAtomic (-1)
          (set_isRecordingAtomic false (set_activeRecording None e0)) in
      match buf with
      | [] => (lp, message MsgNoAudioRecorded (stopped e))
      | _ =>
          let lp1 := Loop.setCrossfadeSamples (crossfadeSamples_ e)
                       (Loop.loadFromCapture buf lp) in
          let bars := (inject_Z (Loop.loopLength_ lp1)
                       / Metronome.samplesPerBar (metronome_ e))%Q in
          let bpm := Metronome.bpm (metronome_ e) in
          let lp' := Loop.setCurrentBpm bpm (Loop.setRecordedBpm bpm
                       (Loop.setLengthInBars bars lp1)) in
          (lp', stateChanged (message (MsgRecorded idx bars) (stopped e)))
      end
  end.

Definition due (o : option Z) (currentSample : Z) : bool :=
  match o with Some x => x <=? currentSample | None => false end.

Fixpoint repeat_op (n : nat) (f : Loop.t -> Loop.t) (lp : Loop.t) : Loop.t :=
  match n with O => lp | S n' => repeat_op n' f (f lp) end.

Definition flushDueOps (lp : Loop.t) (e : t) (currentSample : Z) : Loop.t * t :=
  let ps := Loop.pending_ lp in
  (* Clear: if due, execute and cancel everything else *)
  if due (option_map t_executeSample (ps_clear ps)) currentSample then
    let lp1 := Loop.clear lp in
    let lp2 := Loop.set_pending (clearAll (Loop.pending_ lp1)) lp1 in
    (lp2, stateChanged (message (MsgCleared (Loop.id_ lp)) e))
  else
  (* Capture *)
  let '(lp, e) :=
    match Loop.pending_ lp with
    | mkPending mu ov rv un sp cl (Some cap) rc mo oo ro =>
        if c_executeSample cap <=? currentSample then
          fulfillCapture (Loop.set_pending (mkPending mu ov rv un sp cl None rc mo oo ro) lp) cap e
        else (lp, e)
    | _ => (lp, e)
    end in
  (* Record start/stop *)
  let '(lp, e) :=
    match Loop.pending_ lp with
    | mkPending mu ov rv un sp cl cp (Some r) mo oo ro =>
        if t_executeSample r <=? currentSample then
          let lp0 := Loop.set_pending (mkPending mu ov rv un sp cl cp None mo oo ro) lp in
          match ro with
          | RecordOp_Start => fulfillRecord lp0 e
          | RecordOp_Stop => fulfillStopRecord lp0 e
          end
        else (lp, e)
    | _ => (lp, e)
    end in
  (* Mute *)
  let '(lp, e) :=
    match Loop.pending_ lp with
    | mkPending (Some m) ov rv un sp cl cp rc mo oo ro =>
        if t_executeSample m <=? currentSample then
          let lp0 := Loop.set_pending (mkPending None ov rv un sp cl cp rc mo oo ro) lp in
          let '(lp1, msg) :=
            match mo with
            | MuteOp_Mute => (Loop.mute lp0, MsgMuted (Loop.id_ lp0))
            | MuteOp_Unmute => (Loop.play lp0, MsgUnmuted (Loop.id_ lp0))
            | MuteOp_Toggle =>
                let l := Loop.toggleMute lp0 in
                (l, if Loop.isMuted l then MsgMuted (Loop.id_ l) else MsgUnmuted (Loop.id_ l))
            end in
          (lp1, stateChanged (message msg e))
        else (lp, e)
    | _ => (lp, e)
    end in
  (* Overdub *)
  let '(lp, e) :=
    match Loop.pending_ lp with
    | mkPending mu (Some o) rv un sp cl cp rc mo oo ro =>
        if t_executeSample o <=? currentSample then
          let lp0 := Loop.set_pending (mkPending mu None rv un sp cl cp rc mo oo ro) lp in
          match oo with
          | OverdubOp_Start =>
              (Loop.startOverdub lp0, stateChanged (message (MsgOverdubStarted (Loop.id_ lp0)) e))
          | OverdubOp_Stop =>
              (Loop.stopOverdub lp0, stateChanged (message (MsgOverdubStopped (Loop.id_ lp0)) e))
          end
        else (lp, e)
    | _ => (lp, e)
    end in
  (* Reverse *)
  let '(lp, e) :=
    match Loop.pending_ lp with
    | mkPending mu ov (Some r) un sp cl cp rc mo oo ro =>
        if t_executeSample r <=? currentSample then
          let lp1 := Loop.toggleReverse
                       (Loop.set_pending (mkPending mu ov None un sp cl cp rc mo oo ro) lp) in
          let msg := if Loop.reversed_ lp1 then MsgReversed (Loop.id_ lp1)
                     else MsgForward (Loop.id_ lp1) in
          (lp1, stateChanged (message msg e))
        else (lp, e)
    | _ => (lp, e)
    end in
  (* Speed *)
  let '(lp, e) :=
    match Loop.pending_ lp with
    | mkPending mu ov rv un (Some s) cl cp rc mo oo ro =>
        if s_executeSample s <=? currentSample then
          let lp1 := Loop.setSpeed (s_speed s)
                       (Loop.set_pending (mkPending mu ov rv un None cl cp rc mo oo ro) lp) in
          (lp1, stateChanged (message (MsgSpeed (Loop.id_ lp1) (s_speed s)) e))
        else (lp, e)
    | _ => (lp, e)
    end in
  (* Undo/Redo *)
  match Loop.pending_ lp with
  | mkPending mu ov rv (Some u) sp cl cp rc mo oo ro =>
      if u_executeSample u <=? currentSample then
        let lp0 := Loop.set_pending (mkPending mu ov rv None sp cl cp rc mo oo ro) lp in
        let f := match u_direction u with Undo => Loop.undoLayer | Redo => Loop.redoLayer end in
        let lp1 := repeat_op (Z.to_nat (u_count u)) f lp0 in
        let msg := match u_direction u with
                   | Undo => MsgUndone (Loop.id_ lp1) (u_count u)
                   | Redo => MsgRedone (Loop.id_ lp1) (u_count u) end in
        (lp1, stateChanged (message msg e))
      else (lp, e)
  | _ => (lp, e)
  end.

(** Step 2 of the per-sample loop of [processBlock]: append the live mix to
    the active classic recording, if any. *)
Definition accumulateRecording (liveMix : Q) (e : t) : t :=
  match activeRecording_ e with
  | Some rec => set_activeRecording
                  (Some (mkRec (loopIndex rec) (buffer rec ++ [liveMix]) (startSample rec))) e
  | None => e
  end.

(** Step 3 of the per-sample loop of [processBlock]: flush due operations of
    every loop with pending state.  The flushing functions never read
    [loops_], so the loop being flushed is passed separately and written
    back, as the C++ does through the reference [lp]. *)
Fixpoint flush_from (i : nat) (fuel : nat) (currentSample : Z) (e : t) : t :=
  match fuel with
  | O => e
  | S fuel' =>
      match nth_error (loops_ e) i with
      | Some lp =>
          let e' := if Loop.hasPendingOps lp then
                      let '(lp', e1) := flushDueOps lp e currentSample in
                      set_loops (Loop.update_nth i (fun _ => lp') (loops_ e1)) e1
                    else e in
          flush_from (S i) fuel' currentSample e'
      | None => e
      end
  end.

Definition flushAll (e : t) : t :=
  flush_from 0 (length (loops_ e)) (totalSamples e) e.

Definition computeExecuteSample (q : Quantize) (e : t) : Z :=
  match q with
  | Free => totalSamples e
  | _ => totalSamples e + Metronome.samplesUntilBoundary q (metronome_ e)
  end.

Definition with_loop_pending (idx : Z) (f : PendingState -> PendingState) (e : t) : t :=
  set_loops (Loop.update_nth (Z.to_nat idx)
               (fun lp => Loop.set_pending (f (Loop.pending_ lp)) lp) (loops_ e)) e.

Definition scheduleOpPending (op : OpType) (ex : Z) (q : Quantize)
    (ps : PendingState) : PendingState :=
  let '(mkPending mu ov rv un sp cl cp rc mo oo ro) := ps in
  let tm := Some (mkTimed ex q) in
  match op with
  | Op_Mute => mkPending tm ov rv un sp cl cp rc MuteOp_Mute oo ro
  | Op_Unmute => mkPending tm ov rv un sp cl cp rc MuteOp_Unmute oo ro
  | Op_ToggleMute => mkPending tm ov rv un sp cl cp rc MuteOp_Toggle oo ro
  | Op_Reverse => mkPending mu ov tm un sp cl cp rc mo oo ro
  | Op_StartOverdub => mkPending mu tm rv un sp cl cp rc mo OverdubOp_Start ro
  | Op_StopOverdub => mkPending mu tm rv un sp cl cp rc mo OverdubOp_Stop ro
  | Op_UndoLayer =>
      match un with
      | Some (mkUndo x qq c Undo) => mkPending mu ov rv (Some (mkUndo x qq (c + 1) Undo)) sp cl cp rc mo oo ro
      | _ => mkPending mu ov rv (Some (mkUndo ex q 1 Undo)) sp cl cp rc mo oo ro
      end
  | Op_RedoLayer =>
      match un with
      | Some (mkUndo x qq c Redo) => mkPending mu ov rv (Some (mkUndo x qq (c + 1) Redo)) sp cl cp rc mo oo ro
      | _ => mkPending mu ov rv (Some (mkUndo ex q 1 Redo)) sp cl cp rc mo oo ro
      end
  | Op_ClearLoop => mkPending mu ov rv un sp tm cp rc mo oo ro
  | Op_CaptureLoop | Op_Record | Op_StopRecord | Op_SetSpeed => ps
  end.

Definition set_capture (c : PendingCapture) (ps : PendingState) : PendingState :=
  let '(mkPending mu ov rv un sp cl _ rc mo oo ro) := ps in
  mkPending mu ov rv un sp cl (Some c) rc mo oo ro.

Definition set_record (r : PendingTimedOp) (o : RecordOp) (ps : PendingState) : PendingState :=
  let '(mkPending mu ov rv un sp cl cp _ mo oo _) := ps in
  mkPending mu ov rv un sp cl cp (Some r) mo oo o.

Definition set_speed (s : PendingSpeed) (ps : PendingState) : PendingState :=
  let '(mkPending mu ov rv un _ cl cp rc mo oo ro) := ps in
  mkPending mu ov rv un (Some s) cl cp rc mo oo ro.

Definition in_range (idx : Z) (e : t) : bool := (0 <=? idx) && (idx <? maxLoops e).

(** One iteration of the [switch] of [drainCommands]. *)
Definition applyCommand (cmd : EngineCommand) (e : t) : t :=
  let idx := cmd_loopIndex cmd in
  let q := cmd_quantize cmd in
  match commandType cmd with
  | Cmd_ScheduleOp =>
      if negb (in_range idx e) then e else
      with_loop_pending idx (scheduleOpPending (opType cmd) (computeExecuteSample q e) q) e
  | Cmd_CaptureLoop =>
      if negb (in_range idx e) then e else
      let c := mkCapture (computeExecuteSample q e) q
                 (std_round (inject_Z (lookbackBars cmd)
                             * Metronome.samplesPerBar (metronome_ e))%Q) in
      with_loop_pending idx (set_capture c) e
  | Cmd_Record =>
      if negb (in_range idx e) then e else
      with_loop_pending idx (set_record (mkTimed (computeExecuteSample q e) q) RecordOp_Start) e
  | Cmd_StopRecord =>
      if negb (in_range idx e) then e else
      with_loop_pending idx (set_record (mkTimed (computeExecuteSample q e) q) RecordOp_Stop) e
  | Cmd_SetSpeed =>
      if negb (in_range idx e) then e else
      with_loop_pending idx (set_speed (mkSpeed (computeExecuteSample q e) q (value cmd))) e
  | Cmd_SetBpm =>
      let e1 := set_midiSync (midi_setBpm (value cmd) (midiSync_ e))
                  (set_metronome (Metronome.setBpm (value cmd) (metronome_ e)) e) in
      let e2 := set_bpmChanges (bpmChanges_ e1 ++ [value cmd]) e1 in
      let newBpm := Metronome.bpm (metronome_ e2) in
      set_loops (map (fun lp => if Loop.isEmpty lp then lp else Loop.setCurrentBpm newBpm lp)
                     (loops_ e2)) e2
  | Cmd_CancelPending =>
      set_loops (map Loop.clearPendingOps (loops_ e)) e
  end.

(** [drainCommands]: the queued commands in submission order. *)
Definition drainCommands (queue : list EngineCommand) (e : t) : t :=
  fold_left (fun e cmd => applyCommand cmd e) queue e.

End Engine.

(** * Specification-side definitions *)

(** [v] clamped to the range [[1, 999]], as the claim about [setBpm] words it. *)
Definition clamp_bpm (v : Q) : Q :=
  if Qltb v 1 then 1%Q else if Qltb (999 # 1) v then (999 # 1) else v.

(** A concrete engine: one loop (id 0), no input channels, metronome at
    120 BPM in 4/4 and 44100 Hz, latency compensation [L], and an optional
    classic recording in progress. *)
Definition example_engine (L : Z) (rec : option ActiveRecording) (loops : list Loop.t)
  : Engine.t :=
  Engine.mk loops [] [] 0%Q rec (Metronome.create (120 # 1) 4 (44100 # 1))
    (mkMidi (120 # 1) (44100 # 1) (11025 # 12) 0%Q) 1 256 L MsgNone [] 0
    (match rec with Some _ => true | None => false end)
    (match rec with Some r => loopIndex r | None => -1 end) [].

(** What a callback observes of an event: its kind ([true] for a beat,
    [false] for a bar), its sample index, and the bar and beat counters. *)
Definition ev_key (ev : Metronome.Event) : bool * Z * Z * Z :=
  match ev with
  | Metronome.BeatEv p => (true, pos_totalSamples p, pos_bar p, pos_beat p)
  | Metronome.BarEv p => (false, pos_totalSamples p, pos_bar p, pos_beat p)
  end.

(** [start], [start + 1], ..., [n] integers. *)
Fixpoint zseq (start : Z) (n : nat) : list Z :=
  match n with
  | O => []
  | S n' => start :: zseq (start + 1) n'
  end.

(** The callbacks of beat number [j] when a beat lasts exactly [k] samples:
    a beat at sample [j * k], followed by a bar when the beat opens a bar. *)
Definition beat_keys (k bpb j : Z) : list (bool * Z * Z * Z) :=
  (true, j * k, j / bpb, j mod bpb)
    :: (if j mod bpb =? 0 then [(false, j * k, j / bpb, j mod bpb)] else []).

(** The callbacks of every beat boundary [j * k] with [lo < j * k <= hi]. *)
Definition beats_between (k bpb lo hi : Z) : list (bool * Z * Z * Z) :=
  flat_map (beat_keys k bpb) (zseq (lo / k + 1) (Z.to_nat (hi / k - lo / k))).

(** Number of samples a sequence of [advance] calls moves the clock by. *)
Fixpoint sum_pos (ns : list Z) : Z :=
  match ns with [] => 0 | n :: ns' => Z.max n 0 + sum_pos ns' end.

(** Invariants of the two metronomes when a beat lasts exactly [k] samples,
    [T] samples after a fresh start. *)
Definition accum_inv (k bpb : Z) (a : MetronomeAccum.t) (T : Z) : Prop :=
  MetronomeAccum.running_ a = true /\ MetronomeAccum.beatsPerBar_ a = bpb /\
  (MetronomeAccum.samplesPerBeat_ a == inject_Z k)%Q /\
  MetronomeAccum.totalSamples_ a = T /\
  (MetronomeAccum.sampleInBeat_ a == inject_Z (T mod k))%Q /\
  MetronomeAccum.currentBeat_ a = (T / k) mod bpb /\
  MetronomeAccum.currentBar_ a = (T / k) / bpb.

Definition derived_inv (k bpb : Z) (m : Metronome.t) (T : Z) : Prop :=
  Metronome.running_ m = true /\ Metronome.beatsPerBar_ m = bpb /\
  (Metronome.samplesPerBeat_ m == inject_Z k)%Q /\ Metronome.totalSamples_ m = T.

(** The samples a ring buffer holds, oldest first: the [capacity] samples
    that end just before the write cursor. *)
Definition ring_contents (rb : RingBuffer.t) : list Q :=
  skipn (RingBuffer.writePos_ rb) (RingBuffer.buffer_ rb)
  ++ firstn (RingBuffer.writePos_ rb) (RingBuffer.buffer_ rb).

(** Some pending slot of [ps] is due at sample [cur]: one of the tests
    [flushDueOps] makes before acting. *)
Definition any_due (ps : PendingState) (cur : Z) : bool :=
  Engine.due (option_map t_executeSample (ps_clear ps)) cur
  || Engine.due (option_map c_executeSample (ps_capture ps)) cur
  || Engine.due (option_map t_executeSample (ps_record ps)) cur
  || Engine.due (option_map t_executeSample (ps_mute ps)) cur
  || Engine.due (option_map t_executeSample (ps_overdub ps)) cur
  || Engine.due (option_map t_executeSample (ps_reverse ps)) cur
  || Engine.due (option_map s_executeSample (ps_speed ps)) cur
  || Engine.due (option_map u_executeSample (ps_undo ps)) cur.



(** The contribution of one layer to the mix at position [p]: one
    iteration of the loop of [Loop::getMixedSample]. *)
Definition mix_step (mix : Q) (layer : LoopLayer) (p : nat) : Q :=
  if active layer then (mix + nth p (audio layer) 0 * gain layer)%Q else mix.

(** The sample a playing loop [lp0] at unit speed outputs when its playhead
    is at [j]. *)
Definition pass_sample (lp0 : Loop.t) (j : nat) : Q :=
  let rp := Loop.readPos (Loop.set_playhead (Z.of_nat j) 0 lp0) in
  (Loop.getMixedSample rp lp0 * Loop.crossfadeGain rp lp0)%Q.

(** The number of active layers of a layer list. *)
Definition count_active (ls : list LoopLayer) : nat := length (filter active ls).

(** The invariant the constructor of an input channel establishes and
    [writeSample] keeps: the block cursor indexes the peak array, the
    position in the block is below [kBlockSize], and the array has [N]
    entries. *)
Definition ic_inv (N : nat) (ch : InputChannel.t) : Prop :=
  (InputChannel.blockWritePos_ ch < length (InputChannel.blockPeaks_ ch))%nat /\
  0 <= InputChannel.sampleInBlock_ ch < InputChannel.kBlockSize /\
  length (InputChannel.blockPeaks_ ch) = N.

(** The command types of [drainCommands] that address one loop by index. *)
Definition loop_targeted (c : CommandType) : bool :=
  match c with
  | Cmd_ScheduleOp | Cmd_CaptureLoop | Cmd_Record | Cmd_StopRecord | Cmd_SetSpeed => true
  | Cmd_SetBpm | Cmd_CancelPending => false
  end.

(** * Properties *)

(** ** Arithmetic of [std::floor] and [std::round] on rationals. *)

Lemma Qltb_iff (a b : Q) : Qltb a b = true <-> (a < b)%Q.
Proof.
  unfold Qltb. rewrite negb_true_iff. split.
  - intros H. apply Qnot_le_lt. intros H'. apply Qle_bool_iff in H'. congruence.
  - intros H. destruct (Qle_bool b a) eqn:E; [|reflexivity].
    apply Qle_bool_iff in E. exfalso. apply (Qlt_not_le _ _ H E).
Qed.

Lemma Qltb_false (a b : Q) : Qltb a b = false -> (b <= a)%Q.
Proof.
  intros H. apply Qnot_lt_le. intros H'. apply Qltb_iff in H'. congruence.
Qed.

Lemma Qfloor_unique (x : Q) (k : Z) :
  (inject_Z k <= x)%Q -> (x < inject_Z (k + 1))%Q -> Qfloor x = k.
Proof.
  intros H1 H2.
  pose proof (Qfloor_le x) as F1. pose proof (Qlt_floor x) as F2.
  assert (A : (Qfloor x < k + 1)%Z).
  { rewrite Zlt_Qlt. apply (Qle_lt_trans _ x); assumption. }
  assert (B : (k < Qfloor x + 1)%Z).
  { rewrite Zlt_Qlt. apply (Qle_lt_trans _ x); assumption. }
  lia.
Qed.

Lemma Qfloor_plus_Z (z : Z) (y : Q) : Qfloor (inject_Z z + y) = (z + Qfloor y)%Z.
Proof.
  apply Qfloor_unique.
  - rewrite inject_Z_plus. pose proof (Qfloor_le y). lra.
  - rewrite !inject_Z_plus. pose proof (Qlt_floor y) as H.
    rewrite inject_Z_plus in H. lra.
Qed.

Lemma std_round_nonneg (x : Q) : (0 <= x)%Q -> std_round x = Qfloor (x + (1 # 2)).
Proof.
  intros H. unfold std_round. apply Qle_bool_iff in H. now rewrite H.
Qed.

Lemma std_round_Z (x : Q) (z : Z) : (x == inject_Z z)%Q -> std_round x = z.
Proof.
  intros H. unfold std_round. destruct (Qle_bool 0 x).
  - apply Qfloor_unique; rewrite ?inject_Z_plus; rewrite H;
      try change (inject_Z 1) with 1%Q; lra.
  - rewrite (Qfloor_unique _ (- z)); [lia| |];
      rewrite ?inject_Z_plus, ?inject_Z_opp; rewrite H;
      try change (inject_Z 1) with 1%Q; lra.
Qed.

Lemma Qfloor_mono (x y : Q) : (x <= y)%Q -> (Qfloor x <= Qfloor y)%Z.
Proof. apply Qfloor_resp_le. Qed.

(** Distance from an integer sample [T] to the next multiple of a period
    [p], rounded as [nextBeatSample] / [nextBarSample] round it. *)
Lemma next_boundary_bounds (T : Z) (p : Q) :
  (0 <= T)%Z -> (0 < p)%Q ->
  let n := (Qfloor (inject_Z T / p) + 1)%Z in
  (0 <= std_round (inject_Z n * p) - T <= std_round p)%Z.
Proof.
  intros HT Hp n.
  set (f := Qfloor (inject_Z T / p)) in n.
  pose proof (Qfloor_le (inject_Z T / p)) as F1.
  pose proof (Qlt_floor (inject_Z T / p)) as F2. fold f in F1, F2.
  assert (Ediv : (inject_Z T / p * p == inject_Z T)%Q).
  { field. intros E. rewrite E in Hp. apply (Qlt_irrefl 0 Hp). }
  assert (L1 : (inject_Z T < inject_Z (f + 1) * p)%Q).
  { rewrite <- Ediv. apply Qmult_lt_r; assumption. }
  assert (L2 : (inject_Z f * p <= inject_Z T)%Q).
  { rewrite <- Ediv. apply Qmult_le_r; assumption. }
  assert (HT' : (0 <= inject_Z T)%Q).
  { change 0%Q with (inject_Z 0). rewrite <- Zle_Qle. exact HT. }
  unfold n. rewrite inject_Z_plus in L1 |- *.
  change (inject_Z 1) with 1%Q in *.
  rewrite std_round_nonneg by lra. rewrite (std_round_nonneg p) by lra.
  split.
  - assert (Qfloor (inject_Z T + (1 # 2)) <= Qfloor ((inject_Z f + 1) * p + (1 # 2)))%Z
      by (apply Qfloor_mono; lra).
    rewrite Qfloor_plus_Z in H.
    replace (Qfloor (1 # 2)) with 0%Z in H by reflexivity. lia.
  - assert (Qfloor ((inject_Z f + 1) * p + (1 # 2))
            <= Qfloor (inject_Z T + (p + (1 # 2))))%Z
      by (apply Qfloor_mono; lra).
    rewrite Qfloor_plus_Z in H. lia.
Qed.

(** ** Metronome: tempo changes and quantize boundaries *)

(** Claim C9: after [setBpm v] the tempo is [v] clamped to [[1, 999]], and
    the beat and bar lengths are recomputed from that clamped tempo. *)
Theorem setBpm_clamps_and_recalculates (v : Q) (m : Metronome.t) :
  (Metronome.bpm (Metronome.setBpm v m) == clamp_bpm v)%Q /\
  (Metronome.samplesPerBeat (Metronome.setBpm v m)
     == (60 # 1) / clamp_bpm v * Metronome.sampleRate_ m)%Q /\
  (Metronome.samplesPerBar (Metronome.setBpm v m)
     == Metronome.samplesPerBeat (Metronome.setBpm v m)
        * inject_Z (Metronome.beatsPerBar_ m))%Q.
Proof.
  assert (Hc : (std_max 1%Q (std_min v (999 # 1)) == clamp_bpm v)%Q).
  { unfold std_max, std_min, clamp_bpm.
    destruct (Qltb (999 # 1) v) eqn:E1; destruct (Qltb v 1) eqn:E2;
      repeat match goal with
             | H : Qltb _ _ = true |- _ => apply Qltb_iff in H
             | H : Qltb _ _ = false |- _ => apply Qltb_false in H
             end;
      try (exfalso; lra);
      destruct (Qltb 1 _) eqn:E3;
      repeat match goal with
             | H : Qltb _ _ = true |- _ => apply Qltb_iff in H
             | H : Qltb _ _ = false |- _ => apply Qltb_false in H
             end; lra. }
  unfold Metronome.bpm, Metronome.samplesPerBeat, Metronome.samplesPerBar,
    Metronome.setBpm, Metronome.recalculate; simpl.
  split; [exact Hc|]. split; [|reflexivity].
  rewrite Hc. reflexivity.
Qed.

(** Claim C1 (code defect): at 120 BPM and 44100 Hz, 11025 samples after
    reset the metronome is half-way through its first beat; [setBpm 60]
    leaves [totalSamples_] unchanged and the derived position then reports a
    quarter of a beat. *)
Theorem setBpm_moves_beat_phase :
  let m := Metronome.with_total (Metronome.create (120 # 1) 4 (44100 # 1)) 11025 in
  (pos_beatFraction (Metronome.position m) == 1 # 2)%Q /\
  (pos_beatFraction (Metronome.position (Metronome.setBpm (60 # 1) m)) == 1 # 4)%Q.
Proof. vm_compute. split; reflexivity. Qed.

(** Claim C4, counterexample: at 120 BPM and 44100 Hz, right after the
    first beat fired (22050 samples after reset) the distance to the next
    beat boundary is a full [samplesPerBeat] = 22050, not less. *)
Lemma samplesUntilBoundary_reaches_period :
  let m := fst (Metronome.advance 22050 (Metronome.create (120 # 1) 4 (44100 # 1))) in
  Metronome.samplesUntilBoundary Beat m = 22050 /\
  (Metronome.samplesPerBeat m == 22050 # 1)%Q /\
  ~ (inject_Z (Metronome.samplesUntilBoundary Beat m) < Metronome.samplesPerBeat m)%Q.
Proof.
  split; [vm_compute; reflexivity|]. split; [vm_compute; reflexivity|].
  intros H. vm_compute in H. discriminate H.
Qed.

Lemma samplesUntil_period_bounds (T : Z) (p : Q) :
  (0 <= T)%Z -> (0 < p)%Q ->
  (0 <= std_round (inject_Z (std_floor (inject_Z T / p) + 1) * p) - T
     <= std_round p)%Z /\
  (forall k : Z, (p == inject_Z k)%Q ->
     (1 <= std_round (inject_Z (std_floor (inject_Z T / p) + 1) * p) - T <= k)%Z /\
     (std_round (inject_Z (std_floor (inject_Z T / p) + 1) * p) - T = k <-> T mod k = 0)%Z).
Proof.
  intros HT Hp. split; [apply next_boundary_bounds; assumption|].
  intros k Hk.
  pose proof (next_boundary_bounds T p HT Hp) as [_ Hup].
  rewrite (std_round_Z p k Hk) in Hup.
  unfold std_floor.
  set (f := Qfloor (inject_Z T / p)) in *.
  pose proof (Qlt_floor (inject_Z T / p)) as F2. fold f in F2.
  assert (Ediv : (inject_Z T / p * p == inject_Z T)%Q).
  { field. intros E. rewrite E in Hp. apply (Qlt_irrefl 0 Hp). }
  assert (L1 : (inject_Z T < inject_Z (f + 1) * p)%Q).
  { rewrite <- Ediv. apply Qmult_lt_r; assumption. }
  assert (L0 : (inject_Z f * p <= inject_Z T)%Q).
  { rewrite <- Ediv. apply Qmult_le_r; [assumption|]. apply Qfloor_le. }
  assert (R : std_round (inject_Z (f + 1) * p) = ((f + 1) * k)%Z).
  { apply std_round_Z. rewrite Hk, inject_Z_mult. reflexivity. }
  assert (Kpos : (0 < k)%Z).
  { rewrite Hk in Hp. unfold Qlt in Hp. simpl in Hp. lia. }
  unfold std_floor in Hup. fold f in Hup. rewrite R in Hup |- *.
  rewrite Hk, <- inject_Z_mult, <- Zlt_Qlt in L1.
  rewrite Hk, <- inject_Z_mult, <- Zle_Qle in L0.
  split; [lia|]. split.
  - intros E. replace T with (f * k)%Z by lia. apply Z.mod_mul. lia.
  - intros E. pose proof (Z.div_mod T k ltac:(lia)) as D. rewrite E, Z.add_0_r in D.
    set (q := (T / k)%Z) in *.
    assert (f = q) by nia. subst f. lia.
Qed.

(** Claim C4, as amended: for [Beat] and [Bar] the distance to the next
    boundary is never negative and never exceeds the rounded period
    ([samplesPerBeat] resp. [samplesPerBar]); when the period is a whole
    number [k] of samples it lies in [[1, k]], so it is positive at all
    times, and it equals [k] exactly at a boundary, i.e. when
    [totalSamples] is a multiple of [k]. *)
Theorem samplesUntilBoundary_bounds (m : Metronome.t) :
  (0 <= Metronome.totalSamples_ m)%Z ->
  (0 < Metronome.samplesPerBeat m)%Q ->
  (0 < Metronome.samplesPerBar m)%Q ->
  ((0 <= Metronome.samplesUntilBoundary Beat m
      <= std_round (Metronome.samplesPerBeat m))%Z /\
   (0 <= Metronome.samplesUntilBoundary Bar m
      <= std_round (Metronome.samplesPerBar m))%Z) /\
  (forall k : Z, (Metronome.samplesPerBeat m == inject_Z k)%Q ->
     (1 <= Metronome.samplesUntilBoundary Beat m <= k)%Z /\
     (Metronome.samplesUntilBoundary Beat m = k
      <-> Metronome.totalSamples_ m mod k = 0)%Z) /\
  (forall k : Z, (Metronome.samplesPerBar m == inject_Z k)%Q ->
     (1 <= Metronome.samplesUntilBoundary Bar m <= k)%Z /\
     (Metronome.samplesUntilBoundary Bar m = k
      <-> Metronome.totalSamples_ m mod k = 0)%Z).
Proof.
  intros HT Hb Hr.
  destruct (samplesUntil_period_bounds _ _ HT Hb) as [B1 B2].
  destruct (samplesUntil_period_bounds _ _ HT Hr) as [R1 R2].
  unfold Metronome.samplesUntilBoundary, Metronome.nextBeatSample,
    Metronome.nextBarSample.
  unfold Metronome.samplesPerBeat, Metronome.samplesPerBar in *.
  split; [split; assumption|].
  split; intros k Hk; [apply B2 | apply R2]; exact Hk.
Qed.

Lemma samplesUntilBoundary_bounds_witness :
  let m := fst (Metronome.advance 22050 (Metronome.create (120 # 1) 4 (44100 # 1))) in
  ((0 <= Metronome.samplesUntilBoundary Beat m
      <= std_round (Metronome.samplesPerBeat m))%Z /\
   (0 <= Metronome.samplesUntilBoundary Bar m
      <= std_round (Metronome.samplesPerBar m))%Z) /\
  (forall k : Z, (Metronome.samplesPerBeat m == inject_Z k)%Q ->
     (1 <= Metronome.samplesUntilBoundary Beat m <= k)%Z /\
     (Metronome.samplesUntilBoundary Beat m = k
      <-> Metronome.totalSamples_ m mod k = 0)%Z) /\
  (forall k : Z, (Metronome.samplesPerBar m == inject_Z k)%Q ->
     (1 <= Metronome.samplesUntilBoundary Bar m <= k)%Z /\
     (Metronome.samplesUntilBoundary Bar m = k
      <-> Metronome.totalSamples_ m mod k = 0)%Z).
Proof.
  intros m. apply samplesUntilBoundary_bounds;
    vm_compute; first [reflexivity | discriminate].
Defined.

(** ** Ring buffer: a write followed by a read of the same length *)

Section RingBufferProofs.

Import RingBuffer.

Lemma length_blit (dst src : list Sample) (off : nat) :
  (off + length src <= length dst)%nat -> length (blit dst off src) = length dst.
Proof.
  intros H. unfold blit. rewrite !length_app, length_firstn, length_skipn. lia.
Qed.

Lemma slice_blit (dst src : list Sample) (off : nat) :
  (off + length src <= length dst)%nat -> slice (blit dst off src) off (length src) = src.
Proof.
  intros H. unfold slice, blit.
  rewrite skipn_app, skipn_all2 by (rewrite length_firstn; lia).
  rewrite length_firstn. replace (off - Nat.min off (length dst))%nat with 0%nat by lia.
  simpl. rewrite firstn_app, firstn_all, Nat.sub_diag. simpl. apply app_nil_r.
Qed.

Lemma blit_0_full (dst src : list Sample) :
  length src = length dst -> blit dst 0 src = src.
Proof.
  intros H. unfold blit. simpl. rewrite skipn_all2 by lia. apply app_nil_r.
Qed.

Lemma readStart_after_write (wp n cap : nat) :
  (wp < cap)%nat -> (n <= cap)%nat ->
  (((wp + n) mod cap + cap * 2 - n) mod cap = wp)%nat.
Proof.
  intros Hw Hn.
  destruct (Nat.lt_ge_cases (wp + n) cap) as [Hs|Hs].
  - rewrite (Nat.mod_small (wp + n)) by lia.
    symmetry. apply (Nat.mod_unique _ _ 2); lia.
  - assert (E : ((wp + n) mod cap = wp + n - cap)%nat).
    { symmetry. apply (Nat.mod_unique _ _ 1); lia. }
    rewrite E. symmetry. apply (Nat.mod_unique _ _ 1); lia.
Qed.

Lemma readMostRecent_eq (rb : RingBuffer.t) (dest : list Q) (n : nat) :
  (0 < n)%nat -> (n <= available rb)%nat ->
  readMostRecent rb dest n =
  let cap := capacity rb in
  let rs := ((writePos_ rb + cap * 2 - n) mod cap)%nat in
  if (n <=? cap - rs)%nat then blit dest 0 (slice (buffer_ rb) rs n)
  else blit (blit dest 0 (slice (buffer_ rb) rs (cap - rs))) (cap - rs)
            (slice (buffer_ rb) 0 (n - (cap - rs))).
Proof.
  intros H0 Ha. unfold readMostRecent, readFromPast. cbv zeta.
  rewrite (proj2 (Nat.eqb_neq n 0)) by lia.
  replace (available rb <? n)%nat with false by (symmetry; apply Nat.ltb_ge; lia).
  rewrite Nat.ltb_irrefl. reflexivity.
Qed.

Lemma write_full (buf x : list Q) (wp tw : nat) :
  (0 < length x)%nat -> length x = length buf ->
  write x (mk buf wp tw) = mk x 0 (tw + length x).
Proof.
  intros H0 Hl. unfold write; cbv zeta; unfold capacity; simpl.
  replace (length x =? 0)%nat with false by (symmetry; apply Nat.eqb_neq; lia).
  replace (length buf <=? length x)%nat with true by (symmetry; apply Nat.leb_le; lia).
  rewrite Hl, Nat.sub_diag, skipn_O, blit_0_full by lia. reflexivity.
Qed.

Lemma write_nowrap (buf x : list Q) (wp tw : nat) :
  (0 < length x)%nat -> (length x < length buf)%nat ->
  (length x <= length buf - wp)%nat ->
  write x (mk buf wp tw) =
  mk (blit buf wp x) ((wp + length x) mod length buf) (tw + length x).
Proof.
  intros H0 Hl Hs. unfold write; cbv zeta; unfold capacity; simpl.
  replace (length x =? 0)%nat with false by (symmetry; apply Nat.eqb_neq; lia).
  replace (length buf <=? length x)%nat with false by (symmetry; apply Nat.leb_gt; lia).
  replace (length x <=? length buf - wp)%nat with true by (symmetry; apply Nat.leb_le; lia).
  reflexivity.
Qed.

Lemma write_wrap (buf x : list Q) (wp tw : nat) :
  (0 < length x)%nat -> (length x < length buf)%nat ->
  (length buf - wp < length x)%nat ->
  write x (mk buf wp tw) =
  mk (blit (blit buf wp (firstn (length buf - wp) x)) 0 (skipn (length buf - wp) x))
     ((wp + length x) mod length buf) (tw + length x).
Proof.
  intros H0 Hl Hs. unfold write; cbv zeta; unfold capacity; simpl.
  replace (length x =? 0)%nat with false by (symmetry; apply Nat.eqb_neq; lia).
  replace (length buf <=? length x)%nat with false by (symmetry; apply Nat.leb_gt; lia).
  replace (length x <=? length buf - wp)%nat with false by (symmetry; apply Nat.leb_gt; lia).
  reflexivity.
Qed.

Lemma capacity_write (rb : RingBuffer.t) (d : list Q) :
  wf rb -> capacity (write d rb) = capacity rb.
Proof.
  destruct rb as [buf wp tw]. unfold wf, write; cbv zeta; unfold capacity; simpl.
  intros Hw.
  destruct (length d =? 0)%nat eqn:E0; [reflexivity|].
  apply Nat.eqb_neq in E0.
  destruct (Nat.leb_spec (length buf) (length d)); simpl.
  - apply length_blit. rewrite length_skipn. lia.
  - destruct (Nat.leb_spec (length d) (length buf - wp)).
    + apply length_blit. lia.
    + rewrite length_blit; [apply length_blit; rewrite length_firstn; lia|].
      rewrite length_skipn. rewrite length_blit by (rewrite length_firstn; lia). lia.
Qed.

Lemma wf_create (cap : nat) : wf (create cap).
Proof.
  unfold wf, create, capacity; simpl. rewrite repeat_length. destruct cap; [right|left]; lia.
Qed.

Lemma wf_write (rb : RingBuffer.t) (d : list Q) : wf rb -> wf (write d rb).
Proof.
  intros Hw0. unfold wf. rewrite (capacity_write _ _ Hw0). revert Hw0.
  destruct rb as [buf wp tw].
  unfold wf, write; cbv zeta; unfold capacity; simpl. intros Hw.
  destruct (length d =? 0)%nat eqn:E0; [exact Hw|].
  apply Nat.eqb_neq in E0.
  destruct (Nat.leb_spec (length buf) (length d)); simpl.
  - destruct (length buf); [right|left]; lia.
  - left. apply Nat.mod_upper_bound. lia.
Qed.

Lemma wf_writes (hist : list (list Q)) (rb : RingBuffer.t) :
  wf rb -> wf (writes hist rb) /\ capacity (writes hist rb) = capacity rb.
Proof.
  revert rb. induction hist as [|d hist IH]; intros rb Hw; simpl; [split; auto|].
  destruct (IH (write d rb)) as [H1 H2]; [apply wf_write; exact Hw|].
  unfold writes in *. split; [exact H1|]. rewrite H2. apply capacity_write, Hw.
Qed.

Lemma write_then_readMostRecent_wf (rb : RingBuffer.t) (x dest : list Q) :
  RingBuffer.wf rb ->
  (length x <= RingBuffer.capacity rb)%nat ->
  length dest = length x ->
  RingBuffer.readMostRecent (RingBuffer.write x rb) dest (length x) = x.
Proof.
  destruct rb as [buf wp tw]. unfold RingBuffer.wf, RingBuffer.capacity; simpl.
  intros Hwf Hn Hd.
  destruct (Nat.eqb_spec (length x) 0) as [Hz|Hz].
  { destruct x; [|discriminate]. destruct dest; [reflexivity|discriminate]. }
  destruct (Nat.eq_dec (length x) (length buf)) as [Hc|Hc].
  - (* the write replaces the whole buffer *)
    rewrite write_full by lia.
    rewrite readMostRecent_eq by (unfold available, capacity; simpl; lia).
    unfold capacity; simpl.
    replace ((length x * 2 - length x) mod length x)%nat with 0%nat
      by (replace (length x * 2 - length x)%nat with (1 * length x)%nat by lia;
          rewrite Nat.Div0.mod_mul; reflexivity).
    rewrite Nat.sub_0_r, Nat.leb_refl.
    unfold slice. simpl. rewrite firstn_all.
    apply blit_0_full. lia.
  - destruct Hwf as [Hw|[Hw _]]; [|lia].
    destruct (Nat.leb_spec (length x) (length buf - wp)) as [Hs|Hs].
    + (* no wrap-around *)
      rewrite write_nowrap by lia.
      rewrite readMostRecent_eq
        by (unfold available, capacity; cbn [buffer_ totalWritten_ writePos_];
            rewrite ?length_blit; rewrite ?length_firstn; lia).
      unfold capacity; cbn [buffer_ totalWritten_ writePos_].
      rewrite length_blit by lia.
      rewrite readStart_after_write by lia.
      rewrite (proj2 (Nat.leb_le _ _)) by lia.
      rewrite slice_blit by lia.
      apply blit_0_full. lia.
    + (* the write wraps around the end of the buffer *)
      rewrite write_wrap by lia.
      set (s := (length buf - wp)%nat) in *.
      set (buf1 := blit buf wp (firstn s x)).
      assert (Hl1 : length buf1 = length buf)
        by (apply length_blit; rewrite length_firstn; lia).
      assert (Hsx : length (skipn s x) = (length x - s)%nat) by (rewrite length_skipn; lia).
      rewrite readMostRecent_eq
        by (unfold available, capacity; cbn [buffer_ totalWritten_ writePos_];
            rewrite ?length_blit; rewrite ?length_firstn; lia).
      unfold capacity; cbn [buffer_ totalWritten_ writePos_].
      rewrite length_blit by lia. rewrite Hl1.
      rewrite readStart_after_write by lia.
      fold s. rewrite (proj2 (Nat.leb_gt _ _)) by lia.
      set (buf' := blit buf1 0 (skipn s x)).
      assert (E1 : slice buf' wp s = firstn s x).
      { unfold slice, buf', blit. simpl.
        rewrite skipn_app, skipn_all2 by lia. simpl.
        rewrite Hsx, skipn_skipn.
        replace (wp - (length x - s) + (length x - s))%nat with wp by lia.
        unfold buf1, blit.
        rewrite skipn_app, skipn_all2 by (rewrite length_firstn; lia).
        rewrite length_firstn. replace (wp - Nat.min wp (length buf))%nat with 0%nat by lia.
        simpl. rewrite firstn_app, firstn_firstn, length_firstn, Nat.min_id.
        replace (s - Nat.min s (length x))%nat with 0%nat by lia.
        simpl. apply app_nil_r. }
      assert (E2 : slice buf' 0 (length x - s) = skipn s x).
      { unfold slice, buf', blit. simpl. rewrite Hsx, firstn_app, Hsx, Nat.sub_diag. simpl.
        rewrite app_nil_r. apply firstn_all2. lia. }
      rewrite E1, E2.
      unfold blit. simpl. rewrite length_firstn, length_skipn.
      replace (Nat.min s (length x)) with s by lia.
      rewrite firstn_app, firstn_firstn, Nat.min_id, length_firstn.
      replace (s - Nat.min s (length x))%nat with 0%nat by lia. simpl.
      rewrite app_nil_r.
      rewrite (skipn_all2 (n:=(s + (length x - s))%nat)) by (rewrite length_app, length_firstn, length_skipn; lia).
      rewrite app_nil_r. apply firstn_skipn.
Qed.

(** C7: for every capacity [cap], every history [hist] of earlier writes to a
    ring buffer created with that capacity, and every block [x] with
    [length x <= cap], writing [x] and then reading the [length x] most recent
    samples into a destination of that length yields exactly [x]. *)
Theorem write_then_readMostRecent (cap : nat) (hist : list (list Q)) (x dest : list Q) :
  (length x <= cap)%nat ->
  length dest = length x ->
  readMostRecent (write x (writes hist (create cap))) dest (length x) = x.
Proof.
  intros Hn Hd. destruct (wf_writes hist (create cap) (wf_create cap)) as [Hw Hc].
  apply write_then_readMostRecent_wf; [exact Hw| |exact Hd].
  rewrite Hc. unfold create, capacity; simpl. rewrite repeat_length. exact Hn.
Qed.

End RingBufferProofs.

Lemma write_then_readMostRecent_witness :
  (2 <= 4)%nat /\ length [0;0]%Q = length [7;8]%Q /\
  RingBuffer.readMostRecent
    (RingBuffer.write [7;8]%Q (RingBuffer.writes [[1;2;3]%Q] (RingBuffer.create 4)))
    [0;0]%Q 2 = [7;8]%Q.
Proof.
  split; [lia|]. split; [reflexivity|].
  exact (write_then_readMostRecent 4 [[1;2;3]%Q] [7;8]%Q [0;0]%Q
           ltac:(simpl; lia) eq_refl).
Defined.

(** ** Loop engine: pending clear, record and cancel *)

Lemma message_activeRecording (m : Msg) (e : Engine.t) :
  Engine.activeRecording_ (Engine.message m e) = Engine.activeRecording_ e.
Proof. reflexivity. Qed.

Lemma stateChanged_activeRecording (e : Engine.t) :
  Engine.activeRecording_ (Engine.stateChanged e) = Engine.activeRecording_ e.
Proof. reflexivity. Qed.

(** The live sample of one iteration of [processBlock] is appended to the
    recording in progress, which otherwise keeps its index and start. *)
Lemma accumulateRecording_some (x : Q) (e : Engine.t) (rec : ActiveRecording) :
  Engine.activeRecording_ e = Some rec ->
  Engine.activeRecording_ (Engine.accumulateRecording x e)
  = Some (mkRec (loopIndex rec) (buffer rec ++ [x]) (startSample rec)).
Proof. intros H. unfold Engine.accumulateRecording. rewrite H. reflexivity. Qed.

(** Claim C6: when the pending clear of a loop is due at [cur], flushing the
    loop's due operations only clears the loop: the loop becomes [Empty] with
    no layers, every pending slot is emptied, and the engine's only change is
    the "cleared" message and one state-change notification; none of the other
    pending operations (capture, record, mute, overdub, reverse, speed,
    undo) is executed. *)
Theorem flushDueOps_clear_cancels_all (lp : Loop.t) (e : Engine.t) (cur : Z)
    (c : PendingTimedOp) :
  ps_clear (Loop.pending_ lp) = Some c ->
  (t_executeSample c <= cur)%Z ->
  let r := Engine.flushDueOps lp e cur in
  fst r = Loop.set_pending (clearAll (Loop.pending_ lp)) (Loop.clear lp) /\
  snd r = Engine.stateChanged (Engine.message (MsgCleared (Loop.id_ lp)) e) /\
  Loop.state_ (fst r) = Empty /\ Loop.layers_ (fst r) = [] /\
  Loop.hasPendingOps (fst r) = false.
Proof.
  intros Hc Hle r. unfold r, Engine.flushDueOps, Engine.due.
  rewrite Hc. simpl. rewrite (proj2 (Z.leb_le _ _) Hle). simpl.
  repeat split.
Qed.

(** Claim C8: a [Record] that fires while a classic recording is in progress
    only reports that a recording is running: the target loop is returned
    unchanged, the recording in progress is unchanged, and the next sample of
    [processBlock] still appends its live mix to that recording. *)
Theorem fulfillRecord_while_recording (lp : Loop.t) (e : Engine.t)
    (rec : ActiveRecording) (x : Q) :
  Engine.activeRecording_ e = Some rec ->
  let r := Engine.fulfillRecord lp e in
  fst r = lp /\
  snd r = Engine.message (MsgAlreadyRecording (loopIndex rec)) e /\
  Engine.activeRecording_ (snd r) = Some rec /\
  Engine.activeRecording_ (Engine.accumulateRecording x (snd r))
  = Some (mkRec (loopIndex rec) (buffer rec ++ [x]) (startSample rec)).
Proof.
  intros H r. unfold r, Engine.fulfillRecord. rewrite H. simpl.
  split; [reflexivity|]. split; [reflexivity|].
  split; [exact H|]. apply accumulateRecording_some. exact H.
Qed.

(** Claim C10: draining a [CancelPending] command empties the pending slots
    of every loop and changes nothing else of the loops or of the engine; in
    particular a classic recording in progress keeps its index, buffer and
    start sample, and the next sample is still appended to it. *)
Theorem cancelPending_keeps_recording (cmd : EngineCommand) (e : Engine.t) (x : Q) :
  commandType cmd = Cmd_CancelPending ->
  let e' := Engine.drainCommands [cmd] e in
  e' = Engine.set_loops (map Loop.clearPendingOps (Engine.loops_ e)) e /\
  Forall (fun lp => Loop.hasPendingOps lp = false) (Engine.loops_ e') /\
  Engine.activeRecording_ e' = Engine.activeRecording_ e /\
  Engine.activeRecording_ (Engine.accumulateRecording x e')
  = option_map (fun rec => mkRec (loopIndex rec) (buffer rec ++ [x]) (startSample rec))
               (Engine.activeRecording_ e).
Proof.
  intros H e'.
  assert (E : e' = Engine.set_loops (map Loop.clearPendingOps (Engine.loops_ e)) e).
  { unfold e', Engine.drainCommands. simpl. unfold Engine.applyCommand. rewrite H. reflexivity. }
  rewrite E. split; [reflexivity|]. split.
  - simpl. apply Forall_forall. intros lp Hin. apply in_map_iff in Hin.
    destruct Hin as [l [<- _]]. reflexivity.
  - split; [reflexivity|]. unfold Engine.accumulateRecording, Engine.set_loops. simpl.
    destruct (Engine.activeRecording_ e); reflexivity.
Qed.

Lemma layers_setCurrentBpm (b : Q) (lp : Loop.t) :
  Loop.layers_ (Loop.setCurrentBpm b lp) = Loop.layers_ lp.
Proof.
  unfold Loop.setCurrentBpm. cbv zeta.
  destruct (_ && _); [reflexivity|]. destruct (_ && _); reflexivity.
Qed.

Lemma stopRecord_installs (lp : Loop.t) (e : Engine.t) (rec : ActiveRecording)
    (b : list Q) :
  Engine.activeRecording_ e = Some rec ->
  Loop.id_ lp = loopIndex rec ->
  b = (if (0 <? Engine.latencyCompensation_ e)
            && (Engine.latencyCompensation_ e <? Z.of_nat (length (buffer rec)))
       then skipn (Z.to_nat (Engine.latencyCompensation_ e)) (buffer rec)
       else buffer rec) ->
  b <> [] ->
  Loop.layers_ (fst (Engine.fulfillStopRecord lp e)) = [mkLayer b 1 true] /\
  Engine.activeRecording_ (snd (Engine.fulfillStopRecord lp e)) = None.
Proof.
  intros Ha Hid Hb Hne. unfold Engine.fulfillStopRecord. rewrite Ha.
  rewrite Hid, Z.eqb_refl. simpl negb. cbv iota. cbv zeta. rewrite <- Hb.
  destruct b as [|y ys]; [congruence|].
  simpl. rewrite layers_setCurrentBpm. split; reflexivity.
Qed.

(** Claim C5 (as the code behaves): when a [StopRecord] for the recording
    loop fires with latency compensation [L] and a recorded buffer of [n]
    samples, the buffer minus its first [L] samples is installed as the
    loop's single base layer when [0 < L < n]; when [n <= L] (or [L <= 0])
    the whole buffer is installed untrimmed, provided it is not empty; an
    empty buffer installs nothing and leaves the loop as it was.  In each
    case the recording is stopped. *)
Theorem stopRecord_trims_latency (lp : Loop.t) (e : Engine.t) (rec : ActiveRecording) :
  Engine.activeRecording_ e = Some rec ->
  Loop.id_ lp = loopIndex rec ->
  let L := Engine.latencyCompensation_ e in
  let n := Z.of_nat (length (buffer rec)) in
  let r := Engine.fulfillStopRecord lp e in
  Engine.activeRecording_ (snd r) = None /\
  ((0 < L < n)%Z ->
     Loop.layers_ (fst r) = [mkLayer (skipn (Z.to_nat L) (buffer rec)) 1 true]) /\
  ((0 < n)%Z -> (L <= 0 \/ n <= L)%Z ->
     Loop.layers_ (fst r) = [mkLayer (buffer rec) 1 true]) /\
  (n = 0%Z -> fst r = lp).
Proof.
  intros Ha Hid L n r.
  assert (Hnone : Engine.activeRecording_ (snd r) = None).
  { unfold r, Engine.fulfillStopRecord. rewrite Ha, Hid, Z.eqb_refl. cbv iota zeta.
    destruct (_ && _); [destruct (skipn _ _)|destruct (buffer rec)]; reflexivity. }
  split; [exact Hnone|]. split; [|split].
  - intros [H1 H2].
    apply (stopRecord_installs lp e rec); try assumption.
    + fold L n. rewrite (proj2 (Z.ltb_lt _ _) H1), (proj2 (Z.ltb_lt _ _) H2). reflexivity.
    + intros E. apply (f_equal (@length Q)) in E. rewrite length_skipn in E.
      simpl in E. unfold n in H2. lia.
  - intros Hn HL.
    apply (stopRecord_installs lp e rec); try assumption.
    + fold L n. destruct HL as [HL|HL].
      * rewrite (proj2 (Z.ltb_ge _ _) HL). reflexivity.
      * rewrite (proj2 (Z.ltb_ge L n) HL), andb_false_r. reflexivity.
    + intros E. unfold n in Hn. rewrite E in Hn. discriminate.
  - intros Hn. unfold r, Engine.fulfillStopRecord. rewrite Ha, Hid, Z.eqb_refl.
    cbv iota zeta. unfold n in Hn. destruct (buffer rec); [|discriminate].
    simpl negb. cbv iota. rewrite skipn_nil. destruct (_ && _); reflexivity.
Qed.

Lemma flushDueOps_clear_cancels_all_witness :
  let lp := Loop.set_pending
              (mkPending (Some (mkTimed 0 Free)) None None None None
                 (Some (mkTimed 0 Free)) None (Some (mkTimed 0 Free))
                 MuteOp_Mute OverdubOp_Start RecordOp_Start)
              (Loop.loadFromCapture [1; 1]%Q (Loop.create 0)) in
  let e := example_engine 0 None [lp] in
  ps_clear (Loop.pending_ lp) = Some (mkTimed 0 Free) /\ (0 <= 5)%Z /\
  (let r := Engine.flushDueOps lp e 5 in
   fst r = Loop.set_pending (clearAll (Loop.pending_ lp)) (Loop.clear lp) /\
   snd r = Engine.stateChanged (Engine.message (MsgCleared (Loop.id_ lp)) e) /\
   Loop.state_ (fst r) = Empty /\ Loop.layers_ (fst r) = [] /\
   Loop.hasPendingOps (fst r) = false).
Proof.
  intros lp e. split; [reflexivity|]. split; [lia|].
  exact (flushDueOps_clear_cancels_all lp e 5 (mkTimed 0 Free) eq_refl
           ltac:(simpl; lia)).
Defined.

Lemma fulfillRecord_while_recording_witness :
  let rec := mkRec 1 [1; 2]%Q 0 in
  let e := example_engine 0 (Some rec) [Loop.create 0; Loop.create 1] in
  Engine.activeRecording_ e = Some rec /\
  (let r := Engine.fulfillRecord (Loop.create 0) e in
   fst r = Loop.create 0 /\
   snd r = Engine.message (MsgAlreadyRecording (loopIndex rec)) e /\
   Engine.activeRecording_ (snd r) = Some rec /\
   Engine.activeRecording_ (Engine.accumulateRecording 3 (snd r))
   = Some (mkRec (loopIndex rec) (buffer rec ++ [3%Q]) (startSample rec))).
Proof.
  intros rec e. split; [reflexivity|].
  exact (fulfillRecord_while_recording (Loop.create 0) e rec 3 eq_refl).
Defined.

Lemma cancelPending_keeps_recording_witness :
  let cmd := mkCmd Cmd_CancelPending Op_Mute 0 Free 0 0 in
  let e := example_engine 0 (Some (mkRec 0 [1]%Q 0)) [Loop.create 0] in
  commandType cmd = Cmd_CancelPending /\
  (let e' := Engine.drainCommands [cmd] e in
   e' = Engine.set_loops (map Loop.clearPendingOps (Engine.loops_ e)) e /\
   Forall (fun lp => Loop.hasPendingOps lp = false) (Engine.loops_ e') /\
   Engine.activeRecording_ e' = Engine.activeRecording_ e /\
   Engine.activeRecording_ (Engine.accumulateRecording 2 e')
   = option_map (fun rec => mkRec (loopIndex rec) (buffer rec ++ [2%Q]) (startSample rec))
                (Engine.activeRecording_ e)).
Proof.
  intros cmd e. split; [reflexivity|].
  exact (cancelPending_keeps_recording cmd e 2 eq_refl).
Defined.

Lemma stopRecord_trims_latency_witness :
  let rec := mkRec 0 [1; 2; 3]%Q 0 in
  let e := example_engine 1 (Some rec) [Loop.create 0] in
  Engine.activeRecording_ e = Some rec /\ Loop.id_ (Loop.create 0) = loopIndex rec /\
  (let L := Engine.latencyCompensation_ e in
   let n := Z.of_nat (length (buffer rec)) in
   let r := Engine.fulfillStopRecord (Loop.create 0) e in
   Engine.activeRecording_ (snd r) = None /\
   ((0 < L < n)%Z ->
      Loop.layers_ (fst r) = [mkLayer (skipn (Z.to_nat L) (buffer rec)) 1 true]) /\
   ((0 < n)%Z -> (L <= 0 \/ n <= L)%Z ->
      Loop.layers_ (fst r) = [mkLayer (buffer rec) 1 true]) /\
   (n = 0%Z -> fst r = Loop.create 0)).
Proof.
  intros rec e. split; [reflexivity|]. split; [reflexivity|].
  exact (stopRecord_trims_latency (Loop.create 0) e rec eq_refl eq_refl).
Defined.

(** Claim C5, counterexample: with latency compensation 2 and a recording of
    exactly 2 samples on loop 0, stopping the recording installs both
    samples, not [2 - 2 = 0] of them. *)
Lemma stopRecord_no_trim_at_length :
  let e := example_engine 2 (Some (mkRec 0 [1; 2]%Q 0)) [Loop.create 0] in
  Loop.layers_ (fst (Engine.fulfillStopRecord (Loop.create 0) e))
  = [mkLayer [1; 2]%Q 1 true].
Proof. vm_compute. reflexivity. Qed.

(** ** Loop layers: undo followed by redo *)

Section LayerProofs.

Context {A : Type}.

Lemma length_update_nth (i : nat) (f : A -> A) (l : list A) :
  length (Loop.update_nth i f l) = length l.
Proof.
  revert i. induction l as [|x l IH]; intros [|i]; simpl; auto.
Qed.

Lemma nth_error_update_nth_eq (i : nat) (f : A -> A) (l : list A) :
  nth_error (Loop.update_nth i f l) i = option_map f (nth_error l i).
Proof.
  revert i. induction l as [|x l IH]; intros [|i]; simpl; auto.
Qed.

Lemma nth_error_update_nth_neq (i k : nat) (f : A -> A) (l : list A) :
  i <> k -> nth_error (Loop.update_nth i f l) k = nth_error l k.
Proof.
  revert i k. induction l as [|x l IH]; intros [|i] [|k] H; simpl; auto; try lia.
Qed.

Lemma update_nth_update_nth (i : nat) (f g : A -> A) (l : list A) :
  Loop.update_nth i g (Loop.update_nth i f l) = Loop.update_nth i (fun x => g (f x)) l.
Proof.
  revert i. induction l as [|x l IH]; intros [|i]; simpl; auto. now rewrite IH.
Qed.

Lemma update_nth_fixed (i : nat) (f : A -> A) (l : list A) (x : A) :
  nth_error l i = Some x -> f x = x -> Loop.update_nth i f l = l.
Proof.
  revert i. induction l as [|y l IH]; intros [|i] H Hf; simpl in *; try discriminate.
  - injection H as ->. now rewrite Hf.
  - now rewrite (IH i H Hf).
Qed.

End LayerProofs.

Lemma undo_scan_S (i : nat) (ls : list LoopLayer) :
  Loop.undo_scan (S i) ls =
  match nth_error ls (S i) with
  | Some l => if active l then Loop.update_nth (S i) (Loop.set_active false) ls
              else Loop.undo_scan i ls
  | None => Loop.undo_scan i ls
  end.
Proof. reflexivity. Qed.

Lemma redo_scan_S (i fuel : nat) (ls : list LoopLayer) :
  Loop.redo_scan i (S fuel) ls =
  match nth_error ls i with
  | Some l => if active l then Loop.redo_scan (S i) fuel ls
              else Loop.update_nth i (Loop.set_active true) ls
  | None => ls
  end.
Proof. reflexivity. Qed.

(** [undoLayer]'s scan, started at [i], stops at the most recent active
    layer [j >= 1] when no layer in [(j, i]] is active. *)
Lemma undo_scan_found (ls : list LoopLayer) (j : nat) (l : LoopLayer) (i : nat) :
  (1 <= j <= i)%nat -> nth_error ls j = Some l -> active l = true ->
  (forall m, (j < m <= i)%nat -> nth_error (map active ls) m <> Some true) ->
  Loop.undo_scan i ls = Loop.update_nth j (Loop.set_active false) ls.
Proof.
  induction i as [|i IH]; intros Hj Hl Ha Hrest; [lia|].
  rewrite undo_scan_S. destruct (Nat.eq_dec j (S i)) as [->|Hne].
  - rewrite Hl, Ha. reflexivity.
  - assert (Hs : nth_error (map active ls) (S i) <> Some true) by (apply Hrest; lia).
    rewrite nth_error_map in Hs.
    destruct (nth_error ls (S i)) as [l'|] eqn:E.
    + simpl in Hs. destruct (active l'); [congruence|].
      apply IH; auto; [lia|]. intros m Hm. apply Hrest. lia.
    + apply IH; auto; [lia|]. intros m Hm. apply Hrest. lia.
Qed.

(** [redoLayer]'s scan, started at [i] with enough iterations left, stops at
    the earliest inactive layer [j] when every layer in [[i, j)] is active. *)
Lemma redo_scan_found (ls : list LoopLayer) (j : nat) (l : LoopLayer) (fuel i : nat) :
  (1 <= i <= j)%nat -> (j < i + fuel)%nat -> nth_error ls j = Some l -> active l = false ->
  (forall m, (i <= m < j)%nat -> nth_error (map active ls) m = Some true) ->
  Loop.redo_scan i fuel ls = Loop.update_nth j (Loop.set_active true) ls.
Proof.
  revert i. induction fuel as [|fuel IH]; intros i Hi Hf Hl Ha Hbefore; [lia|].
  rewrite redo_scan_S. destruct (Nat.eq_dec i j) as [->|Hne].
  - rewrite Hl, Ha. reflexivity.
  - assert (Hs : nth_error (map active ls) i = Some true) by (apply Hbefore; lia).
    rewrite nth_error_map in Hs.
    destruct (nth_error ls i) as [l'|] eqn:E; [|discriminate].
    simpl in Hs. injection Hs as Hs. rewrite Hs.
    apply IH; auto; [lia|lia|]. intros m Hm. apply Hbefore. lia.
Qed.

(** Claim C2 (as the code behaves): if the active non-base layers are
    exactly layers [1 .. j] for some [j >= 1] (every later layer inactive),
    then [undoLayer] followed by [redoLayer] gives back the very same layers,
    so in particular the same set of active layers. *)
Theorem undo_then_redo_restores (lp : Loop.t) (j : nat) :
  (1 <= j)%nat ->
  (forall i, (1 <= i <= j)%nat -> nth_error (Loop.activeSet lp) i = Some true) ->
  (forall i, (j < i)%nat -> nth_error (Loop.activeSet lp) i <> Some true) ->
  Loop.layers_ (Loop.redoLayer (Loop.undoLayer lp)) = Loop.layers_ lp.
Proof.
  unfold Loop.activeSet. intros Hj Hon Hoff.
  set (ls := Loop.layers_ lp) in *.
  assert (Hjj := Hon j ltac:(lia)). rewrite nth_error_map in Hjj.
  destruct (nth_error ls j) as [l|] eqn:El; [|discriminate].
  simpl in Hjj. injection Hjj as Ha.
  assert (Hlen : (j < length ls)%nat).
  { apply nth_error_Some. congruence. }
  assert (U : Loop.layers_ (Loop.undoLayer lp) = Loop.update_nth j (Loop.set_active false) ls).
  { unfold Loop.undoLayer. cbn [Loop.layers_ Loop.set_layers]. fold ls.
    apply (undo_scan_found ls j l); auto; [lia|].
    intros m Hm. apply Hoff. lia. }
  unfold Loop.redoLayer. cbn [Loop.layers_ Loop.set_layers]. rewrite U.
  rewrite length_update_nth.
  rewrite (redo_scan_found _ j (Loop.set_active false l)); [| lia | lia | | reflexivity | ].
  - rewrite update_nth_update_nth.
    apply (update_nth_fixed _ _ _ l El). destruct l; simpl in *. now rewrite Ha.
  - rewrite nth_error_update_nth_eq, El. reflexivity.
  - intros m Hm. rewrite nth_error_map, nth_error_update_nth_neq by lia.
    rewrite <- nth_error_map. apply Hon. lia.
Qed.

Lemma undo_then_redo_restores_witness :
  let lp := Loop.startOverdub (Loop.stopOverdub (Loop.startOverdub
              (Loop.loadFromCapture [1; 1]%Q (Loop.create 0)))) in
  (1 <= 2)%nat /\
  (forall i, (1 <= i <= 2)%nat -> nth_error (Loop.activeSet lp) i = Some true) /\
  (forall i, (2 < i)%nat -> nth_error (Loop.activeSet lp) i <> Some true) /\
  Loop.layers_ (Loop.redoLayer (Loop.undoLayer lp)) = Loop.layers_ lp.
Proof.
  intros lp.
  assert (E : Loop.activeSet lp = [true; true; true]) by (vm_compute; reflexivity).
  assert (H1 : forall i, (1 <= i <= 2)%nat -> nth_error (Loop.activeSet lp) i = Some true).
  { intros i Hi. rewrite E. destruct i as [|[|[|i]]]; [lia|reflexivity|reflexivity|lia]. }
  assert (H2 : forall i, (2 < i)%nat -> nth_error (Loop.activeSet lp) i <> Some true).
  { intros i Hi. rewrite E. destruct i as [|[|[|i]]]; try lia.
    simpl. destruct i; discriminate. }
  split; [lia|]. split; [exact H1|]. split; [exact H2|].
  exact (undo_then_redo_restores lp 2 ltac:(lia) H1 H2).
Defined.

(** Claim C2, counterexample: after loading a base layer, recording one
    overdub and undoing it, only the base layer is active; a further
    [undoLayer] has no active non-base layer to remove and does nothing, and
    the following [redoLayer] reactivates layer 1, so the active set changes
    from [true; false] to [true; true]. *)
Lemma undo_redo_changes_active_set :
  let lp := Loop.undoLayer (Loop.stopOverdub (Loop.startOverdub
              (Loop.loadFromCapture [1; 1]%Q (Loop.create 0)))) in
  Loop.activeSet lp = [true; false] /\
  Loop.activeSet (Loop.redoLayer (Loop.undoLayer lp)) = [true; true].
Proof. split; vm_compute; reflexivity. Qed.

(** ** Metronome: the accumulator and derived phrasings *)

Lemma div_bounds (a k : Z) : 0 < k -> k * (a / k) <= a < k * (a / k) + k.
Proof.
  intros Hk. pose proof (Z.div_mod a k ltac:(lia)). pose proof (Z.mod_pos_bound a k Hk). lia.
Qed.

Lemma in_zseq (s j : Z) (n : nat) : In j (zseq s n) <-> s <= j < s + Z.of_nat n.
Proof.
  revert s. induction n as [|n IH]; intros s; simpl; [lia|].
  rewrite IH. lia.
Qed.

Lemma zseq_app (s : Z) (a b : nat) : zseq s (a + b) = zseq s a ++ zseq (s + Z.of_nat a) b.
Proof.
  revert s. induction a as [|a IH]; intros s; simpl.
  - now rewrite Z.add_0_r.
  - rewrite IH. do 3 f_equal. lia.
Qed.

Lemma beats_between_split (k bpb lo mid hi : Z) :
  0 < k -> lo <= mid <= hi ->
  beats_between k bpb lo hi = beats_between k bpb lo mid ++ beats_between k bpb mid hi.
Proof.
  intros Hk Hm. unfold beats_between.
  assert (A : lo / k <= mid / k) by (apply Z.div_le_mono; lia).
  assert (B : mid / k <= hi / k) by (apply Z.div_le_mono; lia).
  replace (Z.to_nat (hi / k - lo / k))
    with (Z.to_nat (mid / k - lo / k) + Z.to_nat (hi / k - mid / k))%nat by lia.
  rewrite zseq_app, flat_map_app. do 3 f_equal. lia.
Qed.

Lemma succ_div (T k : Z) : 0 < k -> 0 <= T ->
  ((T + 1) mod k = 0 /\ (T + 1) / k = T / k + 1 /\ T mod k + 1 = k) \/
  ((T + 1) mod k = T mod k + 1 /\ (T + 1) / k = T / k /\ T mod k + 1 < k).
Proof.
  intros Hk HT. pose proof (Z.div_mod T k ltac:(lia)). pose proof (Z.mod_pos_bound T k Hk).
  destruct (Z.eq_dec (T mod k + 1) k) as [E|E].
  - left. split; [|split; [|exact E]].
    + symmetry; apply (Z.mod_unique _ _ (T / k + 1)); lia.
    + symmetry; apply (Z.div_unique _ _ _ 0); lia.
  - right. split; [|split; [|lia]].
    + symmetry; apply (Z.mod_unique _ _ (T / k)); lia.
    + symmetry; apply (Z.div_unique _ _ _ (T mod k + 1)); lia.
Qed.

Lemma beats_between_one (k bpb T : Z) : 0 < k -> 0 <= T ->
  beats_between k bpb T (T + 1)
  = if (T + 1) mod k =? 0 then beat_keys k bpb ((T + 1) / k) else [].
Proof.
  intros Hk HT. unfold beats_between.
  destruct (succ_div T k Hk HT) as [[E1 [E2 _]]|[E1 [E2 E3]]].
  - rewrite E1, E2. replace (T / k + 1 - T / k) with 1 by lia. simpl.
    rewrite app_nil_r. reflexivity.
  - rewrite E2, Z.sub_diag. simpl.
    pose proof (Z.mod_pos_bound T k Hk).
    destruct (Z.eqb_spec (T mod k + 1) 0); [lia|]. rewrite E1.
    destruct (Z.eqb_spec (T mod k + 1) 0); [lia|reflexivity].
Qed.



Lemma tick_inv (k bpb : Z) (a : MetronomeAccum.t) (T : Z) :
  0 < k -> 0 < bpb -> 0 <= T -> accum_inv k bpb a T ->
  accum_inv k bpb (fst (MetronomeAccum.tick a)) (T + 1) /\
  map ev_key (snd (MetronomeAccum.tick a))
  = if (T + 1) mod k =? 0 then beat_keys k bpb ((T + 1) / k) else [].
Proof.
  intros Hk Hb HT Hinv.
  destruct a as [bpm bpb' sr run spb spbar tot bar beat sib].
  unfold accum_inv in *; cbn in Hinv.
  destruct Hinv as [Hr [-> [Hspb [-> [Hsib [Hbeat Hbar]]]]]]. subst run beat bar.
  assert (Q1 : Qle_bool spb (sib + 1) = (k <=? T mod k + 1)).
  { apply eq_true_iff_eq. rewrite Qle_bool_iff, Z.leb_le, Hspb, Hsib.
    rewrite Zle_Qle, inject_Z_plus. reflexivity. }
  unfold MetronomeAccum.tick. cbn [MetronomeAccum.totalSamples_ MetronomeAccum.sampleInBeat_
    MetronomeAccum.samplesPerBeat_ MetronomeAccum.currentBeat_ MetronomeAccum.currentBar_
    MetronomeAccum.beatsPerBar_].
  rewrite Q1.
  destruct (succ_div T k Hk HT) as [[E1 [E2 E3]]|[E1 [E2 E3]]].
  - rewrite (proj2 (Z.leb_le _ _)) by lia.
    assert (Hq : 0 <= T / k) by (apply Z.div_pos; lia).
    assert (Ek : (inject_Z k == inject_Z (T mod k) + 1)%Q)
      by (rewrite <- E3 at 1; rewrite inject_Z_plus; reflexivity).
    assert (Hsib' : (sib + 1 - spb == inject_Z ((T + 1) mod k))%Q).
    { rewrite E1, Hsib, Hspb, Ek. change (inject_Z 0) with 0%Q. ring. }
    assert (Ht : T + 1 = (T / k + 1) * k).
    { pose proof (Z.div_mod T k ltac:(lia)). lia. }
    rewrite E1 in Hsib'. rewrite E1, Z.eqb_refl, E2.
    destruct (succ_div (T / k) bpb Hb Hq) as [[F1 [F2 F3]]|[F1 [F2 F3]]].
    + rewrite (proj2 (Z.leb_le _ _)) by lia.
      split; [repeat split; cbn; auto|].
      cbn. unfold beat_keys. rewrite F1, F2, <- Ht. reflexivity.
    + rewrite (proj2 (Z.leb_gt _ _)) by lia.
      split; [repeat split; cbn; auto|].
      cbn. unfold beat_keys. rewrite F1, F2, <- Ht.
      pose proof (Z.mod_pos_bound (T / k) bpb Hb).
      rewrite (proj2 (Z.eqb_neq _ _)) by lia. reflexivity.
  - rewrite (proj2 (Z.leb_gt _ _)) by lia.
    assert (Hsib' : (sib + 1 == inject_Z ((T + 1) mod k))%Q).
    { rewrite E1, Hsib, inject_Z_plus. reflexivity. }
    pose proof (Z.mod_pos_bound T k Hk).
    rewrite (proj2 (Z.eqb_neq ((T + 1) mod k) 0)) by lia.
    split; [repeat split; cbn; auto|reflexivity].
    all: rewrite E2; reflexivity.
Qed.

Lemma ticks_inv (k bpb : Z) (n : nat) : forall (a : MetronomeAccum.t) (T : Z),
  0 < k -> 0 < bpb -> 0 <= T -> accum_inv k bpb a T ->
  accum_inv k bpb (fst (MetronomeAccum.ticks n a)) (T + Z.of_nat n) /\
  map ev_key (snd (MetronomeAccum.ticks n a)) = beats_between k bpb T (T + Z.of_nat n).
Proof.
  induction n as [|n IH]; intros a T Hk Hb HT Hinv.
  - simpl. rewrite Z.add_0_r. split; [exact Hinv|].
    unfold beats_between. rewrite Z.sub_diag. reflexivity.
  - destruct (tick_inv k bpb a T Hk Hb HT Hinv) as [Hi1 He1].
    simpl. destruct (MetronomeAccum.tick a) as [a1 e1] eqn:Et. simpl in Hi1, He1.
    destruct (IH a1 (T + 1) Hk Hb ltac:(lia) Hi1) as [Hi2 He2].
    destruct (MetronomeAccum.ticks n a1) as [a2 e2]. simpl in Hi2, He2 |- *.
    replace (T + Z.pos (Pos.of_succ_nat n)) with (T + 1 + Z.of_nat n) by lia.
    split; [exact Hi2|].
    rewrite map_app, He1, He2, (beats_between_split k bpb T (T + 1) (T + 1 + Z.of_nat n))
      by lia.
    rewrite beats_between_one by lia. reflexivity.
Qed.

Lemma accum_advance_inv (k bpb n : Z) (a : MetronomeAccum.t) (T : Z) :
  0 < k -> 0 < bpb -> 0 <= T -> accum_inv k bpb a T ->
  accum_inv k bpb (fst (MetronomeAccum.advance n a)) (T + Z.max n 0) /\
  map ev_key (snd (MetronomeAccum.advance n a)) = beats_between k bpb T (T + Z.max n 0).
Proof.
  intros Hk Hb HT Hinv. unfold MetronomeAccum.advance.
  assert (Hr : MetronomeAccum.running_ a = true) by apply Hinv.
  rewrite Hr. simpl negb. cbv iota.
  destruct (Z.leb_spec n 0).
  - rewrite Z.max_r, Z.add_0_r by lia. split; [exact Hinv|].
    unfold beats_between. rewrite Z.sub_diag. reflexivity.
  - rewrite Z.max_l by lia.
    pose proof (ticks_inv k bpb (Z.to_nat n) a T Hk Hb HT Hinv) as H'.
    rewrite Z2Nat.id in H' by lia. exact H'.
Qed.



Lemma floor_div_spb (s k : Z) (spb : Q) :
  (spb == inject_Z k)%Q -> std_floor (inject_Z s / spb)%Q = s / k.
Proof.
  intros H. unfold std_floor. rewrite H. symmetry. apply Zdiv_Qdiv.
Qed.

Lemma flat_map_nil_in {A B} (f : A -> list B) (l : list A) :
  (forall x, In x l -> f x = []) -> flat_map f l = [].
Proof.
  induction l as [|x l IH]; intros H; simpl; [reflexivity|].
  rewrite H by (left; reflexivity). apply IH. intros y Hy. apply H. right. exact Hy.
Qed.

Lemma flat_map_ext_in {A B} (f g : A -> list B) (l : list A) :
  (forall x, In x l -> f x = g x) -> flat_map f l = flat_map g l.
Proof.
  induction l as [|x l IH]; intros H; simpl; [reflexivity|].
  rewrite H by (left; reflexivity). f_equal. apply IH. intros y Hy. apply H. right. exact Hy.
Qed.

Lemma boundaries_keys (k bpb S E : Z) (m : Metronome.t) (fuel : nat) : forall b,
  0 < k -> 0 < bpb -> 0 <= S ->
  Metronome.beatsPerBar_ m = bpb -> (Metronome.samplesPerBeat_ m == inject_Z k)%Q ->
  map ev_key (Metronome.boundaries m S E b fuel)
  = flat_map (fun j => if (S <? j * k) && (j * k <=? E) then beat_keys k bpb j else [])
             (zseq b fuel).
Proof.
  induction fuel as [|fuel IH]; intros b Hk Hb HS Hbpb Hspb; [reflexivity|].
  cbn [Metronome.boundaries zseq flat_map]. rewrite map_app, IH by assumption. f_equal.
  assert (Hr : std_round (inject_Z b * Metronome.samplesPerBeat_ m)%Q = b * k).
  { apply std_round_Z. rewrite Hspb, inject_Z_mult. reflexivity. }
  rewrite Hr.
  destruct ((S <? b * k) && (b * k <=? E)) eqn:Ef; [|reflexivity].
  apply andb_true_iff in Ef. destruct Ef as [Ef _]. apply Z.ltb_lt in Ef.
  assert (Hbpos : 0 < b) by nia.
  unfold Metronome.position, Metronome.with_total.
  cbn [Metronome.totalSamples_ Metronome.samplesPerBeat_ Metronome.beatsPerBar_].
  rewrite (floor_div_spb (b * k) k) by exact Hspb.
  cbn [map ev_key pos_totalSamples pos_bar pos_beat].
  rewrite Z.div_mul by lia. rewrite Hbpb.
  rewrite Z.quot_div_nonneg, Z.rem_mod_nonneg by lia.
  unfold beat_keys. destruct (b mod bpb =? 0); reflexivity.
Qed.

Lemma filter_range (k bpb S E : Z) :
  0 < k -> 0 <= S < E ->
  flat_map (fun j => if (S <? j * k) && (j * k <=? E) then beat_keys k bpb j else [])
           (zseq (S / k + 1) (Z.to_nat ((E - 1) / k + 1 - S / k)))
  = beats_between k bpb S E.
Proof.
  intros Hk HSE. unfold beats_between.
  assert (A : S / k <= E / k) by (apply Z.div_le_mono; lia).
  assert (B : E / k <= (E - 1) / k + 1).
  { apply Z.div_le_upper_bound; [lia|]. pose proof (div_bounds (E - 1) k Hk). lia. }
  replace (Z.to_nat ((E - 1) / k + 1 - S / k))
    with (Z.to_nat (E / k - S / k) + Z.to_nat ((E - 1) / k + 1 - E / k))%nat by lia.
  rewrite zseq_app, flat_map_app.
  rewrite (flat_map_nil_in _ (zseq (S / k + 1 + _) _)).
  - rewrite app_nil_r. apply flat_map_ext_in. intros j Hj. apply in_zseq in Hj.
    pose proof (div_bounds S k Hk). pose proof (div_bounds E k Hk).
    rewrite (proj2 (Z.ltb_lt _ _)) by nia. rewrite (proj2 (Z.leb_le _ _)) by nia.
    reflexivity.
  - intros j Hj. apply in_zseq in Hj. pose proof (div_bounds E k Hk).
    rewrite (proj2 (Z.leb_gt (j * k) E)) by nia. rewrite andb_false_r. reflexivity.
Qed.

Lemma derived_advance_inv (k bpb n : Z) (m : Metronome.t) (T : Z) :
  0 < k -> 0 < bpb -> 0 <= T -> derived_inv k bpb m T ->
  derived_inv k bpb (fst (Metronome.advance n m)) (T + Z.max n 0) /\
  map ev_key (snd (Metronome.advance n m)) = beats_between k bpb T (T + Z.max n 0).
Proof.
  intros Hk Hb HT Hinv. destruct Hinv as [Hr [Hbpb [Hspb Ht]]].
  unfold Metronome.advance. rewrite Hr. simpl negb. cbv iota.
  destruct (Z.leb_spec n 0).
  - rewrite Z.max_r, Z.add_0_r by lia. split; [repeat split; assumption|].
    unfold beats_between. rewrite Z.sub_diag. reflexivity.
  - rewrite Z.max_l by lia. cbv zeta.
    rewrite !(floor_div_spb _ k) by exact Hspb. rewrite Ht.
    split; [repeat split; assumption|]. cbn [orb snd].
    rewrite (boundaries_keys k bpb) by assumption.
    replace (T + n - 1) with ((T + n) - 1) by lia.
    apply filter_range; lia.
Qed.

Lemma advances_agree_from (k bpb : Z) (ns : list Z) : forall m a T,
  0 < k -> 0 < bpb -> 0 <= T -> derived_inv k bpb m T -> accum_inv k bpb a T ->
  map ev_key (snd (Metronome.advances ns m)) = beats_between k bpb T (T + sum_pos ns) /\
  map ev_key (snd (MetronomeAccum.advances ns a)) = beats_between k bpb T (T + sum_pos ns).
Proof.
  induction ns as [|n ns IH]; intros m a T Hk Hb HT Hd Ha.
  - simpl. unfold beats_between. rewrite Z.add_0_r, Z.sub_diag. split; reflexivity.
  - destruct (derived_advance_inv k bpb n m T Hk Hb HT Hd) as [Hd1 He1].
    destruct (accum_advance_inv k bpb n a T Hk Hb HT Ha) as [Ha1 Hf1].
    destruct (IH _ _ (T + Z.max n 0) Hk Hb ltac:(lia) Hd1 Ha1) as [He2 Hf2].
    simpl.
    destruct (Metronome.advance n m) as [m1 e1].
    destruct (MetronomeAccum.advance n a) as [a1 f1].
    simpl in *.
    destruct (Metronome.advances ns m1) as [m2 e2].
    destruct (MetronomeAccum.advances ns a1) as [a2 f2]. simpl in *.
    rewrite (beats_between_split k bpb T (T + Z.max n 0) (T + (Z.max n 0 + sum_pos ns)))
      by (assert (0 <= sum_pos ns) by (clear; induction ns; simpl; lia); lia).
    replace (T + (Z.max n 0 + sum_pos ns)) with (T + Z.max n 0 + sum_pos ns) by lia.
    rewrite !map_app, He1, Hf1, He2, Hf2. split; reflexivity.
Qed.

(** Claim C3 (as the code behaves): when a beat lasts a whole number [k >= 1]
    of samples and a bar has at least one beat, both phrasings of the
    metronome, started fresh and driven by the same sequence of [advance]
    calls, fire the same callbacks: for every beat boundary [j * k] reached
    so far, in order, a beat callback at sample [j * k] with bar counter
    [j / bpb] and beat counter [j mod bpb], followed by a bar callback at the
    same sample when [j mod bpb = 0]. *)
Theorem metronomes_agree_integer_beat (bpm sr : Q) (bpb k : Z) (ns : list Z) :
  0 < k -> 0 < bpb -> ((60 # 1) / bpm * sr == inject_Z k)%Q ->
  map ev_key (snd (Metronome.advances ns (Metronome.create bpm bpb sr)))
  = beats_between k bpb 0 (sum_pos ns) /\
  map ev_key (snd (MetronomeAccum.advances ns (MetronomeAccum.create bpm bpb sr)))
  = beats_between k bpb 0 (sum_pos ns).
Proof.
  intros Hk Hb Hspb.
  apply (advances_agree_from k bpb ns _ _ 0 Hk Hb ltac:(lia)).
  - repeat split; cbn; auto.
  - repeat split; cbn; auto.
Qed.

Lemma metronomes_agree_integer_beat_witness :
  0 < 22050 /\ 0 < 4 /\ ((60 # 1) / (120 # 1) * (44100 # 1) == inject_Z 22050)%Q /\
  map ev_key (snd (Metronome.advances [30000; 20000]
                     (Metronome.create (120 # 1) 4 (44100 # 1))))
  = beats_between 22050 4 0 (sum_pos [30000; 20000]) /\
  map ev_key (snd (MetronomeAccum.advances [30000; 20000]
                     (MetronomeAccum.create (120 # 1) 4 (44100 # 1))))
  = beats_between 22050 4 0 (sum_pos [30000; 20000]).
Proof.
  assert (H : ((60 # 1) / (120 # 1) * (44100 # 1) == inject_Z 22050)%Q) by reflexivity.
  split; [lia|]. split; [lia|]. split; [exact H|].
  exact (metronomes_agree_integer_beat (120 # 1) (44100 # 1) 4 22050 [30000; 20000]
           ltac:(lia) ltac:(lia) H).
Defined.

(** Claim C3, counterexample: at 128 BPM and 44100 Hz a beat lasts
    20671.875 samples.  Advancing 103360 samples from a fresh start, the
    derived phrasing fires its fifth beat at sample 103359 (the boundary
    103359.375 rounded to nearest) while the accumulator fires it at sample
    103360, the first sample past the boundary. *)
Lemma metronomes_disagree_fractional_beat :
  map ev_key (snd (Metronome.advance 103360 (Metronome.create (128 # 1) 4 (44100 # 1))))
  = [(true, 20672, 0, 1); (true, 41344, 0, 2); (true, 62016, 0, 3);
     (true, 82688, 1, 0); (false, 82688, 1, 0);
     (true, 103359, 1, 0); (false, 103359, 1, 0)] /\
  map ev_key (snd (MetronomeAccum.advance 103360
                     (MetronomeAccum.create (128 # 1) 4 (44100 # 1))))
  = [(true, 20672, 0, 1); (true, 41344, 0, 2); (true, 62016, 0, 3);
     (true, 82688, 1, 0); (false, 82688, 1, 0); (true, 103360, 1, 1)].
Proof. split; vm_compute; reflexivity. Qed.

(** * Further properties of the embedded code *)

(** ** Ring buffer: reads of older blocks, capture and clear *)

Section RingContents.

Import RingBuffer.
Local Open Scope nat_scope.

Lemma skipn_app_le (k : nat) (l m : list Q) :
  k <= length l -> skipn k l ++ m = skipn k (l ++ m).
Proof.
  intros H. rewrite skipn_app. replace (k - length l) with 0 by lia. reflexivity.
Qed.

Lemma skipn_app_exact (k : nat) (l m : list Q) : length l = k -> skipn k (l ++ m) = m.
Proof. intros <-. rewrite skipn_app, skipn_all, Nat.sub_diag. reflexivity. Qed.

Lemma firstn_app_exact (k : nat) (l m : list Q) : length l = k -> firstn k (l ++ m) = l.
Proof. intros <-. rewrite firstn_app, firstn_all, Nat.sub_diag. apply app_nil_r. Qed.

Lemma length_ring_contents (rb : RingBuffer.t) :
  wf rb -> length (ring_contents rb) = capacity rb.
Proof.
  destruct rb as [buf wp tw]. unfold wf, ring_contents, capacity; simpl. intros H.
  rewrite length_app, length_skipn, length_firstn. lia.
Qed.

Lemma contents_mod (buf : list Q) (cap p : nat) :
  length buf = cap -> 0 < cap -> p <= cap ->
  skipn (p mod cap) buf ++ firstn (p mod cap) buf
  = skipn p buf ++ firstn p buf.
Proof.
  intros Hl H0 Hp. subst cap. destruct (Nat.eq_dec p (length buf)) as [E|E].
  - subst p. rewrite Nat.Div0.mod_same. rewrite skipn_all, firstn_all. simpl.
    apply app_nil_r.
  - rewrite Nat.mod_small by lia. reflexivity.
Qed.

Lemma contents_write (rb : RingBuffer.t) (d : list Q) :
  wf rb -> ring_contents (write d rb) = skipn (length d) (ring_contents rb ++ d).
Proof.
  destruct rb as [buf wp tw]. unfold wf, capacity; simpl. intros Hwf.
  destruct (Nat.eqb_spec (length d) 0) as [Hz|Hz].
  { destruct d; [|discriminate]. unfold write; simpl. rewrite app_nil_r. reflexivity. }
  destruct (Nat.le_gt_cases (length buf) (length d)) as [Hc|Hc].
  - (* the block covers the whole buffer *)
    unfold write; cbv zeta; unfold capacity; simpl.
    rewrite (proj2 (Nat.eqb_neq _ _) Hz), (proj2 (Nat.leb_le _ _) Hc).
    rewrite blit_0_full by (rewrite length_skipn; lia).
    unfold ring_contents; simpl. rewrite app_nil_r.
    assert (Hlc : length (skipn wp buf ++ firstn wp buf) = length buf)
      by (rewrite length_app, length_skipn, length_firstn; lia).
    rewrite skipn_app, (skipn_all2 (n:=length d)) by lia. rewrite Hlc. reflexivity.
  - destruct Hwf as [Hw|[Hw _]]; [|lia].
    assert (Hc0 : length (skipn wp buf) = length buf - wp) by apply length_skipn.
    destruct (Nat.leb_spec (length d) (length buf - wp)) as [Hs|Hs].
    + rewrite write_nowrap by lia. unfold ring_contents; cbn [writePos_ buffer_].
      assert (Hl : length (blit buf wp d) = length buf) by (apply length_blit; lia).
      rewrite (contents_mod _ (length buf)) by lia.
      unfold blit.
      assert (Hf : length (firstn wp buf ++ d) = wp + length d)
        by (rewrite length_app, length_firstn; lia).
      rewrite app_assoc, (skipn_app_exact _ _ _ Hf), (firstn_app_exact _ _ _ Hf).
      rewrite <- !app_assoc. rewrite <- skipn_app_le by lia.
      rewrite skipn_skipn. f_equal. f_equal. lia.
    + rewrite write_wrap by lia. unfold ring_contents; cbn [writePos_ buffer_].
      set (s := length buf - wp) in *.
      set (buf1 := blit buf wp (firstn s d)).
      assert (Hl1 : length buf1 = length buf)
        by (apply length_blit; rewrite length_firstn; lia).
      assert (Hsd : length (skipn s d) = length d - s) by apply length_skipn.
      replace ((wp + length d) mod length buf) with (length d - s)
        by (apply (Nat.mod_unique _ _ 1); lia).
      assert (Eb : blit buf1 0 (skipn s d) = skipn s d ++ skipn (length d - s) buf1)
        by (unfold blit; simpl; rewrite Hsd; reflexivity).
      rewrite Eb, (skipn_app_exact _ _ _ Hsd), (firstn_app_exact _ _ _ Hsd).
      assert (Eb1 : buf1 = firstn wp buf ++ firstn s d).
      { unfold buf1, blit. rewrite length_firstn.
        rewrite (skipn_all2 (n:=wp + Nat.min s (length d))) by lia. rewrite app_nil_r. reflexivity. }
      rewrite Eb1, <- skipn_app_le by (rewrite length_firstn; lia).
      rewrite <- app_assoc, firstn_skipn.
      rewrite <- app_assoc, skipn_app, (skipn_all2 (n:=length d)) by lia.
      rewrite Hc0. simpl. rewrite <- skipn_app_le by (rewrite length_firstn; lia).
      reflexivity.
Qed.

Lemma circ_contents (buf : list Q) (wp a k : nat) :
  0 < length buf -> wp < length buf -> a <= length buf -> k <= a ->
  firstn k (skipn (length buf - a) (skipn wp buf ++ firstn wp buf))
  = firstn k (skipn ((wp + length buf * 2 - a) mod length buf) (buf ++ buf)).
Proof.
  set (cap := length buf). intros H0 Hw Ha Hk.
  assert (Hsw : length (skipn wp buf) = cap - wp) by apply length_skipn.
  destruct (Nat.le_gt_cases a wp) as [Haw|Haw].
  - replace ((wp + cap * 2 - a) mod cap) with (wp - a)
      by (apply (Nat.mod_unique _ _ 2); lia).
    rewrite skipn_app, (skipn_all2 (n:=cap - a)) by lia. rewrite Hsw. simpl.
    replace (cap - a - (cap - wp)) with (wp - a) by lia.
    rewrite skipn_firstn_comm, firstn_firstn.
    replace (Nat.min k (wp - (wp - a))) with k by lia.
    rewrite <- skipn_app_le by lia.
    rewrite firstn_app, length_skipn. fold cap.
    replace (k - (cap - (wp - a))) with 0 by lia. simpl. symmetry. apply app_nil_r.
  - replace ((wp + cap * 2 - a) mod cap) with (wp + cap - a)
      by (apply (Nat.mod_unique _ _ 1); lia).
    rewrite <- skipn_app_le by lia. rewrite skipn_skipn.
    rewrite <- skipn_app_le by lia.
    replace (cap - a + wp) with (wp + cap - a) by lia.
    rewrite !firstn_app, length_skipn, firstn_firstn. fold cap.
    f_equal. f_equal. lia.
Qed.

Lemma circ_read (buf dest : list Q) (rs k off : nat) :
  rs < length buf -> k <= length buf -> off + k = length dest ->
  (if k <=? length buf - rs then blit dest off (slice buf rs k)
   else blit (blit dest off (slice buf rs (length buf - rs))) (off + (length buf - rs))
             (slice buf 0 (k - (length buf - rs))))
  = firstn off dest ++ firstn k (skipn rs (buf ++ buf)).
Proof.
  set (cap := length buf). intros Hr Hk Hd.
  assert (Hsr : length (skipn rs buf) = cap - rs) by apply length_skipn.
  rewrite <- skipn_app_le by lia.
  destruct (Nat.leb_spec k (cap - rs)) as [Hs|Hs].
  - unfold blit, slice.
    rewrite length_firstn, Hsr. replace (Nat.min k (cap - rs)) with k by lia.
    rewrite (skipn_all2 (n:=off + k)) by lia. rewrite app_nil_r.
    rewrite firstn_app, Hsr. replace (k - (cap - rs)) with 0 by lia.
    simpl. rewrite app_nil_r. reflexivity.
  - unfold slice.
    rewrite (firstn_all2 (n:=cap - rs)) by lia.
    rewrite skipn_O.
    set (inner := blit dest off (skipn rs buf)).
    assert (Hi : length inner = length dest) by (apply length_blit; lia).
    assert (Ei : firstn (off + (cap - rs)) inner = firstn off dest ++ skipn rs buf).
    { unfold inner, blit. rewrite app_assoc.
      apply firstn_app_exact. rewrite length_app, length_firstn, Hsr. lia. }
    unfold blit at 1. rewrite Ei.
    rewrite length_firstn. fold cap.
    replace (Nat.min (k - (cap - rs)) cap) with (k - (cap - rs)) by lia.
    rewrite (skipn_all2 (n:=off + (cap - rs) + (k - (cap - rs)))) by lia.
    rewrite app_nil_r, <- app_assoc. f_equal.
    rewrite firstn_app, Hsr, (firstn_all2 (n:=k)) by lia. reflexivity.
Qed.

Lemma readFromPast_contents (rb : RingBuffer.t) (dest : list Q) (n ago : nat) :
  wf rb -> 0 < capacity rb -> length dest = n ->
  readFromPast rb dest n ago =
  repeat 0%Q (n - Nat.min (available rb) ago)
  ++ firstn n (skipn (capacity rb - Nat.min (available rb) ago) (ring_contents rb)).
Proof.
  destruct rb as [buf wp tw]. unfold wf, available, capacity, ring_contents; simpl.
  intros Hwf H0 Hd. destruct Hwf as [Hw|[Hw _]]; [|lia].
  set (a := Nat.min (Nat.min tw (length buf)) ago).
  assert (Ha : a <= length buf) by lia.
  unfold readFromPast. cbv zeta. unfold available, capacity.
  cbn [buffer_ writePos_ totalWritten_].
  destruct (Nat.eqb_spec n 0) as [Hn|Hn].
  { subst n. destruct dest; [reflexivity|discriminate]. }
  replace (if Nat.min tw (length buf) <? ago then Nat.min tw (length buf) else ago) with a
    by (unfold a; destruct (Nat.ltb_spec (Nat.min tw (length buf)) ago); lia).
  destruct (Nat.ltb_spec a n) as [Han|Han].
  - (* fewer samples than requested: zero-fill the front *)
    set (dest1 := blit dest 0 (repeat 0%Q (n - a))).
    assert (Hd1 : length dest1 = n)
      by (unfold dest1; rewrite length_blit; [lia|rewrite repeat_length; lia]).
    rewrite circ_read by (try apply Nat.mod_upper_bound; lia).
    assert (E1 : firstn (n - a) dest1 = repeat 0%Q (n - a)).
    { unfold dest1, blit. simpl. apply firstn_app_exact. apply repeat_length. }
    rewrite E1. f_equal.
    rewrite <- circ_contents by lia.
    rewrite (firstn_all2 (n:=a)), (firstn_all2 (n:=n)); [reflexivity| |];
      rewrite length_skipn, length_app, length_skipn, length_firstn; lia.
  - replace (n - a) with 0 by lia. simpl.
    rewrite circ_read by (try apply Nat.mod_upper_bound; lia).
    simpl. symmetry. apply circ_contents; lia.
Qed.

Lemma skipn_repeat_Q (k m : nat) (x : Q) : skipn k (repeat x m) = repeat x (m - k).
Proof.
  revert m. induction k as [|k IH]; intros m; [simpl; rewrite Nat.sub_0_r; reflexivity|].
  destruct m; [reflexivity|]. simpl. apply IH.
Qed.

Lemma totalWritten_write (rb : RingBuffer.t) (d : list Q) :
  totalWritten_ (write d rb) = totalWritten_ rb + length d.
Proof.
  unfold write. cbv zeta. destruct (Nat.eqb_spec (length d) 0) as [E|E].
  - rewrite E. lia.
  - destruct (capacity rb <=? length d); [reflexivity|].
    destruct (length d <=? capacity rb - writePos_ rb); reflexivity.
Qed.

Lemma ring_contents_create (cap : nat) : ring_contents (create cap) = repeat 0%Q cap.
Proof. unfold ring_contents, create; simpl. apply app_nil_r. Qed.

Lemma writes_facts (hist : list (list Q)) (rb : RingBuffer.t) :
  wf rb ->
  ring_contents (writes hist rb) = skipn (length (concat hist)) (ring_contents rb ++ concat hist)
  /\ totalWritten_ (writes hist rb) = totalWritten_ rb + length (concat hist).
Proof.
  revert rb. induction hist as [|d hist IH]; intros rb Hw; simpl.
  - rewrite app_nil_r. split; [reflexivity|lia].
  - unfold writes in *. simpl.
    destruct (IH (write d rb) (wf_write _ _ Hw)) as [H1 H2].
    rewrite H1, H2, contents_write, totalWritten_write by exact Hw.
    split; [|rewrite length_app; lia].
    rewrite skipn_app_le by (rewrite length_app; lia).
    rewrite skipn_skipn, <- app_assoc, length_app. f_equal. lia.
Qed.

End RingContents.

Lemma RB_write_ok (cap : nat) (hist : list (list Q)) :
  RingBuffer.wf (RingBuffer.writes hist (RingBuffer.create cap))
  /\ RingBuffer.capacity (RingBuffer.writes hist (RingBuffer.create cap)) = cap.
Proof.
  destruct (wf_writes hist (RingBuffer.create cap) (wf_create cap)) as [H1 H2].
  split; [exact H1|]. rewrite H2. unfold RingBuffer.capacity, RingBuffer.create; simpl.
  apply repeat_length.
Qed.

Lemma readFromPast_older_block_aux (cap : nat) (hist : list (list Q)) (x y dest : list Q) :
  (length x + length y <= cap)%nat -> length dest = length x ->
  RingBuffer.readFromPast
    (RingBuffer.write y (RingBuffer.write x (RingBuffer.writes hist (RingBuffer.create cap))))
    dest (length x) (length x + length y) = x.
Proof.
  intros Hc Hd.
  destruct (Nat.eqb_spec (length x) 0) as [Hx|Hx].
  { destruct x; [|discriminate]. destruct dest; [reflexivity|discriminate]. }
  destruct (RB_write_ok cap hist) as [Hw Hcap].
  set (rb0 := RingBuffer.writes hist (RingBuffer.create cap)) in *.
  assert (Hw1 := wf_write rb0 x Hw). assert (Hw2 := wf_write _ y Hw1).
  assert (Hc2 : RingBuffer.capacity (RingBuffer.write y (RingBuffer.write x rb0)) = cap)
    by (rewrite !capacity_write by assumption; exact Hcap).
  rewrite readFromPast_contents by (first [exact Hw2 | rewrite Hc2; lia | lia]).
  rewrite Hc2, !contents_write by assumption.
  unfold RingBuffer.available. rewrite Hc2, !totalWritten_write.
  replace (Nat.min (Nat.min (RingBuffer.totalWritten_ rb0 + length x + length y) cap)
             (length x + length y)) with (length x + length y)%nat by lia.
  replace (length x - (length x + length y))%nat with 0%nat by lia. simpl.
  assert (Hl0 : length (ring_contents rb0) = cap) by (rewrite length_ring_contents; assumption).
  rewrite skipn_app_le by (rewrite length_app; lia).
  rewrite skipn_skipn, <- app_assoc.
  rewrite <- skipn_app_le by lia.
  rewrite skipn_app_exact by (rewrite length_skipn; lia).
  apply firstn_app_exact. reflexivity.
Qed.

(** X2: while a ring buffer of positive capacity has received in total no
    more samples than its capacity, [capture n] with [n] at least that total
    returns zeros for the missing part followed by every sample written,
    oldest first. *)
Theorem capture_zero_fills (cap n : nat) (hist : list (list Q)) :
  (0 < cap)%nat -> (length (concat hist) <= cap)%nat -> (length (concat hist) <= n)%nat ->
  RingBuffer.capture (RingBuffer.writes hist (RingBuffer.create cap)) n
  = repeat 0%Q (n - length (concat hist)) ++ concat hist.
Proof.
  intros H0 Hc Hn. destruct (RB_write_ok cap hist) as [Hw Hcap].
  destruct (writes_facts hist (RingBuffer.create cap) (wf_create cap)) as [Ec Et].
  unfold RingBuffer.capture, RingBuffer.readMostRecent.
  rewrite readFromPast_contents by (first [exact Hw | rewrite Hcap; lia | apply repeat_length]).
  unfold RingBuffer.available. rewrite Hcap, Ec, Et, ring_contents_create. simpl.
  replace (Nat.min (Nat.min (length (concat hist)) cap) n) with (length (concat hist)) by lia.
  f_equal.
  rewrite <- skipn_app_le by (rewrite repeat_length; lia).
  rewrite skipn_repeat_Q, skipn_app_exact by (rewrite repeat_length; lia).
  apply firstn_all2. lia.
Qed.

(** X3: after a write of a block at least as long as the capacity, [capture]
    of [capacity] samples returns the last [capacity] samples of that block. *)
Theorem capture_keeps_last_capacity (cap : nat) (hist : list (list Q)) (d : list Q) :
  (0 < cap)%nat -> (cap <= length d)%nat ->
  RingBuffer.capture (RingBuffer.write d (RingBuffer.writes hist (RingBuffer.create cap))) cap
  = skipn (length d - cap) d.
Proof.
  intros H0 Hc. destruct (RB_write_ok cap hist) as [Hw Hcap].
  set (rb0 := RingBuffer.writes hist (RingBuffer.create cap)) in *.
  assert (Hc1 : RingBuffer.capacity (RingBuffer.write d rb0) = cap)
    by (rewrite capacity_write by assumption; exact Hcap).
  unfold RingBuffer.capture, RingBuffer.readMostRecent.
  rewrite readFromPast_contents
    by (try apply wf_write; try rewrite Hc1; try apply repeat_length; auto).
  unfold RingBuffer.available. rewrite Hc1, totalWritten_write, contents_write by exact Hw.
  replace (Nat.min (Nat.min (RingBuffer.totalWritten_ rb0 + length d) cap) cap) with cap by lia.
  rewrite Nat.sub_diag. simpl.
  assert (Hl0 : length (ring_contents rb0) = cap) by (rewrite length_ring_contents; assumption).
  rewrite skipn_app, (skipn_all2 (n:=length d)) by lia. rewrite Hl0. simpl.
  apply firstn_all2. rewrite length_skipn. lia.
Qed.

(** X4: after [clear] on a ring buffer of positive capacity, [readFromPast]
    of [n] samples returns [n] zeros, whatever [samplesAgo]. *)
Theorem clear_reads_silence (rb : RingBuffer.t) (dest : list Q) (n ago : nat) :
  (0 < RingBuffer.capacity rb)%nat -> length dest = n ->
  RingBuffer.readFromPast (RingBuffer.clear rb) dest n ago = repeat 0%Q n.
Proof.
  intros H0 Hd.
  assert (Hc : RingBuffer.capacity (RingBuffer.clear rb) = RingBuffer.capacity rb)
    by (unfold RingBuffer.clear, RingBuffer.capacity; simpl; apply repeat_length).
  rewrite readFromPast_contents; [| |rewrite Hc; exact H0|exact Hd].
  2:{ unfold RingBuffer.wf. rewrite Hc. left. simpl. exact H0. }
  unfold RingBuffer.available. rewrite Hc. simpl.
  rewrite !Nat.sub_0_r.
  rewrite (skipn_all2 (n:=RingBuffer.capacity rb)).
  2:{ unfold ring_contents; simpl. rewrite app_nil_r, repeat_length. unfold RingBuffer.capacity. lia. }
  rewrite firstn_nil. apply app_nil_r.



Qed.

(** X1: for a ring buffer created with capacity [cap], after any history of
    writes, then a block [x], then a block [y], with [length x + length y <=
    cap], [readFromPast] of [length x] samples starting [length x + length y]
    samples ago returns exactly [x]. *)
Theorem readFromPast_older_block (cap : nat) (hist : list (list Q)) (x y dest : list Q) :
  (length x + length y <= cap)%nat -> length dest = length x ->
  RingBuffer.readFromPast
    (RingBuffer.write y (RingBuffer.write x (RingBuffer.writes hist (RingBuffer.create cap))))
    dest (length x) (length x + length y) = x.
Proof. apply readFromPast_older_block_aux. Qed.

(** ** Loop: mixing, crossfade, playback, overdub and layer counts *)

Lemma Qplus_0_l_eq (q : Q) : (0 + q)%Q = q.
Proof. destruct q as [n d]. unfold Qplus. simpl. f_equal. lia. Qed.

Lemma Qplus_0_r_eq (q : Q) : (q + 0)%Q = q.
Proof. destruct q as [n d]. unfold Qplus. simpl. f_equal; lia. Qed.

Lemma nth_resize (n i : nat) (a : list Q) :
  (i < n)%nat -> nth i (Loop.resize n a) 0%Q = nth i a 0%Q.
Proof.
  intros Hi. unfold Loop.resize. destruct (Nat.lt_ge_cases i (length a)) as [H|H].
  - rewrite app_nth1 by (rewrite length_firstn; lia). rewrite nth_firstn.
    destruct (Nat.ltb_spec i n); [reflexivity|lia].
  - rewrite app_nth2 by (rewrite length_firstn; lia).
    rewrite nth_repeat, nth_overflow by lia. reflexivity.
Qed.

Lemma getMixedSample_app (pos : Z) (lp : Loop.t) (l : LoopLayer) :
  (0 <= pos < Loop.loopLength_ lp) ->
  Loop.getMixedSample pos (Loop.set_layers (Loop.layers_ lp ++ [l]) lp)
  = mix_step (Loop.getMixedSample pos lp) l (Z.to_nat pos).
Proof.
  intros Hp. unfold Loop.getMixedSample. simpl.
  replace ((pos <? 0) || (Loop.loopLength_ lp <=? pos)) with false
    by (symmetry; apply orb_false_iff; split; [apply Z.ltb_ge|apply Z.leb_gt]; lia).
  rewrite fold_left_app. reflexivity.
Qed.

Lemma in_range_false (pos L : Z) :
  ~ (0 <= pos < L) -> ((pos <? 0) || (L <=? pos)) = true.
Proof. intros H. destruct (Z.ltb_spec pos 0); destruct (Z.leb_spec L pos); simpl; auto; lia. Qed.

Lemma in_range_true (pos L : Z) :
  (0 <= pos < L) -> ((pos <? 0) || (L <=? pos)) = false.
Proof. intros H. destruct (Z.ltb_spec pos 0); destruct (Z.leb_spec L pos); simpl; auto; lia. Qed.

Lemma getMixedSample_loadFromCapture_aux (a : list Q) (lp : Loop.t) (p : Z) :
  (Loop.getMixedSample p (Loop.loadFromCapture a lp)
   == if (0 <=? p) && (p <? Z.of_nat (length a)) then nth (Z.to_nat p) a 0 else 0)%Q.
Proof.
  unfold Loop.getMixedSample. simpl.
  destruct (Z.leb_spec 0 p); destruct (Z.ltb_spec p (Z.of_nat (length a))); simpl.
  - rewrite in_range_true by lia. simpl. ring.
  - rewrite in_range_false by lia. reflexivity.
  - rewrite in_range_false by lia. reflexivity.
  - rewrite in_range_false by lia. reflexivity.
Qed.

(** X5: after [loadFromCapture a], the mixed sample at position [p] is [a[p]]
    for [0 <= p < length a] and 0 at every other position. *)
Theorem getMixedSample_loadFromCapture (a : list Q) (lp : Loop.t) (p : Z) :
  (Loop.getMixedSample p (Loop.loadFromCapture a lp)
   == if (0 <=? p) && (p <? Z.of_nat (length a)) then nth (Z.to_nat p) a 0 else 0)%Q.
Proof. apply getMixedSample_loadFromCapture_aux. Qed.

(** X6: after [addLayer a], the mixed sample at a position inside the loop is
    the previous mix plus [a[p]]; outside the loop it is unchanged. *)
Theorem getMixedSample_addLayer (a : list Q) (lp : Loop.t) (p : Z) :
  (Loop.getMixedSample p (Loop.addLayer a lp)
   == Loop.getMixedSample p lp
      + if (0 <=? p) && (p <? Loop.loopLength_ lp) then nth (Z.to_nat p) a 0 else 0)%Q.
Proof.
  destruct (Z.leb_spec 0 p); destruct (Z.ltb_spec p (Loop.loopLength_ lp)); simpl;
    unfold Loop.addLayer; destruct (Z.eqb_spec (Loop.loopLength_ lp) 0); try lia.
  { rewrite getMixedSample_app by lia. unfold mix_step. simpl.
    rewrite nth_resize by (apply Z2Nat.inj_lt; lia). ring. }
  all: unfold Loop.getMixedSample; simpl; rewrite !in_range_false by lia; ring.
Qed.

Lemma crossfadeGain_sym_aux (p : Z) (lp : Loop.t) :
  Loop.crossfadeGain (Loop.loopLength_ lp - 1 - p) lp = Loop.crossfadeGain p lp.
Proof.
  unfold Loop.crossfadeGain.
  set (L := Loop.loopLength_ lp). set (cf := Loop.crossfadeSamples_ lp).
  destruct ((cf <=? 0) || (L <=? cf * 2)) eqn:E; [reflexivity|].
  apply orb_false_iff in E as [E1 E2]. apply Z.leb_gt in E1, E2.
  replace (L - 1 - (L - 1 - p)) with p by lia.
  destruct (Z.ltb_spec (L - 1 - p) cf); destruct (Z.ltb_spec p cf); try lia; reflexivity.
Qed.

(** X7: the crossfade envelope is symmetric: [crossfadeGain (loopLength - 1 -
    p) = crossfadeGain p] for every position [p]. *)
Theorem crossfadeGain_symmetric (p : Z) (lp : Loop.t) :
  Loop.crossfadeGain (Loop.loopLength_ lp - 1 - p) lp = Loop.crossfadeGain p lp.
Proof. apply crossfadeGain_sym_aux. Qed.

(** X8: for a position inside the loop, [crossfadeGain] lies between 0 and 1. *)
Theorem crossfadeGain_bounds (p : Z) (lp : Loop.t) :
  0 <= p < Loop.loopLength_ lp ->
  (0 <= Loop.crossfadeGain p lp <= 1)%Q.
Proof.
  intros Hp. unfold Loop.crossfadeGain.
  set (L := Loop.loopLength_ lp) in *. set (cf := Loop.crossfadeSamples_ lp).
  destruct ((cf <=? 0) || (L <=? cf * 2)) eqn:E; [split; discriminate|].
  apply orb_false_iff in E as [E1 E2]. apply Z.leb_gt in E1, E2.
  assert (Hcf : (0 < inject_Z cf)%Q) by (unfold Qlt; simpl; lia).
  destruct (Z.ltb_spec p cf).
  - split.
    + apply Qle_shift_div_l; [exact Hcf|]. rewrite Qmult_0_l. unfold Qle; simpl; lia.
    + apply Qle_shift_div_r; [exact Hcf|]. rewrite Qmult_1_l. unfold Qle; simpl; lia.
  - destruct (Z.ltb_spec (L - 1 - p) cf); [|split; discriminate].
    split.
    + apply Qle_shift_div_l; [exact Hcf|]. rewrite Qmult_0_l. unfold Qle; simpl; lia.
    + apply Qle_shift_div_r; [exact Hcf|]. rewrite Qmult_1_l. unfold Qle; simpl; lia.
Qed.

(** Playhead facts. *)

Lemma set_playhead_same (lp : Loop.t) :
  Loop.set_playhead (Loop.playPos_ lp) (Loop.fractionalPos_ lp) lp = lp.
Proof. destruct lp; reflexivity. Qed.

Lemma set_playhead_twice (a c : Z) (b d : Q) (lp : Loop.t) :
  Loop.set_playhead a b (Loop.set_playhead c d lp) = Loop.set_playhead a b lp.
Proof. destruct lp; reflexivity. Qed.

Lemma std_trunc_nonneg (x : Q) : (0 <= x)%Q -> std_trunc x = Qfloor x.
Proof. intros H. unfold std_trunc. apply Qle_bool_iff in H. now rewrite H. Qed.

Lemma processSample_playhead (lp : Loop.t) :
  0 < Loop.loopLength_ lp -> (0 <= Loop.speed_ lp)%Q ->
  0 <= Loop.playPos_ lp < Loop.loopLength_ lp ->
  (0 <= Loop.fractionalPos_ lp < 1)%Q ->
  exists pp fp, snd (Loop.processSample lp) = Loop.set_playhead pp fp lp
    /\ 0 <= pp < Loop.loopLength_ lp /\ (0 <= fp < 1)%Q.
Proof.
  intros HL Hs Hp [Hf0 Hf1]. unfold Loop.processSample.
  destruct (Loop.state_ lp);
    try (exists (Loop.playPos_ lp), (Loop.fractionalPos_ lp);
         rewrite set_playhead_same; split; [reflexivity| split; [lia| split; assumption]]).
  all: simpl; set (fp := (Loop.fractionalPos_ lp + Loop.speed_ lp)%Q).
  all: assert (Hfp : (0 <= fp)%Q) by (unfold fp; rewrite <- (Qplus_0_l 0) at 1;
                                          apply Qplus_le_compat; assumption).
  all: rewrite std_trunc_nonneg by exact Hfp.
  all: assert (Hfl : 0 <= Qfloor fp) by
         (apply (Qfloor_resp_le 0) in Hfp; exact Hfp).
  all: eexists; eexists; split; [reflexivity|].
  all: split; [apply Z.rem_bound_pos; lia|].
  all: pose proof (Qfloor_le fp); pose proof (Qlt_floor fp) as Hlt;
       rewrite inject_Z_plus in Hlt; change (inject_Z 1) with 1%Q in Hlt; clearbody fp;
       set (fl := inject_Z (Qfloor fp)) in *; clearbody fl; split; lra.
Qed.

Lemma set_playhead_fields (pp : Z) (fp : Q) (lp : Loop.t) :
  Loop.loopLength_ (Loop.set_playhead pp fp lp) = Loop.loopLength_ lp /\
  Loop.speed_ (Loop.set_playhead pp fp lp) = Loop.speed_ lp /\
  Loop.playPos_ (Loop.set_playhead pp fp lp) = pp /\
  Loop.fractionalPos_ (Loop.set_playhead pp fp lp) = fp.
Proof. repeat split. Qed.

(** X9: for a loop of positive length, non-negative speed and an in-range
    playhead, [processBlock] changes no field of the loop but the playhead,
    and leaves it in range: [0 <= playPos < loopLength] and [0 <=
    fractionalPos < 1]. *)
Theorem processBlock_moves_only_playhead (out : list Q) (lp : Loop.t) :
  0 < Loop.loopLength_ lp -> (0 <= Loop.speed_ lp)%Q ->
  0 <= Loop.playPos_ lp < Loop.loopLength_ lp ->
  (0 <= Loop.fractionalPos_ lp < 1)%Q ->
  exists pp fp, snd (Loop.processBlock out lp) = Loop.set_playhead pp fp lp
    /\ 0 <= pp < Loop.loopLength_ lp /\ (0 <= fp < 1)%Q.
Proof.
  revert lp. induction out as [|o rest IH]; intros lp HL Hs Hp Hf.
  - exists (Loop.playPos_ lp), (Loop.fractionalPos_ lp). rewrite set_playhead_same.
    simpl. auto.
  - simpl. destruct (processSample_playhead lp HL Hs Hp Hf) as (pp & fp & E & Hpp & Hfp).
    destruct (Loop.processSample lp) as [s lp1] eqn:Ep. simpl in E. subst lp1.
    destruct (IH (Loop.set_playhead pp fp lp)) as (pp' & fp' & E' & Hpp' & Hfp');
      [exact HL | exact Hs | exact Hpp | exact Hfp |].
    destruct (Loop.processBlock rest (Loop.set_playhead pp fp lp)) as [o' lp2].
    simpl in *. subst lp2. rewrite set_playhead_twice.
    exists pp', fp'. auto.
Qed.

Lemma Forall2_Qeq_map {A} (f g : A -> Q) (l : list A) :
  (forall x, In x l -> (f x == g x)%Q) -> Forall2 Qeq (map f l) (map g l).
Proof.
  induction l as [|x l IH]; intros H; constructor.
  - apply H. now left.
  - apply IH. intros y Hy. apply H. now right.
Qed.

Section FullPass.

Variable lp0 : Loop.t.
Hypothesis Hst : Loop.state_ lp0 = Playing \/ Loop.state_ lp0 = Recording.
Hypothesis Hspd : Loop.speed_ lp0 = 1%Q.

Lemma processSample_unit_speed (k : Z) :
  Loop.processSample (Loop.set_playhead k 0 lp0)
  = ((Loop.getMixedSample (Loop.readPos (Loop.set_playhead k 0 lp0)) lp0
      * Loop.crossfadeGain (Loop.readPos (Loop.set_playhead k 0 lp0)) lp0)%Q,
     Loop.set_playhead (Z.rem (k + 1) (Loop.loopLength_ lp0)) 0 lp0).
Proof.
  unfold Loop.processSample. cbn [Loop.state_ Loop.set_playhead].
  destruct Hst as [E | E]; rewrite E;
  cbn [Loop.fractionalPos_ Loop.speed_ Loop.set_playhead Loop.playPos_ Loop.loopLength_];
  rewrite Hspd, set_playhead_twice; reflexivity.
Qed.

Lemma processBlock_unit_speed (N : nat) (m k : nat) :
  Loop.loopLength_ lp0 = Z.of_nat N -> (k < N)%nat -> (k + m = N)%nat ->
  Loop.processBlock (repeat 0%Q m) (Loop.set_playhead (Z.of_nat k) 0 lp0)
  = (map (pass_sample lp0) (seq k m), Loop.set_playhead 0 0 lp0).
Proof.
  intros HL. revert k. induction m as [|m IH]; intros k Hk Hkm; [lia|].
  cbn [repeat Loop.processBlock]. rewrite processSample_unit_speed.
  rewrite HL. destruct m as [|m].
  - replace (Z.of_nat k + 1) with (Z.of_nat N) by lia. rewrite Z.rem_same by lia.
    cbn [Loop.processBlock seq map]. rewrite Qplus_0_l_eq. reflexivity.
  - rewrite Z.rem_small by lia. replace (Z.of_nat k + 1) with (Z.of_nat (S k)) by lia.
    rewrite IH by lia. rewrite Qplus_0_l_eq. reflexivity.
Qed.

End FullPass.

Lemma loadFromCapture_fields (a : list Q) (lp : Loop.t) :
  Loop.state_ (Loop.loadFromCapture a lp) = Playing /\
  Loop.speed_ (Loop.loadFromCapture a lp) = 1%Q /\
  Loop.loopLength_ (Loop.loadFromCapture a lp) = Z.of_nat (length a) /\
  Loop.reversed_ (Loop.loadFromCapture a lp) = false.
Proof. repeat split. Qed.

(** X10: playing one full pass (as many samples as captured) of a freshly
    captured loop from a silent output buffer yields [a[i] * crossfadeGain i]
    for each [i], and returns the loop to its initial state. *)
Theorem playback_loadFromCapture (a : list Q) (lp : Loop.t) :
  snd (Loop.processBlock (repeat 0%Q (length a)) (Loop.loadFromCapture a lp))
    = Loop.loadFromCapture a lp /\
  Forall2 Qeq (fst (Loop.processBlock (repeat 0%Q (length a)) (Loop.loadFromCapture a lp)))
    (map (fun i => nth i a 0 * Loop.crossfadeGain (Z.of_nat i) (Loop.loadFromCapture a lp))%Q
         (seq 0 (length a))).
Proof.
  destruct (length a) as [|n] eqn:En.
  - split; [reflexivity | constructor].
  - set (lp0 := Loop.loadFromCapture a lp).
    assert (E0 : lp0 = Loop.set_playhead (Z.of_nat 0) 0 lp0) by reflexivity.
    rewrite E0 at 1 3. rewrite (processBlock_unit_speed lp0 (or_introl eq_refl) eq_refl (S n))
      by (first [simpl; rewrite En; reflexivity | lia]).
    split; [reflexivity|].
    apply Forall2_Qeq_map. intros i Hi. apply in_seq in Hi.
    unfold pass_sample. cbn [Loop.readPos Loop.reversed_ Loop.set_playhead].
    replace (Loop.reversed_ lp0) with false by reflexivity.
    unfold lp0. rewrite getMixedSample_loadFromCapture_aux.
    replace (Loop.readPos (Loop.set_playhead (Z.of_nat i) 0 (Loop.loadFromCapture a lp)))
      with (Z.of_nat i) by reflexivity.
    rewrite En, Nat2Z.id.
    destruct (Z.leb_spec 0 (Z.of_nat i)); destruct (Z.ltb_spec (Z.of_nat i) (Z.of_nat (S n)));
      try lia. reflexivity.
Qed.

(** X11: playing one full pass of a freshly captured loop after
    [toggleReverse] yields the captured audio backwards, [rev a] sample by
    sample times [crossfadeGain i], and returns the loop to its state before
    the pass. *)
Theorem playback_reversed (a : list Q) (lp : Loop.t) :
  snd (Loop.processBlock (repeat 0%Q (length a))
         (Loop.toggleReverse (Loop.loadFromCapture a lp)))
    = Loop.toggleReverse (Loop.loadFromCapture a lp) /\
  Forall2 Qeq (fst (Loop.processBlock (repeat 0%Q (length a))
                      (Loop.toggleReverse (Loop.loadFromCapture a lp))))
    (map (fun i => nth i (rev a) 0
                   * Loop.crossfadeGain (Z.of_nat i) (Loop.toggleReverse (Loop.loadFromCapture a lp)))%Q
         (seq 0 (length a))).
Proof.
  destruct (length a) as [|n] eqn:En.
  - split; [reflexivity | constructor].
  - set (lp0 := Loop.toggleReverse (Loop.loadFromCapture a lp)).
    assert (E0 : lp0 = Loop.set_playhead (Z.of_nat 0) 0 lp0) by reflexivity.
    rewrite E0 at 1 3. rewrite (processBlock_unit_speed lp0 (or_introl eq_refl) eq_refl (S n))
      by (first [simpl; rewrite En; reflexivity | lia]).
    split; [reflexivity|].
    apply Forall2_Qeq_map. intros i Hi. apply in_seq in Hi.
    unfold pass_sample.
    replace (Loop.readPos (Loop.set_playhead (Z.of_nat i) 0 lp0))
      with (Loop.loopLength_ lp0 - 1 - Z.of_nat i) by reflexivity.
    rewrite crossfadeGain_sym_aux.
    replace (Loop.getMixedSample (Loop.loopLength_ lp0 - 1 - Z.of_nat i) lp0)
      with (Loop.getMixedSample (Z.of_nat (length a) - 1 - Z.of_nat i) (Loop.loadFromCapture a lp))
      by reflexivity.
    rewrite getMixedSample_loadFromCapture_aux, En.
    destruct (Z.leb_spec 0 (Z.of_nat (S n) - 1 - Z.of_nat i));
      destruct (Z.ltb_spec (Z.of_nat (S n) - 1 - Z.of_nat i) (Z.of_nat (S n))); try lia.
    simpl andb. cbv iota.
    rewrite rev_nth by lia. rewrite En.
    replace (Z.to_nat (Z.of_nat (S n) - 1 - Z.of_nat i)) with (S n - S i)%nat by lia.
    reflexivity.
Qed.

Lemma nth_update_nth {A} (k i : nat) (f : A -> A) (l : list A) (d : A) :
  (i < length l)%nat ->
  nth k (Loop.update_nth i f l) d = if Nat.eqb k i then f (nth i l d) else nth k l d.
Proof.
  revert k i. induction l as [|x l IH]; intros k i Hi; [simpl in Hi; lia|].
  destruct i as [|i], k as [|k]; simpl; try reflexivity.
  apply IH. simpl in Hi. lia.
Qed.

Lemma update_nth_last {A} (f : A -> A) (l : list A) (y : A) :
  Loop.update_nth (length l) f (l ++ [y]) = l ++ [f y].
Proof. induction l as [|x l IH]; simpl; [reflexivity|]. now rewrite IH. Qed.

(** X12: on a non-empty loop with an in-range playhead, after [startOverdub]
    a [recordSample x] adds [x] to the mix at the current read position and
    changes the mix nowhere else. *)
Theorem overdub_recordSample_mix (x : Q) (lp : Loop.t) (q : Z) :
  Loop.state_ lp <> Empty -> 0 <= Loop.playPos_ lp < Loop.loopLength_ lp ->
  (Loop.getMixedSample q (Loop.recordSample x (Loop.startOverdub lp))
   == Loop.getMixedSample q lp + if q =? Loop.readPos lp then x else 0)%Q.
Proof.
  intros Hne Hp.
  assert (Hrp : 0 <= Loop.readPos lp < Loop.loopLength_ lp)
    by (unfold Loop.readPos; destruct (Loop.reversed_ lp); lia).
  set (L := Loop.loopLength_ lp) in *.
  set (newl := mkLayer (repeat 0%Q (Z.to_nat L)) 1%Q true).
  assert (Es : Loop.startOverdub lp
               = Loop.set_state Recording (Loop.set_layers (Loop.layers_ lp ++ [newl]) lp)).
  { unfold Loop.startOverdub, Loop.isEmpty.
    replace (LoopState_eqb (Loop.state_ lp) Empty) with false
      by (destruct (Loop.state_ lp) eqn:Est; try reflexivity; congruence).
    replace (Loop.loopLength_ lp =? 0) with false by (symmetry; apply Z.eqb_neq; lia). reflexivity. }
  rewrite Es. unfold Loop.recordSample. cbn [Loop.state_ Loop.set_state Loop.layers_ Loop.set_layers].
  rewrite length_app. simpl LoopState_eqb. cbn [negb orb].
  replace ((length (Loop.layers_ lp) + length [newl] =? 0)%nat) with false
    by (symmetry; apply Nat.eqb_neq; simpl; lia).
  replace (Loop.readPos (Loop.set_state Recording (Loop.set_layers (Loop.layers_ lp ++ [newl]) lp)))
    with (Loop.readPos lp) by reflexivity.
  cbn [Loop.loopLength_ Loop.set_state Loop.set_layers]. fold L.
  replace ((0 <=? Loop.readPos lp) && (Loop.readPos lp <? L)) with true
    by (symmetry; apply andb_true_iff; split; [apply Z.leb_le|apply Z.ltb_lt]; lia).
  simpl length. replace (length (Loop.layers_ lp) + 1 - 1)%nat with (length (Loop.layers_ lp)) by lia.
  rewrite update_nth_last.
  destruct (Z.leb_spec 0 q) as [Hq0|Hq0]; [destruct (Z.ltb_spec q L) as [HqL|HqL]|].
  - unfold Loop.getMixedSample. cbn [Loop.layers_ Loop.set_layers Loop.set_state Loop.loopLength_].
    fold L. rewrite in_range_true by lia. rewrite fold_left_app. simpl.
    rewrite nth_update_nth by (rewrite repeat_length; apply Z2Nat.inj_lt; lia).
    rewrite nth_repeat.
    destruct (Z.eqb_spec q (Loop.readPos lp)) as [->|Hneq].
    + rewrite Nat.eqb_refl. ring.
    + replace (Z.to_nat q =? Z.to_nat (Loop.readPos lp))%nat with false
        by (symmetry; apply Nat.eqb_neq; intros E; apply Z2Nat.inj in E; lia).
      rewrite nth_repeat. ring.
  - unfold Loop.getMixedSample. cbn [Loop.layers_ Loop.set_layers Loop.set_state Loop.loopLength_].
    fold L. rewrite !in_range_false by lia.
    replace (q =? Loop.readPos lp) with false by (symmetry; apply Z.eqb_neq; lia). ring.
  - unfold Loop.getMixedSample. cbn [Loop.layers_ Loop.set_layers Loop.set_state Loop.loopLength_].
    fold L. rewrite !in_range_false by lia.
    replace (q =? Loop.readPos lp) with false by (symmetry; apply Z.eqb_neq; lia). ring.
Qed.

Lemma fold_count (ls : list LoopLayer) (c : Z) :
  fold_left (fun count layer => if active layer then count + 1 else count) ls c
  = c + Z.of_nat (count_active ls).
Proof.
  revert c. induction ls as [|l ls IH]; intros c; simpl; [lia|].
  unfold count_active in *. simpl filter. destruct (active l); rewrite IH; cbn [length]; lia.
Qed.

Lemma activeLayerCount_eq (lp : Loop.t) :
  Loop.activeLayerCount lp = Z.of_nat (count_active (Loop.layers_ lp)).
Proof. unfold Loop.activeLayerCount. rewrite fold_count. lia. Qed.

Lemma count_update_active (j : nat) (b : bool) (ls : list LoopLayer) (l : LoopLayer) :
  nth_error ls j = Some l ->
  (count_active (Loop.update_nth j (Loop.set_active b) ls) + (if active l then 1 else 0)
   = count_active ls + (if b then 1 else 0))%nat.
Proof.
  unfold count_active. revert j. induction ls as [|x ls IH]; intros j Hj; [destruct j; discriminate|].
  destruct j as [|j]; simpl in *.
  - injection Hj as ->. destruct b, (active l); simpl; lia.
  - specialize (IH j Hj). destruct (active x); simpl; lia.
Qed.

Lemma existsb_firstn_S {A} (f : A -> bool) (i : nat) (l : list A) :
  existsb f (firstn (S i) l)
  = existsb f (firstn i l) || match nth_error l i with Some x => f x | None => false end.
Proof.
  revert i. induction l as [|x l IH]; intros i; [destruct i; reflexivity|].
  destruct i as [|i].
  - simpl. now rewrite orb_false_r.
  - rewrite !firstn_cons. cbn [existsb nth_error]. rewrite IH. apply orb_assoc.
Qed.

Lemma undo_scan_count (i : nat) (ls : list LoopLayer) :
  (i < length ls)%nat ->
  (count_active (Loop.undo_scan i ls)
   + (if existsb active (firstn i (skipn 1 ls)) then 1 else 0) = count_active ls)%nat.
Proof.
  induction i as [|i IH]; intros Hi; [simpl; lia|].
  rewrite undo_scan_S, existsb_firstn_S.
  replace (nth_error (skipn 1 ls) i) with (nth_error ls (S i))
    by (rewrite nth_error_skipn; reflexivity).
  destruct (nth_error ls (S i)) as [l|] eqn:El;
    [|apply nth_error_None in El; lia].
  destruct (active l) eqn:Ea.
  - pose proof (count_update_active (S i) false ls l El) as H. rewrite Ea in H.
    rewrite orb_true_r. rewrite Nat.add_0_r in H. exact H.
  - rewrite orb_false_r. apply IH. lia.
Qed.

Lemma skipn_nth_error {A} (i : nat) (l : list A) (x : A) :
  nth_error l i = Some x -> skipn i l = x :: skipn (S i) l.
Proof.
  revert i. induction l as [|y l IH]; intros i H; [destruct i; discriminate|].
  destruct i as [|i]; simpl in *; [now injection H as ->|]. now apply IH.
Qed.

Lemma redo_scan_count (fuel i : nat) (ls : list LoopLayer) :
  (i + fuel <= length ls)%nat ->
  count_active (Loop.redo_scan i fuel ls)
  = (count_active ls
     + if existsb (fun l => negb (active l)) (firstn fuel (skipn i ls)) then 1 else 0)%nat.
Proof.
  revert i. induction fuel as [|fuel IH]; intros i Hi; [simpl; lia|].
  rewrite redo_scan_S.
  destruct (nth_error ls i) as [l|] eqn:El; [|apply nth_error_None in El; lia].
  rewrite (skipn_nth_error i ls l El). simpl firstn. simpl existsb.
  destruct (active l) eqn:Ea; simpl negb; cbn [orb].
  - apply IH. lia.
  - pose proof (count_update_active i true ls l El) as H. rewrite Ea in H. lia.
Qed.

(** X13: [undoLayer] lowers [activeLayerCount] by one if some layer after the
    base layer is active, and leaves it unchanged otherwise. *)
Theorem undoLayer_activeLayerCount (lp : Loop.t) :
  Loop.activeLayerCount (Loop.undoLayer lp)
  = Loop.activeLayerCount lp - if existsb active (tl (Loop.layers_ lp)) then 1 else 0.
Proof.
  rewrite !activeLayerCount_eq. unfold Loop.undoLayer. cbn [Loop.layers_ Loop.set_layers].
  destruct (Loop.layers_ lp) as [|l0 ls] eqn:E; [reflexivity|].
  pose proof (undo_scan_count (length (l0 :: ls) - 1) (l0 :: ls)) as H.
  simpl length in H. simpl skipn in H.
  replace (S (length ls) - 1)%nat with (length ls) in H by lia.
  rewrite firstn_all in H. simpl tl. simpl length.
  replace (S (length ls) - 1)%nat with (length ls) by lia.
  destruct (existsb active ls); specialize (H ltac:(lia)); lia.
Qed.

(** X14: [redoLayer] raises [activeLayerCount] by one if some layer after the
    base layer is inactive, and leaves it unchanged otherwise. *)
Theorem redoLayer_activeLayerCount (lp : Loop.t) :
  Loop.activeLayerCount (Loop.redoLayer lp)
  = Loop.activeLayerCount lp
    + if existsb (fun l => negb (active l)) (tl (Loop.layers_ lp)) then 1 else 0.
Proof.
  rewrite !activeLayerCount_eq. unfold Loop.redoLayer. cbn [Loop.layers_ Loop.set_layers].
  destruct (Loop.layers_ lp) as [|l0 ls] eqn:E; [reflexivity|].
  rewrite redo_scan_count by (simpl; lia).
  simpl length. simpl skipn. replace (S (length ls) - 1)%nat with (length ls) by lia.
  rewrite firstn_all. simpl tl.
  destruct (existsb _ ls); lia.
Qed.

(** ** Metronome: position, meter and tempo changes *)

(** X15: in the derived-position metronome with a positive beat length,
    positive beats per bar and a non-negative sample count, [position]
    returns a non-negative bar, a beat in [[0, beatsPerBar)] and a fraction
    in [[0, 1)] with [totalSamples = (bar * beatsPerBar + beat +
    beatFraction) * samplesPerBeat]. *)
Theorem position_decomposes (m : Metronome.t) :
  (0 < Metronome.samplesPerBeat_ m)%Q -> 0 < Metronome.beatsPerBar_ m ->
  0 <= Metronome.totalSamples_ m ->
  0 <= pos_bar (Metronome.position m) /\
  0 <= pos_beat (Metronome.position m) < Metronome.beatsPerBar_ m /\
  (0 <= pos_beatFraction (Metronome.position m) < 1)%Q /\
  (inject_Z (Metronome.totalSamples_ m)
   == (inject_Z (pos_bar (Metronome.position m) * Metronome.beatsPerBar_ m
                 + pos_beat (Metronome.position m))
       + pos_beatFraction (Metronome.position m)) * Metronome.samplesPerBeat_ m)%Q.
Proof.
  intros Hs Hb HT. unfold Metronome.position. cbn [pos_bar pos_beat pos_beatFraction].
  set (spb := Metronome.samplesPerBeat_ m) in *.
  set (T := Metronome.totalSamples_ m) in *.
  set (b := Metronome.beatsPerBar_ m) in *.
  set (tb := (inject_Z T / spb)%Q).
  assert (Htb : (0 <= tb)%Q).
  { unfold tb. apply Qle_shift_div_l; [exact Hs|]. rewrite Qmult_0_l.
    unfold Qle; simpl; lia. }
  unfold std_floor. set (w := Qfloor tb).
  assert (Hw : 0 <= w) by (apply (Qfloor_resp_le 0) in Htb; exact Htb).
  pose proof (Z.quot_rem' w b) as Hqr.
  rewrite (Z.quot_div_nonneg w b) in * by lia.
  rewrite (Z.rem_mod_nonneg w b) in * by lia.
  pose proof (Z.mod_pos_bound w b Hb).
  pose proof (Qfloor_le tb) as Hf1. pose proof (Qlt_floor tb) as Hf2.
  rewrite inject_Z_plus in Hf2. change (inject_Z 1) with 1%Q in Hf2. fold w in Hf1, Hf2.
  split; [apply Z.div_pos; lia|]. split; [lia|]. split; [split; lra|].
  replace (w / b * b + w mod b) with w by lia.
  setoid_replace (inject_Z w + (tb - inject_Z w))%Q with tb by ring.
  unfold tb. field. intros E. rewrite E in Hs. discriminate.
Qed.

(** X16: in the derived-position metronome, [setBeatsPerBar] clamps the meter
    to [[1, 16]] and keeps the sample count, the beat length, the absolute
    beat number [bar * beatsPerBar + beat] and the beat fraction. *)
Theorem setBeatsPerBar_keeps_beat_grid (beats : Z) (m : Metronome.t) :
  Metronome.samplesPerBeat_ m = ((60 # 1) / Metronome.bpm_ m * Metronome.sampleRate_ m)%Q ->
  1 <= Metronome.beatsPerBar_ (Metronome.setBeatsPerBar beats m) <= 16 /\
  Metronome.totalSamples_ (Metronome.setBeatsPerBar beats m) = Metronome.totalSamples_ m /\
  Metronome.samplesPerBeat_ (Metronome.setBeatsPerBar beats m) = Metronome.samplesPerBeat_ m /\
  pos_bar (Metronome.position (Metronome.setBeatsPerBar beats m))
    * Metronome.beatsPerBar_ (Metronome.setBeatsPerBar beats m)
  + pos_beat (Metronome.position (Metronome.setBeatsPerBar beats m))
  = pos_bar (Metronome.position m) * Metronome.beatsPerBar_ m
    + pos_beat (Metronome.position m) /\
  pos_beatFraction (Metronome.position (Metronome.setBeatsPerBar beats m))
  = pos_beatFraction (Metronome.position m).
Proof.
  intros Hspb. unfold Metronome.position, Metronome.setBeatsPerBar, Metronome.recalculate.
  cbn [Metronome.beatsPerBar_ Metronome.totalSamples_ Metronome.samplesPerBeat_
       Metronome.bpm_ Metronome.sampleRate_ pos_bar pos_beat pos_beatFraction].
  rewrite <- Hspb.
  set (w := std_floor (inject_Z (Metronome.totalSamples_ m) / Metronome.samplesPerBeat_ m)%Q).
  pose proof (Z.quot_rem' w (Z.max 1 (Z.min beats 16))).
  pose proof (Z.quot_rem' w (Metronome.beatsPerBar_ m)).
  repeat split; try reflexivity; lia.
Qed.

(** X17: in the accumulator metronome, [setBeatsPerBar] clamps the meter to
    [[1, 16]] and brings the current beat back into [[0, beatsPerBar)]; the
    position in the beat and the sample count are kept. *)
Theorem accum_setBeatsPerBar_normalises (beats : Z) (m : MetronomeAccum.t) :
  0 <= MetronomeAccum.currentBeat_ m ->
  1 <= MetronomeAccum.beatsPerBar_ (MetronomeAccum.setBeatsPerBar beats m) <= 16 /\
  0 <= MetronomeAccum.currentBeat_ (MetronomeAccum.setBeatsPerBar beats m)
     < MetronomeAccum.beatsPerBar_ (MetronomeAccum.setBeatsPerBar beats m) /\
  MetronomeAccum.sampleInBeat_ (MetronomeAccum.setBeatsPerBar beats m)
    = MetronomeAccum.sampleInBeat_ m /\
  MetronomeAccum.totalSamples_ (MetronomeAccum.setBeatsPerBar beats m)
    = MetronomeAccum.totalSamples_ m.
Proof.
  intros Hb. unfold MetronomeAccum.setBeatsPerBar, MetronomeAccum.recalculate.
  cbn [MetronomeAccum.beatsPerBar_ MetronomeAccum.currentBeat_].
  destruct (Z.leb_spec (Z.max 1 (Z.min beats 16)) (MetronomeAccum.currentBeat_ m));
    cbn; repeat split; lia.
Qed.

Lemma std_max_1_pos (v : Q) : (1 <= std_max 1 v)%Q.
Proof.
  unfold std_max. destruct (Qltb 1 v) eqn:E.
  - apply Qlt_le_weak, Qltb_iff, E.
  - apply Qle_refl.
Qed.

Lemma rescale_fraction (sib spb spb' : Q) :
  (0 < spb)%Q -> (0 < spb')%Q ->
  ((if Qltb 0 spb then sib / spb else 0) * spb' / spb' == sib / spb)%Q.
Proof.
  intros H H'. replace (Qltb 0 spb) with true by (symmetry; apply Qltb_iff, H).
  field. split; intros E; lra.
Qed.

Lemma spb_pos (bpm sr : Q) : (0 < bpm)%Q -> (0 < sr)%Q -> (0 < (60 # 1) / bpm * sr)%Q.
Proof.
  intros Hb Hs. apply Qmult_lt_0_compat; [|exact Hs].
  apply Qlt_shift_div_l; [exact Hb|]. rewrite Qmult_0_l. reflexivity.
Qed.

(** X18: in the accumulator metronome with a positive beat length and sample
    rate, [setBpm] keeps the beat fraction, the bar, the beat and the sample
    count. *)
Theorem accum_setBpm_keeps_phase (v : Q) (m : MetronomeAccum.t) :
  (0 < MetronomeAccum.samplesPerBeat_ m)%Q -> (0 < MetronomeAccum.sampleRate_ m)%Q ->
  (pos_beatFraction (MetronomeAccum.position (MetronomeAccum.setBpm v m))
   == pos_beatFraction (MetronomeAccum.position m))%Q /\
  pos_bar (MetronomeAccum.position (MetronomeAccum.setBpm v m))
    = pos_bar (MetronomeAccum.position m) /\
  pos_beat (MetronomeAccum.position (MetronomeAccum.setBpm v m))
    = pos_beat (MetronomeAccum.position m) /\
  pos_totalSamples (MetronomeAccum.position (MetronomeAccum.setBpm v m))
    = pos_totalSamples (MetronomeAccum.position m).
Proof.
  intros Hs Hr. unfold MetronomeAccum.position, MetronomeAccum.setBpm, MetronomeAccum.recalculate.
  cbn. repeat split; try reflexivity.
  apply rescale_fraction; [exact Hs|]. apply spb_pos; [|exact Hr].
  eapply Qlt_le_trans; [|apply std_max_1_pos]. reflexivity.
Qed.

(** X19: in the accumulator metronome with a positive beat length and tempo,
    [setSampleRate] to a positive rate keeps the beat fraction, the bar, the
    beat and the sample count. *)
Theorem accum_setSampleRate_keeps_phase (rate : Q) (m : MetronomeAccum.t) :
  (0 < MetronomeAccum.samplesPerBeat_ m)%Q -> (0 < MetronomeAccum.bpm_ m)%Q -> (0 < rate)%Q ->
  (pos_beatFraction (MetronomeAccum.position (MetronomeAccum.setSampleRate rate m))
   == pos_beatFraction (MetronomeAccum.position m))%Q /\
  pos_bar (MetronomeAccum.position (MetronomeAccum.setSampleRate rate m))
    = pos_bar (MetronomeAccum.position m) /\
  pos_beat (MetronomeAccum.position (MetronomeAccum.setSampleRate rate m))
    = pos_beat (MetronomeAccum.position m) /\
  pos_totalSamples (MetronomeAccum.position (MetronomeAccum.setSampleRate rate m))
    = pos_totalSamples (MetronomeAccum.position m).
Proof.
  intros Hs Hb Hr.
  unfold MetronomeAccum.position, MetronomeAccum.setSampleRate, MetronomeAccum.recalculate.
  cbn. repeat split; try reflexivity.
  apply rescale_fraction; [exact Hs|]. apply spb_pos; assumption.
Qed.




(** ** MIDI clock and input channels *)

Lemma midi_ticks_conserve (n : nat) (s : MidiSync) :
  (1 <= midi_samplesPerTick s)%Q ->
  (0 <= midi_sampleInTick s < midi_samplesPerTick s)%Q ->
  let '(s', out) := midi_ticks n s in
  out = repeat kClockTick (length out) /\
  midi_samplesPerTick s' = midi_samplesPerTick s /\
  midi_bpm s' = midi_bpm s /\ midi_sampleRate s' = midi_sampleRate s /\
  (0 <= midi_sampleInTick s' < midi_samplesPerTick s')%Q /\
  (midi_sampleInTick s + inject_Z (Z.of_nat n)
   == inject_Z (Z.of_nat (length out)) * midi_samplesPerTick s + midi_sampleInTick s')%Q.
Proof.
  revert s. induction n as [|n IH]; intros s H1 [H2 H3].
  - simpl. repeat split; try lra. ring.
  - cbn [midi_ticks].
    destruct (Qle_bool (midi_samplesPerTick s) (midi_sampleInTick s + 1)) eqn:E.
    + apply Qle_bool_iff in E.
      specialize (IH (mkMidi (midi_bpm s) (midi_sampleRate s) (midi_samplesPerTick s)
                       (midi_sampleInTick s + 1 - midi_samplesPerTick s))).
      cbn in IH. specialize (IH H1 ltac:(split; lra)).
      destruct (midi_ticks n _) as [s2 out2].
      destruct IH as (R & P & B & SR & [Lo Hi] & C).
      rewrite P in *. simpl app. simpl length.
      repeat split; try congruence; try lra.
      * rewrite R at 1. reflexivity.
      * rewrite !Nat2Z.inj_succ. unfold Z.succ. rewrite !inject_Z_plus.
        change (inject_Z 1) with 1%Q. lra.
    + assert (E' : (midi_sampleInTick s + 1 < midi_samplesPerTick s)%Q)
        by (apply Qltb_iff; unfold Qltb; rewrite E; reflexivity).
      specialize (IH (mkMidi (midi_bpm s) (midi_sampleRate s) (midi_samplesPerTick s)
                       (midi_sampleInTick s + 1))).
      cbn in IH. specialize (IH H1 ltac:(split; lra)).
      destruct (midi_ticks n _) as [s2 out2].
      destruct IH as (R & P & B & SR & [Lo Hi] & C).
      simpl app. repeat split; try congruence; try lra.
      rewrite Nat2Z.inj_succ. unfold Z.succ. rewrite inject_Z_plus.
      change (inject_Z 1) with 1%Q. lra.
Qed.

(** X21: for a MIDI clock with at least one sample per tick and its tick
    position in range, [advance] emits only clock bytes [0xF8], as many as
    [floor((sampleInTick + n) / samplesPerTick)] when enabled and none when
    disabled, and keeps the remainder as the new in-range tick position. *)
Theorem midi_advance_ticks (enabled : bool) (n : Z) (s : MidiSync) :
  (1 <= midi_samplesPerTick s)%Q ->
  (0 <= midi_sampleInTick s < midi_samplesPerTick s)%Q ->
  let '(s', out) := midi_advance enabled n s in
  out = repeat kClockTick (length out) /\
  (0 <= midi_sampleInTick s' < midi_samplesPerTick s')%Q /\
  Z.of_nat (length out)
  = Qfloor ((midi_sampleInTick s + inject_Z (if enabled then Z.max n 0 else 0))
            / midi_samplesPerTick s) /\
  (midi_sampleInTick s + inject_Z (if enabled then Z.max n 0 else 0)
   == inject_Z (Z.of_nat (length out)) * midi_samplesPerTick s + midi_sampleInTick s')%Q.
Proof.
  intros H1 H2.
  assert (Hspt : (0 < midi_samplesPerTick s)%Q) by lra.
  assert (Key : forall (k : nat) (s' : MidiSync) (out : list Z),
            (0 <= midi_sampleInTick s' < midi_samplesPerTick s)%Q ->
            (midi_sampleInTick s + inject_Z (Z.of_nat k)
             == inject_Z (Z.of_nat (length out)) * midi_samplesPerTick s + midi_sampleInTick s')%Q ->
            Z.of_nat (length out)
            = Qfloor ((midi_sampleInTick s + inject_Z (Z.of_nat k)) / midi_samplesPerTick s)).
  { intros k s' out [Lo Hi] C. symmetry. apply Qfloor_unique.
    - apply Qle_shift_div_l; [exact Hspt|]. rewrite C. lra.
    - apply Qlt_shift_div_r; [exact Hspt|]. rewrite C, inject_Z_plus.
      change (inject_Z 1) with 1%Q. lra. }
  unfold midi_advance. destruct enabled; simpl negb; cbv iota.
  - destruct (Z.leb_spec n 0); simpl orb; cbv iota.
    + replace (Z.max n 0) with 0 by lia. cbv beta iota zeta. cbn [length Z.of_nat]. change (inject_Z 0) with 0%Q.
      repeat split; try lra.
      * symmetry. apply Qfloor_unique.
        -- apply Qle_shift_div_l; [exact Hspt|]. change (inject_Z 0) with 0%Q; lra.
        -- apply Qlt_shift_div_r; [exact Hspt|]. change (inject_Z (0 + 1)) with 1%Q. lra.
    + pose proof (midi_ticks_conserve (Z.to_nat n) s H1 H2) as Hc.
      destruct (midi_ticks (Z.to_nat n) s) as [s' out].
      destruct Hc as (R & P & B & SR & Hb & C).
      rewrite Z2Nat.id in C by lia. replace (Z.max n 0) with n by lia.
      rewrite P. rewrite P in Hb. split; [exact R|]. split; [exact Hb|]. split; [|exact C].
      pose proof (Key (Z.to_nat n) s' out Hb) as K.
      rewrite Z2Nat.id in K by lia. exact (K C).
  - cbn [negb orb]. cbv beta iota zeta. cbn [length Z.of_nat]. change (inject_Z 0) with 0%Q. repeat split; try lra.
    + symmetry. apply Qfloor_unique.
      * apply Qle_shift_div_l; [exact Hspt|]. change (inject_Z 0) with 0%Q; lra.
      * apply Qlt_shift_div_r; [exact Hspt|]. change (inject_Z (0 + 1)) with 1%Q. lra.
Qed.

Lemma spt_pos (bpm sr : Q) : (0 < bpm)%Q -> (0 < sr)%Q -> (0 < (60 # 1) / bpm * sr / (24 # 1))%Q.
Proof.
  intros Hb Hs. apply Qlt_shift_div_l; [reflexivity|]. rewrite Qmult_0_l.
  apply Qmult_lt_0_compat; [|exact Hs].
  apply Qlt_shift_div_l; [exact Hb|]. rewrite Qmult_0_l. reflexivity.
Qed.

(** X22: for a MIDI clock with positive tick length, sample rate and tempo,
    [setBpm] and [setSampleRate] (to a positive rate) keep the fraction of
    the current tick elapsed. *)
Theorem midi_tempo_setters_keep_phase (v rate : Q) (s : MidiSync) :
  (0 < midi_samplesPerTick s)%Q -> (0 < midi_sampleRate s)%Q ->
  (0 < midi_bpm s)%Q -> (0 < rate)%Q ->
  (midi_sampleInTick (midi_setBpm v s) / midi_samplesPerTick (midi_setBpm v s)
   == midi_sampleInTick s / midi_samplesPerTick s)%Q /\
  (midi_sampleInTick (midi_setSampleRate rate s) / midi_samplesPerTick (midi_setSampleRate rate s)
   == midi_sampleInTick s / midi_samplesPerTick s)%Q.
Proof.
  intros Hs Hsr Hb Hr. split.
  - unfold midi_setBpm. cbn [midi_sampleInTick midi_samplesPerTick].
    apply rescale_fraction; [exact Hs|]. apply spt_pos; [|exact Hsr].
    eapply Qlt_le_trans; [|apply std_max_1_pos]. reflexivity.
  - unfold midi_setSampleRate. cbn [midi_sampleInTick midi_samplesPerTick].
    apply rescale_fraction; [exact Hs|]. apply spt_pos; assumption.
Qed.

Lemma writeSample_inv (N : nat) (x : Q) (ch : InputChannel.t) :
  ic_inv N ch -> ic_inv N (InputChannel.writeSample x ch).
Proof.
  intros (H1 & H2 & H3). unfold InputChannel.writeSample.
  destruct (Z.leb_spec InputChannel.kBlockSize (InputChannel.sampleInBlock_ ch + 1)).
  - unfold ic_inv; cbn. rewrite length_update_nth.
    split; [apply Nat.mod_upper_bound; lia|]. split; [unfold InputChannel.kBlockSize; lia|exact H3].
  - unfold ic_inv; cbn. split; [exact H1|]. split; [lia|exact H3].
Qed.

(** X23: for an input channel built by its constructor and fed any sequence
    of samples, the block cursor stays inside the block-peak array, the
    position in the block stays in [[0, kBlockSize)], and the array keeps its
    constructor length [max 1 (activityWindowSamples / kBlockSize)]. *)
Theorem inputChannel_blocks_in_range (ringCapacity : nat) (activityWindowSamples : Z)
    (xs : list Q) :
  let ch := fold_left (fun ch x => InputChannel.writeSample x ch) xs
              (InputChannel.create ringCapacity activityWindowSamples) in
  (InputChannel.blockWritePos_ ch < length (InputChannel.blockPeaks_ ch))%nat /\
  0 <= InputChannel.sampleInBlock_ ch < InputChannel.kBlockSize /\
  length (InputChannel.blockPeaks_ ch)
  = Z.to_nat (Z.max 1 (Z.quot activityWindowSamples InputChannel.kBlockSize)).
Proof.
  cbv zeta.
  assert (H0 : ic_inv (Z.to_nat (Z.max 1 (Z.quot activityWindowSamples InputChannel.kBlockSize)))
                      (InputChannel.create ringCapacity activityWindowSamples)).
  { unfold ic_inv, InputChannel.create; cbn [InputChannel.blockWritePos_
      InputChannel.blockPeaks_ InputChannel.sampleInBlock_].
    rewrite repeat_length. split; [lia|]. split; [unfold InputChannel.kBlockSize; lia|reflexivity]. }
  revert H0. generalize (InputChannel.create ringCapacity activityWindowSamples).
  induction xs as [|x xs IH]; intros ch H; simpl; [exact H|].
  apply IH. apply writeSample_inv. exact H.
Qed.

Lemma fold_max_ge_init (l : list Q) (c : Q) :
  (c <= fold_left (fun c p => if Qltb c p then p else c) l c)%Q.
Proof.
  revert c. induction l as [|p l IH]; intros c; simpl; [apply Qle_refl|].
  destruct (Qltb c p) eqn:E.
  - apply Qltb_iff in E. eapply Qle_trans; [apply Qlt_le_weak, E|apply IH].
  - apply IH.
Qed.

Lemma fold_max_ge (l : list Q) (c p : Q) :
  In p l -> (p <= fold_left (fun c p => if Qltb c p then p else c) l c)%Q.
Proof.
  revert c. induction l as [|q l IH]; intros c Hin; [destruct Hin|].
  destruct Hin as [->|Hin]; simpl.
  - destruct (Qltb c p) eqn:E; [apply fold_max_ge_init|].
    apply Qltb_false in E. eapply Qle_trans; [exact E|apply fold_max_ge_init].
  - apply IH, Hin.
Qed.

Lemma std_max_ge_l (a b : Q) : (a <= std_max a b)%Q.
Proof.
  unfold std_max. destruct (Qltb a b) eqn:E; [apply Qlt_le_weak, Qltb_iff, E|apply Qle_refl].
Qed.

Lemma std_max_ge_r (a b : Q) : (b <= std_max a b)%Q.
Proof.
  unfold std_max. destruct (Qltb a b) eqn:E; [apply Qle_refl|apply Qltb_false, E].
Qed.

(** X24: when the block cursor is in range, writing a sample whose magnitude
    exceeds a threshold makes [isLive] true for that threshold. *)
Theorem writeSample_loud_is_live (threshold x : Q) (ch : InputChannel.t) :
  (InputChannel.blockWritePos_ ch < length (InputChannel.blockPeaks_ ch))%nat ->
  (threshold < Qabs x)%Q ->
  InputChannel.isLive threshold (InputChannel.writeSample x ch) = true.
Proof.
  intros Hw Ht. unfold InputChannel.isLive.
  destruct (Qle_bool threshold 0); [reflexivity|]. apply Qltb_iff.
  set (cbp := if Qltb (InputChannel.currentBlockPeak_ ch) (Qabs x) then Qabs x
              else InputChannel.currentBlockPeak_ ch).
  assert (Hc : (Qabs x <= cbp)%Q).
  { unfold cbp. destruct (Qltb _ (Qabs x)) eqn:E; [apply Qle_refl|apply Qltb_false, E]. }
  unfold InputChannel.writeSample. fold cbp.
  destruct (InputChannel.kBlockSize <=? InputChannel.sampleInBlock_ ch + 1).
  - unfold InputChannel.peakLevel; cbn.
    eapply Qlt_le_trans; [|apply std_max_ge_l].
    eapply Qlt_le_trans; [exact Ht|]. eapply Qle_trans; [exact Hc|].
    apply fold_max_ge.
    apply nth_error_In with (n := InputChannel.blockWritePos_ ch).
    rewrite nth_error_update_nth_eq.
    destruct (nth_error (InputChannel.blockPeaks_ ch) (InputChannel.blockWritePos_ ch)) eqn:E;
      [reflexivity|apply nth_error_None in E; lia].
  - unfold InputChannel.peakLevel; cbn.
    eapply Qlt_le_trans; [|apply std_max_ge_r]. eapply Qlt_le_trans; [exact Ht|exact Hc].
Qed.

(** ** Loop engine: commands, due operations and capture *)

Lemma due_false_some (x cur : Z) : Engine.due (Some x) cur = false -> (x <=? cur) = false.
Proof. exact (fun H => H). Qed.

(** X25: when no pending slot of a loop is due at the current sample,
    [flushDueOps] leaves the loop and the engine unchanged. *)
Theorem flushDueOps_nothing_due (lp : Loop.t) (e : Engine.t) (cur : Z) :
  any_due (Loop.pending_ lp) cur = false ->
  Engine.flushDueOps lp e cur = (lp, e).
Proof.
  intros H. destruct lp as [ly st ll pp rv sp fp cf lb rb cb sr id ps].
  destruct ps as [mu ov re un spd cl cp rc mo oo ro].
  unfold any_due in H. cbn [Loop.pending_ ps_clear ps_capture ps_record ps_mute ps_overdub
    ps_reverse ps_speed ps_undo] in H.
  repeat rewrite orb_false_iff in H.
  destruct H as [[[[[[[Hcl Hcp] Hrc] Hmu] Hov] Hre] Hsp] Hun].
  unfold Engine.flushDueOps. cbn [Loop.pending_ ps_clear].
  rewrite Hcl.
  destruct cp as [c|]; [apply due_false_some in Hcp; cbn; rewrite Hcp|cbn].
  all: destruct rc as [r|]; [apply due_false_some in Hrc; cbn; rewrite Hrc|cbn].
  all: destruct mu as [m|]; [apply due_false_some in Hmu; cbn; rewrite Hmu|cbn].
  all: destruct ov as [o|]; [apply due_false_some in Hov; cbn; rewrite Hov|cbn].
  all: destruct re as [r'|]; [apply due_false_some in Hre; cbn; rewrite Hre|cbn].
  all: destruct spd as [s|]; [apply due_false_some in Hsp; cbn; rewrite Hsp|cbn].
  all: destruct un as [u|]; [apply due_false_some in Hun; cbn; rewrite Hun|cbn].
  all: reflexivity.
Qed.

Lemma applyCommand_out_of_range (cmd : EngineCommand) (e : Engine.t) :
  loop_targeted (commandType cmd) = true ->
  Engine.in_range (cmd_loopIndex cmd) e = false ->
  Engine.applyCommand cmd e = e.
Proof.
  intros Ht Hr. unfold Engine.applyCommand. rewrite Hr.
  destruct (commandType cmd); try discriminate; reflexivity.
Qed.

(** X26: draining loop-targeted commands (ScheduleOp, CaptureLoop, Record,
    StopRecord, SetSpeed) whose loop index is outside [[0, maxLoops)] leaves
    the engine unchanged. *)
Theorem drainCommands_out_of_range (q : list EngineCommand) (e : Engine.t) :
  Forall (fun c => loop_targeted (commandType c) = true
                   /\ Engine.in_range (cmd_loopIndex c) e = false) q ->
  Engine.drainCommands q e = e.
Proof.
  unfold Engine.drainCommands. induction 1 as [|c q [Ht Hr] _ IH]; [reflexivity|].
  simpl. rewrite applyCommand_out_of_range by assumption. exact IH.
Qed.

Lemma fold_min_le (l : list RingBuffer.t) (x : Z) :
  fold_left (fun lb rb => Z.min lb (Z.of_nat (RingBuffer.available rb))) l x <= x.
Proof.
  revert x. induction l as [|r l IH]; intros x; simpl; [lia|].
  specialize (IH (Z.min x (Z.of_nat (RingBuffer.available r)))). lia.
Qed.

Lemma fold_min_le_in (l : list RingBuffer.t) (x : Z) (r : RingBuffer.t) :
  In r l ->
  fold_left (fun lb rb => Z.min lb (Z.of_nat (RingBuffer.available rb))) l x
  <= Z.of_nat (RingBuffer.available r).
Proof.
  revert x. induction l as [|r' l IH]; intros x Hin; [destruct Hin|].
  destruct Hin as [->|Hin]; simpl.
  - pose proof (fold_min_le l (Z.min x (Z.of_nat (RingBuffer.available r)))). lia.
  - apply IH, Hin.
Qed.

(** X27: if some input channel's ring buffer has nothing available,
    [fulfillCapture] leaves the loop unchanged and only emits the message
    that there is no audio to capture. *)
Theorem fulfillCapture_empty_ring (lp : Loop.t) (cap : PendingCapture) (e : Engine.t)
    (rb : RingBuffer.t) :
  In rb (Engine.inputRings_ e) -> RingBuffer.available rb = 0%nat ->
  Engine.fulfillCapture lp cap e = (lp, Engine.message MsgNoAudioToCapture e).
Proof.
  intros Hin H0. unfold Engine.fulfillCapture.
  pose proof (fold_min_le_in (Engine.inputRings_ e)
    (if c_lookbackSamples cap <=? 0
     then std_round (inject_Z (Engine.lookbackBars_ e)
                     * Metronome.samplesPerBar (Engine.metronome_ e))%Q
     else c_lookbackSamples cap) rb Hin) as Hle.
  rewrite H0 in Hle. cbv zeta.
  replace (_ <=? 0) with true by (symmetry; apply Z.leb_le; lia). reflexivity.
Qed.

(** X28: a SetBpm command sets both the metronome and the MIDI clock to the
    tempo clamped to [[1, 999]], appends the requested value to the
    tempo-change notifications, leaves empty loops unchanged and gives every
    non-empty loop that clamped tempo as its current tempo, keeping its
    layers, state and length. *)
Theorem setBpm_command_propagates (o : OpType) (i : Z) (q : Quantize) (v : Q) (lb : Z) (e : Engine.t) :
  let e' := Engine.applyCommand (mkCmd Cmd_SetBpm o i q v lb) e in
  let b := std_max 1%Q (std_min v (999 # 1)) in
  Metronome.bpm (Engine.metronome_ e') = b /\
  midi_bpm (Engine.midiSync_ e') = b /\
  Engine.bpmChanges_ e' = Engine.bpmChanges_ e ++ [v] /\
  length (Engine.loops_ e') = length (Engine.loops_ e) /\
  forall n lp, nth_error (Engine.loops_ e) n = Some lp ->
    exists lp', nth_error (Engine.loops_ e') n = Some lp' /\
      (Loop.isEmpty lp = true -> lp' = lp) /\
      (Loop.isEmpty lp = false ->
         Loop.currentBpm_ lp' = b /\ Loop.layers_ lp' = Loop.layers_ lp
         /\ Loop.state_ lp' = Loop.state_ lp /\ Loop.loopLength_ lp' = Loop.loopLength_ lp).
Proof.
  cbv zeta. unfold Engine.applyCommand. cbn [commandType value].
  split; [reflexivity|]. split; [reflexivity|]. split; [reflexivity|].
  split; [cbn; apply length_map|].
  intros n lp Hn. cbn [Engine.loops_ Engine.set_loops Engine.set_bpmChanges
    Engine.set_midiSync Engine.set_metronome].
  rewrite nth_error_map, Hn. eexists; split; [reflexivity|].
  split; intros He; rewrite He; [reflexivity|].
  unfold Loop.setCurrentBpm. cbv zeta.
  destruct (_ && _); [repeat split; reflexivity|].
  destruct (_ && _); repeat split; reflexivity.
Qed.

Lemma computeExecuteSample_with_loop_pending (q : Quantize) (i : Z) f (e : Engine.t) :
  Engine.computeExecuteSample q (Engine.with_loop_pending i f e)
  = Engine.computeExecuteSample q e.
Proof. destruct q; reflexivity. Qed.







(** ** Concrete instances of the further properties *)

Ltac close_concrete :=
  first [ reflexivity | lia | discriminate
        | (vm_compute; first [ reflexivity | discriminate | lia | congruence ]) ].

Lemma readFromPast_older_block_witness :
  (length [1; 2]%Q + length [3]%Q <= 4)%nat /\ length [0; 0]%Q = length [1; 2]%Q /\
  RingBuffer.readFromPast
    (RingBuffer.write [3]%Q (RingBuffer.write [1; 2]%Q
       (RingBuffer.writes [[5; 6; 7]%Q] (RingBuffer.create 4))))
    [0; 0]%Q (length [1; 2]%Q) (length [1; 2]%Q + length [3]%Q) = [1; 2]%Q.
Proof.
  split; [simpl; lia|]. split; [reflexivity|].
  apply (readFromPast_older_block 4 [[5; 6; 7]%Q] [1; 2]%Q [3]%Q [0; 0]%Q);
    close_concrete.
Defined.

Lemma capture_zero_fills_witness :
  (0 < 4)%nat /\ (length (concat [[1; 2]; [3]]%Q) <= 4)%nat /\
  (length (concat [[1; 2]; [3]]%Q) <= 5)%nat /\
  RingBuffer.capture (RingBuffer.writes [[1; 2]; [3]]%Q (RingBuffer.create 4)) 5
  = repeat 0%Q (5 - length (concat [[1; 2]; [3]]%Q)) ++ concat [[1; 2]; [3]]%Q.
Proof.
  split; [lia|]. split; [simpl; lia|]. split; [simpl; lia|].
  apply (capture_zero_fills 4 5 [[1; 2]; [3]]%Q); simpl; lia.
Defined.

Lemma capture_keeps_last_capacity_witness :
  (0 < 2)%nat /\ (2 <= length [1; 2; 3]%Q)%nat /\
  RingBuffer.capture (RingBuffer.write [1; 2; 3]%Q
                        (RingBuffer.writes [[9]%Q] (RingBuffer.create 2))) 2
  = skipn (length [1; 2; 3]%Q - 2) [1; 2; 3]%Q.
Proof.
  split; [lia|]. split; [simpl; lia|].
  apply (capture_keeps_last_capacity 2 [[9]%Q] [1; 2; 3]%Q); simpl; lia.
Defined.

Lemma clear_reads_silence_witness :
  (0 < RingBuffer.capacity (RingBuffer.write [1; 2]%Q (RingBuffer.create 3)))%nat /\
  length [5; 5]%Q = 2%nat /\
  RingBuffer.readFromPast (RingBuffer.clear (RingBuffer.write [1; 2]%Q (RingBuffer.create 3)))
    [5; 5]%Q 2 1 = repeat 0%Q 2.
Proof.
  split; [vm_compute; lia|]. split; [reflexivity|].
  apply (clear_reads_silence (RingBuffer.write [1; 2]%Q (RingBuffer.create 3)) [5; 5]%Q 2 1);
    close_concrete.
Defined.

Lemma crossfadeGain_bounds_witness :
  let lp := Loop.setCrossfadeSamples 2 (Loop.loadFromCapture [1; 2; 3; 4; 5; 6]%Q (Loop.create 0)) in
  0 <= 1 < Loop.loopLength_ lp /\ (0 <= Loop.crossfadeGain 1 lp <= 1)%Q.
Proof.
  intros lp. split; [vm_compute; split; congruence|].
  apply (crossfadeGain_bounds 1 lp). vm_compute. split; congruence.
Defined.

Lemma processBlock_moves_only_playhead_witness :
  let lp := Loop.loadFromCapture [1; 2; 3]%Q (Loop.create 0) in
  exists pp fp, snd (Loop.processBlock [0; 0; 0; 0]%Q lp) = Loop.set_playhead pp fp lp
    /\ 0 <= pp < Loop.loopLength_ lp /\ (0 <= fp < 1)%Q.
Proof.
  intros lp. apply (processBlock_moves_only_playhead [0; 0; 0; 0]%Q lp).
  - close_concrete.
  - close_concrete.
  - vm_compute. split; congruence.
  - vm_compute. split; congruence.
Defined.

Lemma overdub_recordSample_mix_witness :
  let lp := Loop.loadFromCapture [1; 2; 3]%Q (Loop.create 0) in
  Loop.state_ lp <> Empty /\ 0 <= Loop.playPos_ lp < Loop.loopLength_ lp /\
  (Loop.getMixedSample 0 (Loop.recordSample 5 (Loop.startOverdub lp))
   == Loop.getMixedSample 0 lp + if 0 =? Loop.readPos lp then 5 else 0)%Q.
Proof.
  intros lp. split; [discriminate|]. split; [vm_compute; split; congruence|].
  apply (overdub_recordSample_mix 5 lp 0); [discriminate | vm_compute; split; congruence].
Defined.

Lemma position_decomposes_witness :
  let m := Metronome.with_total (Metronome.create (128 # 1) 4 (44100 # 1)) 100000 in
  0 <= pos_bar (Metronome.position m) /\
  0 <= pos_beat (Metronome.position m) < Metronome.beatsPerBar_ m /\
  (0 <= pos_beatFraction (Metronome.position m) < 1)%Q /\
  (inject_Z (Metronome.totalSamples_ m)
   == (inject_Z (pos_bar (Metronome.position m) * Metronome.beatsPerBar_ m
                 + pos_beat (Metronome.position m))
       + pos_beatFraction (Metronome.position m)) * Metronome.samplesPerBeat_ m)%Q.
Proof.
  intros m. apply (position_decomposes m); close_concrete.
Defined.

Lemma setBeatsPerBar_keeps_beat_grid_witness :
  let m := Metronome.with_total (Metronome.create (128 # 1) 4 (44100 # 1)) 100000 in
  Metronome.samplesPerBeat_ m = ((60 # 1) / Metronome.bpm_ m * Metronome.sampleRate_ m)%Q /\
  1 <= Metronome.beatsPerBar_ (Metronome.setBeatsPerBar 3 m) <= 16 /\
  Metronome.totalSamples_ (Metronome.setBeatsPerBar 3 m) = Metronome.totalSamples_ m /\
  Metronome.samplesPerBeat_ (Metronome.setBeatsPerBar 3 m) = Metronome.samplesPerBeat_ m /\
  pos_bar (Metronome.position (Metronome.setBeatsPerBar 3 m))
    * Metronome.beatsPerBar_ (Metronome.setBeatsPerBar 3 m)
  + pos_beat (Metronome.position (Metronome.setBeatsPerBar 3 m))
  = pos_bar (Metronome.position m) * Metronome.beatsPerBar_ m
    + pos_beat (Metronome.position m) /\
  pos_beatFraction (Metronome.position (Metronome.setBeatsPerBar 3 m))
  = pos_beatFraction (Metronome.position m).
Proof.
  intros m. split; [reflexivity|].
  apply (setBeatsPerBar_keeps_beat_grid 3 m). reflexivity.
Defined.

Lemma accum_setBeatsPerBar_normalises_witness :
  let m := fst (MetronomeAccum.advance 70000 (MetronomeAccum.create (120 # 1) 4 (44100 # 1))) in
  0 <= MetronomeAccum.currentBeat_ m /\
  1 <= MetronomeAccum.beatsPerBar_ (MetronomeAccum.setBeatsPerBar 2 m) <= 16 /\
  0 <= MetronomeAccum.currentBeat_ (MetronomeAccum.setBeatsPerBar 2 m)
     < MetronomeAccum.beatsPerBar_ (MetronomeAccum.setBeatsPerBar 2 m) /\
  MetronomeAccum.sampleInBeat_ (MetronomeAccum.setBeatsPerBar 2 m)
    = MetronomeAccum.sampleInBeat_ m /\
  MetronomeAccum.totalSamples_ (MetronomeAccum.setBeatsPerBar 2 m)
    = MetronomeAccum.totalSamples_ m.
Proof.
  intros m. assert (H : 0 <= MetronomeAccum.currentBeat_ m) by (vm_compute; discriminate).
  split; [exact H|]. exact (accum_setBeatsPerBar_normalises 2 m H).
Defined.

Lemma accum_setBpm_keeps_phase_witness :
  let m := fst (MetronomeAccum.advance 30000 (MetronomeAccum.create (120 # 1) 4 (44100 # 1))) in
  (pos_beatFraction (MetronomeAccum.position (MetronomeAccum.setBpm (90 # 1) m))
   == pos_beatFraction (MetronomeAccum.position m))%Q /\
  pos_bar (MetronomeAccum.position (MetronomeAccum.setBpm (90 # 1) m))
    = pos_bar (MetronomeAccum.position m) /\
  pos_beat (MetronomeAccum.position (MetronomeAccum.setBpm (90 # 1) m))
    = pos_beat (MetronomeAccum.position m) /\
  pos_totalSamples (MetronomeAccum.position (MetronomeAccum.setBpm (90 # 1) m))
    = pos_totalSamples (MetronomeAccum.position m).
Proof.
  intros m. apply (accum_setBpm_keeps_phase (90 # 1) m); close_concrete.
Defined.

Lemma accum_setSampleRate_keeps_phase_witness :
  let m := fst (MetronomeAccum.advance 30000 (MetronomeAccum.create (120 # 1) 4 (44100 # 1))) in
  (pos_beatFraction (MetronomeAccum.position (MetronomeAccum.setSampleRate (48000 # 1) m))
   == pos_beatFraction (MetronomeAccum.position m))%Q /\
  pos_bar (MetronomeAccum.position (MetronomeAccum.setSampleRate (48000 # 1) m))
    = pos_bar (MetronomeAccum.position m) /\
  pos_beat (MetronomeAccum.position (MetronomeAccum.setSampleRate (48000 # 1) m))
    = pos_beat (MetronomeAccum.position m) /\
  pos_totalSamples (MetronomeAccum.position (MetronomeAccum.setSampleRate (48000 # 1) m))
    = pos_totalSamples (MetronomeAccum.position m).
Proof.
  intros m. apply (accum_setSampleRate_keeps_phase (48000 # 1) m); close_concrete.
Defined.


Lemma midi_advance_ticks_witness :
  let s := mkMidi (120 # 1) (44100 # 1) (11025 # 12) 0 in
  (1 <= midi_samplesPerTick s)%Q /\ (0 <= midi_sampleInTick s < midi_samplesPerTick s)%Q /\
  let '(s', out) := midi_advance true 2000 s in
  out = repeat kClockTick (length out) /\
  (0 <= midi_sampleInTick s' < midi_samplesPerTick s')%Q /\
  Z.of_nat (length out)
  = Qfloor ((midi_sampleInTick s + inject_Z (if true then Z.max 2000 0 else 0))
            / midi_samplesPerTick s) /\
  (midi_sampleInTick s + inject_Z (if true then Z.max 2000 0 else 0)
   == inject_Z (Z.of_nat (length out)) * midi_samplesPerTick s + midi_sampleInTick s')%Q.
Proof.
  intros s.
  assert (H1 : (1 <= midi_samplesPerTick s)%Q) by close_concrete.
  assert (H2 : (0 <= midi_sampleInTick s < midi_samplesPerTick s)%Q)
    by (split; close_concrete).
  split; [exact H1|]. split; [exact H2|].
  exact (midi_advance_ticks true 2000 s H1 H2).
Defined.

Lemma midi_tempo_setters_keep_phase_witness :
  let s := fst (midi_advance true 1000 (mkMidi (120 # 1) (44100 # 1) (11025 # 12) 0)) in
  (midi_sampleInTick (midi_setBpm (90 # 1) s) / midi_samplesPerTick (midi_setBpm (90 # 1) s)
   == midi_sampleInTick s / midi_samplesPerTick s)%Q /\
  (midi_sampleInTick (midi_setSampleRate (48000 # 1) s)
   / midi_samplesPerTick (midi_setSampleRate (48000 # 1) s)
   == midi_sampleInTick s / midi_samplesPerTick s)%Q.
Proof.
  intros s. apply (midi_tempo_setters_keep_phase (90 # 1) (48000 # 1) s); close_concrete.
Defined.

Lemma writeSample_loud_is_live_witness :
  let ch := InputChannel.create 16 1024 in
  (InputChannel.blockWritePos_ ch < length (InputChannel.blockPeaks_ ch))%nat /\
  ((1 # 2) < Qabs (- (3 # 4)))%Q /\
  InputChannel.isLive (1 # 2) (InputChannel.writeSample (- (3 # 4)) ch) = true.
Proof.
  intros ch. split; [vm_compute; lia|]. split; [close_concrete|].
  apply (writeSample_loud_is_live (1 # 2) (- (3 # 4)) ch); [vm_compute; lia | close_concrete].
Defined.

Lemma flushDueOps_nothing_due_witness :
  let lp := Loop.set_pending
              (mkPending (Some (mkTimed 100 Beat)) None None
                 (Some (mkUndo 80 Bar 2 Undo)) None None None None
                 MuteOp_Mute OverdubOp_Start RecordOp_Start)
              (Loop.loadFromCapture [1; 2]%Q (Loop.create 0)) in
  let e := example_engine 0 None [lp] in
  any_due (Loop.pending_ lp) 50 = false /\ Engine.flushDueOps lp e 50 = (lp, e).
Proof.
  intros lp e. split; [reflexivity|].
  apply (flushDueOps_nothing_due lp e 50). reflexivity.
Defined.

Lemma drainCommands_out_of_range_witness :
  let e := example_engine 0 None [Loop.create 0] in
  let q := [mkCmd Cmd_Record Op_Mute 1 Free 0 0; mkCmd Cmd_ScheduleOp Op_Reverse (-1) Bar 0 0;
            mkCmd Cmd_SetSpeed Op_Mute 7 Free 2 0] in
  Engine.drainCommands q e = e.
Proof.
  intros e q. apply (drainCommands_out_of_range q e).
  repeat constructor.
Defined.

Lemma fulfillCapture_empty_ring_witness :
  let e := Engine.set_inputRings [RingBuffer.write [1]%Q (RingBuffer.create 8); RingBuffer.create 8]
             (example_engine 0 None [Loop.create 0]) in
  In (RingBuffer.create 8) (Engine.inputRings_ e) /\ RingBuffer.available (RingBuffer.create 8) = 0%nat /\
  Engine.fulfillCapture (Loop.create 0) (mkCapture 0 Free 4) e
  = (Loop.create 0, Engine.message MsgNoAudioToCapture e).
Proof.
  intros e. split; [simpl; right; left; reflexivity|]. split; [reflexivity|].
  apply (fulfillCapture_empty_ring (Loop.create 0) (mkCapture 0 Free 4) e (RingBuffer.create 8));
    [simpl; right; left; reflexivity | reflexivity].
Defined.


